(** * proto-bubbles: particle lifecycle and spawn placement (src/main.js)

    A shallow embedding of the bubble engine of [main.js]: [respawnBubble],
    [interactWithKeypoint], [animate] with the callback it runs on every
    bubble ([animateBubble]), and [createBubbles] with the body of its loop
    ([createBubble]).

    Conventions of the embedding.
    - A JavaScript number is a real number ([R]) and there is no infinity.
      Arithmetic is exact, except in the two places where the rounding of
      binary64 arithmetic decides what the program reads or stores: the
      depth pixel of lines 724-725, whose coordinates are floors of
      rounded products, and the fade of lines 557-558, which ends on a
      rounded difference.  There every operation is followed by [round64],
      rounding to the nearest binary64 number, ties to even; the
      magnitudes involved are far from overflow, which is not modelled.
    - The one place where the source can produce [NaN] from well-typed
      data, arithmetic on an out-of-range buffer read, is kept: values that
      flow into [userData.depth] and [scale] have type [num].
    - A division by zero is outside the model: the source divides by the
      mask dimensions, by [video.width] and [video.height], by the
      interaction radius and by the effective lifespan, and the theorems
      that depend on such a quotient take the divisor to be non-zero.
    - Image dimensions, pixel coordinates and buffer indices are integers
      ([Z]); pixel buffers are byte sequences; reading outside a buffer
      yields [undefined] ([None]).
    - [Math.random()] is an oracle [rnd : nat -> R] read at a cursor that
      every call advances by one; [Date.now()] is a parameter, in
      milliseconds.
    - [console.log] has no effect on the state and is left out, but the
      [Math.random()] calls that guard the logging are kept, since they
      advance the cursor.
    - Every bubble is a [THREE.Mesh] built by [createBubbles] with its own
      cloned material, so [bubble.material] is always present; the field
      [opacity] stands for [bubble.material.opacity]. *)

From Stdlib Require Import Reals Lra Lia ZArith List Bool Psatz.
From Stdlib Require Import Zfloor.
From Stdlib Require Import Strings.Byte.
From Stdlib Require Floats.SpecFloat.
Import ListNotations.

#[local] Open Scope R_scope.

(** ** Numbers and buffers *)

(** A number that may be [NaN]. *)
Inductive num : Type :=
| NaN
| Fin (r : R).

Definition num_lift (f : R -> R) (n : num) : num :=
  match n with
  | NaN => NaN
  | Fin r => Fin (f r)
  end.

(** [a < b] as a boolean, for [if] and [&&]. *)
Definition Rltb (a b : R) : bool :=
  if Rlt_dec a b then true else false.

(** *** Binary64 rounding

    [bpow e] is [2^e]; [mag x] is the exponent [e] with
    [2^e <= |x| < 2^(e+1)]; a binary64 number near [x] is a multiple of
    [2^(ulpExp x)]: 53 significant bits, and subnormal numbers below
    [2^-1022].  [round64 x] is the multiple nearest to [x], the even one
    when two are equally near. *)
Definition bpow (e : Z) : R :=
  match e with
  | Z0 => 1
  | Zpos p => IZR (Z.pow_pos 2 p)
  | Zneg p => / IZR (Z.pow_pos 2 p)
  end.

Definition mag (x : R) : Z := Zfloor (ln (Rabs x) / ln 2).

Definition ulpExp (x : R) : Z := Z.max (mag x - 52) (-1074).

Definition nearestEven (x : R) : Z :=
  let n := Zfloor x in
  if Rltb (x - IZR n) (1 / 2) then n
  else if Rltb (1 / 2) (x - IZR n) then (n + 1)%Z
  else if Z.even n then n else (n + 1)%Z.

Definition round64 (x : R) : R :=
  IZR (nearestEven (x * bpow (- ulpExp x))) * bpow (ulpExp x).

Definition byte_val (x : byte) : Z := Z.of_N (Byte.to_N x).

(** [arr[i]] on a byte array: [None] is [undefined]. *)
Definition js_index (arr : list byte) (i : Z) : option Z :=
  if (i <? 0)%Z then None
  else option_map byte_val (nth_error arr (Z.to_nat i)).

(** [Math.atan2(y, x)] on real arguments (signed zeros do not exist here:
    [dx] and [dy] are differences, and [x - x] is [+0]). *)
Definition atan2 (y x : R) : R :=
  if Rlt_dec 0 x then atan (y / x)
  else if Rlt_dec x 0 then
    (if Rle_dec 0 y then atan (y / x) + PI else atan (y / x) - PI)
  else if Rlt_dec 0 y then PI / 2
  else if Rlt_dec y 0 then - (PI / 2)
  else 0.

(** ** Data model *)

Record Vector3 (A : Type) : Type := mkVector3 { vx : A; vy : A; vz : A }.
Arguments mkVector3 {A} _ _ _.
Arguments vx {A} _.
Arguments vy {A} _.
Arguments vz {A} _.

(** [THREE.Vector3.setScalar] and [THREE.Vector3.lerp]. *)
Definition setScalar (s : num) : Vector3 num := mkVector3 s s s.

Definition lerp1 (target alpha : R) (x : num) : num :=
  num_lift (fun x => x + (target - x) * alpha) x.

Definition lerp (v : Vector3 num) (target alpha : R) : Vector3 num :=
  mkVector3 (lerp1 target alpha (vx v))
            (lerp1 target alpha (vy v))
            (lerp1 target alpha (vz v)).

Record UserData : Type := mkUserData {
  velocityMultiplier : R;
  initialScale : R;
  wobbleSpeed : R;
  wobbleOffset : R;
  randomOffset : R;
  birthTime : R;
  lifespanMultiplier : R;
  depth : option num            (* [None] is [undefined] *)
}.

Record Bubble : Type := mkBubble {
  position : Vector3 R;
  scale : Vector3 num;
  opacity : R;                  (* bubble.material.opacity *)
  userData : UserData
}.

(** [{width, height, data}] of a mask or a depth image. *)
Record ImageBuf : Type := mkImageBuf {
  width : Z;
  height : Z;
  data : option (list byte)
}.

Record SegmentationResult : Type := mkSeg { mask : option ImageBuf }.
(** [depthImage] is the field [depth] of a depth snapshot, renamed:
    [depth] is the field of [userData]. *)
Record DepthResult : Type := mkDepth { depthImage : option ImageBuf }.

Record Keypoint : Type := mkKeypoint { kx : R; ky : R; confidence : R }.
Record Pose : Type := mkPose { keypoints : option (list Keypoint) }.

Record Config : Type := mkConfig {
  bubbleCount : Z;
  bubbleSpeed : R;
  bubbleSize : R;
  interactionRadius : R;
  spawnOnBody : bool;
  invertMask : bool;
  bubbleLifespan : R
}.

(** The globals of [main.js] that the engine reads. *)
Record Globals : Type := mkGlobals {
  CONFIG : Config;
  poses : list Pose;
  segmentationResult : option SegmentationResult;
  depthResult : option DepthResult;
  video_width : R;              (* video.width *)
  video_height : R;             (* video.height *)
  visibleWidth : R;
  visibleHeight : R
}.

(** Field updates. *)
Definition set_xy (x y : R) (b : Bubble) : Bubble :=
  mkBubble (mkVector3 x y (vz (position b))) (scale b) (opacity b) (userData b).

Definition set_x (x : R) (b : Bubble) : Bubble :=
  mkBubble (mkVector3 x (vy (position b)) (vz (position b)))
           (scale b) (opacity b) (userData b).

Definition set_y (y : R) (b : Bubble) : Bubble :=
  mkBubble (mkVector3 (vx (position b)) y (vz (position b)))
           (scale b) (opacity b) (userData b).

Definition set_z (z : R) (b : Bubble) : Bubble :=
  mkBubble (mkVector3 (vx (position b)) (vy (position b)) z)
           (scale b) (opacity b) (userData b).

Definition set_scale (s : Vector3 num) (b : Bubble) : Bubble :=
  mkBubble (position b) s (opacity b) (userData b).

Definition set_opacity (o : R) (b : Bubble) : Bubble :=
  mkBubble (position b) (scale b) o (userData b).

Definition set_depth (d : num) (b : Bubble) : Bubble :=
  let u := userData b in
  mkBubble (position b) (scale b) (opacity b)
    (mkUserData (velocityMultiplier u) (initialScale u) (wobbleSpeed u)
       (wobbleOffset u) (randomOffset u) (birthTime u)
       (lifespanMultiplier u) (Some d)).

Definition set_birthTime (t : R) (b : Bubble) : Bubble :=
  let u := userData b in
  mkBubble (position b) (scale b) (opacity b)
    (mkUserData (velocityMultiplier u) (initialScale u) (wobbleSpeed u)
       (wobbleOffset u) (randomOffset u) t
       (lifespanMultiplier u) (depth u)).

Definition set_lifespanMultiplier (m : R) (b : Bubble) : Bubble :=
  let u := userData b in
  mkBubble (position b) (scale b) (opacity b)
    (mkUserData (velocityMultiplier u) (initialScale u) (wobbleSpeed u)
       (wobbleOffset u) (randomOffset u) (birthTime u)
       m (depth u)).

(** ** respawnBubble (main.js 658-790) *)

(** Lines 684-686: the pixel a draw is mapped to, and its buffer index. *)
Definition maskPixel (m : ImageBuf) (rx ry : R) : Z * Z :=
  (Zfloor (rx * IZR (width m)), Zfloor (ry * IZR (height m))).

Definition maskIndex (m : ImageBuf) (mx my : Z) : Z :=
  ((my * width m + mx) * 4)%Z.

(** Lines 692 and 700: [a > 127], false when [a] is [undefined]. *)
Definition isPerson (maskData : list byte) (index : Z) : bool :=
  match js_index maskData (index + 3) with
  | Some a => (127 <? a)%Z
  | None => false
  end.

(** Line 704. *)
Definition shouldSpawn (g : Globals) (m : ImageBuf) (maskData : list byte)
    (rx ry : R) : bool :=
  let '(mx, my) := maskPixel m rx ry in
  let person := isPerson maskData (maskIndex m mx my) in
  if invertMask (CONFIG g) then negb person else person.

(** Lines 724-725: [Math.floor((x / w) * depthW)] for a mask coordinate [x],
    the quotient and the product each rounded to binary64.  The operands
    are integers, which binary64 holds exactly up to [2^53]. *)
Definition depthCoord (x w depthW : Z) : Z :=
  Zfloor (round64 (round64 (IZR x / IZR w) * IZR depthW)).

(** Lines 724-726: the depth pixel that the mask pixel [(mx, my)] of a
    [w] x [h] mask is rescaled to, and the index of its red channel. *)
Definition depthPixel (d : ImageBuf) (mx my w h : Z) : Z * Z :=
  (depthCoord mx w (width d), depthCoord my h (height d)).

Definition depthIndex (d : ImageBuf) (mx my w h : Z) : Z :=
  ((snd (depthPixel d mx my w h) * width d
    + fst (depthPixel d mx my w h)) * 4)%Z.

(** Lines 717-734: the value stored into [userData.depth] for the mask pixel
    [(mx, my)] of a [w] x [h] mask. *)
Definition sampleDepth (g : Globals) (mx my w h : Z) : num :=
  let depthValue :=
    match depthResult g with
    | Some dr =>
        match depthImage dr with
        | Some d =>
            match data d with
            | Some depthData =>
                match js_index depthData (depthIndex d mx my w h) with
                | Some v => Fin (IZR v / 255)
                | None => NaN
                end
            | None => Fin 0.5
            end
        | None => Fin 0.5
        end
    | None => Fin 0.5
    end in
  num_lift (fun v => 1 - v) depthValue.

(** Lines 710-734: what an accepted pixel writes into the bubble. *)
Definition spawnAt (g : Globals) (m : ImageBuf) (mx my : Z) (b : Bubble)
    : Bubble :=
  let w := width m in
  let h := height m in
  let normX := 1 - IZR mx / IZR w in
  let normY := 1 - IZR my / IZR h in
  let b := set_xy ((normX - 0.5) * visibleWidth g)
                  ((normY - 0.5) * visibleHeight g) b in
  set_depth (sampleDepth g mx my w h) b.

(** Lines 677-748, [while (!spawned && attempts < 200)], by recursion on
    [200 - attempts].  Returns [spawned], the cursor and the bubble. *)
Fixpoint spawnLoop (g : Globals) (rnd : nat -> R) (m : ImageBuf)
    (remaining : nat) (c : nat) (b : Bubble) : bool * nat * Bubble :=
  match remaining with
  | O => (false, c, b)
  | S remaining' =>
      let rx := rnd c in
      let ry := rnd (S c) in
      let c := S (S c) in
      match data m with
      | Some maskData =>
          if shouldSpawn g m maskData rx ry then
            let '(mx, my) := maskPixel m rx ry in
            (true, S c, spawnAt g m mx my b)
          else spawnLoop g rnd m remaining' c b
      | None => spawnLoop g rnd m remaining' c b
      end
  end.

(** Lines 659-770: the placement attempt. *)
Definition respawnPlace (g : Globals) (rnd : nat -> R) (c : nat) (b : Bubble)
    : bool * nat * Bubble :=
  let c := S c in                       (* shouldDebug *)
  if spawnOnBody (CONFIG g) then
    match segmentationResult g with
    | Some seg =>
        match mask seg with
        | Some m => spawnLoop g rnd m 200 c b
        | None => (false, S c, b)
        end
    | None => (false, S c, b)
    end
  else (false, S c, b).

(** Lines 772-789. *)
Definition respawnFinish (g : Globals) (rnd : nat -> R) (now_ms : Z)
    (placed : bool * nat * Bubble) : nat * Bubble :=
  let '(spawned, c, b) := placed in
  let '(c, b) :=
    if spawned then (c, b)
    else (S c, set_y (- visibleHeight g / 2 - 5)
                 (set_x ((rnd c - 0.5) * visibleWidth g) b)) in
  let b := set_z ((rnd c - 0.5) * 15) b in
  let b := set_birthTime (IZR now_ms / 1000) b in
  let b := set_lifespanMultiplier (0.5 + rnd (S c) * 1.0) b in
  let b := set_opacity 0.5 b in
  (S (S c), b).

Definition respawnBubble (g : Globals) (rnd : nat -> R) (now_ms : Z)
    (c : nat) (b : Bubble) : nat * Bubble :=
  respawnFinish g rnd now_ms (respawnPlace g rnd c b).

(** ** interactWithKeypoint (main.js 792-816) *)

Definition targetX (g : Globals) (k : Keypoint) : R :=
  let normX := 1 - kx k / video_width g in
  (normX - 0.5) * visibleWidth g.

Definition targetY (g : Globals) (k : Keypoint) : R :=
  let normY := 1 - ky k / video_height g in
  (normY - 0.5) * visibleHeight g.

Definition keypointDist (g : Globals) (b : Bubble) (k : Keypoint) : R :=
  let dx := vx (position b) - targetX g k in
  let dy := vy (position b) - targetY g k in
  sqrt (dx * dx + dy * dy).

Definition interactWithKeypoint (g : Globals) (b : Bubble)
    (keypoint : option Keypoint) : Bubble :=
  match keypoint with
  | None => b
  | Some k =>
      if Rltb (confidence k) 0.2 then b
      else
        let dx := vx (position b) - targetX g k in
        let dy := vy (position b) - targetY g k in
        let dist := sqrt (dx * dx + dy * dy) in
        let radius := interactionRadius (CONFIG g) in
        if Rltb dist radius then
          let force := (radius - dist) / radius in
          let angle := atan2 dy dx in
          let b := set_x (vx (position b) + cos angle * force * 0.8) b in
          let b := set_y (vy (position b) + sin angle * force * 0.8) b in
          set_scale
            (setScalar (Fin (initialScale (userData b) * (1 + force * 0.5))))
            b
        else
          set_scale
            (lerp (scale b) (initialScale (userData b)) 0.1) b
  end.

(** ** animate, body of [bubbles.forEach] (main.js 527-593) *)

(** Lines 529-533. *)
Definition drift (g : Globals) (time : R) (b : Bubble) : Bubble :=
  let u := userData b in
  let velocity := bubbleSpeed (CONFIG g) * velocityMultiplier u in
  let b := set_y (vy (position b) + velocity) b in
  let b := set_x (vx (position b)
                  + sin (time * wobbleSpeed u + wobbleOffset u) * 0.01) b in
  set_z (vz (position b)
         + cos (time * wobbleSpeed u + randomOffset u) * 0.01) b.

(** Lines 536-543. *)
Definition depthScale (b : Bubble) : Bubble :=
  match depth (userData b) with
  | Some d =>
      let targetScale :=
        num_lift (fun d => initialScale (userData b) * (0.5 + d * 1.5)) d in
      set_scale (setScalar targetScale) b
  | None => b
  end.

(** Lines 555-561, in binary64: the literals [0.8] and [0.2] are the
    binary64 numbers nearest to them, and the subtraction, the division,
    the subtraction from 1 and the product are each rounded. *)
Definition fadeOpacity (lifeFraction : R) : R :=
  if Rltb (round64 0.8) lifeFraction then
    let fadeAmount :=
      round64
        (1 - round64 (round64 (lifeFraction - round64 0.8) / round64 0.2)) in
    round64 (0.5 * fadeAmount)
  else 0.5.

(** Lines 573-577. *)
Fixpoint forEachKeypoint (g : Globals) (kps : list Keypoint) (index : Z)
    (b : Bubble) : Bubble :=
  match kps with
  | [] => b
  | keypoint :: rest =>
      let b :=
        if ((5 <=? index)%Z && (index <=? 16)%Z)%bool
        then interactWithKeypoint g b (Some keypoint)
        else b in
      forEachKeypoint g rest (index + 1)%Z b
  end.

(** Lines 571-590. *)
Definition interactPose (g : Globals) (b : Bubble) (pose : Pose) : Bubble :=
  match keypoints pose with
  | Some kps =>
      let b := forEachKeypoint g kps 0%Z b in
      match nth_error kps 5, nth_error kps 6,
            nth_error kps 11, nth_error kps 12 with
      | Some s1, Some s2, Some h1, Some h2 =>
          if (Rltb 0.1 (confidence s1) && Rltb 0.1 (confidence s2)
              && Rltb 0.1 (confidence h1) && Rltb 0.1 (confidence h2))%bool
          then
            let torsoX := (kx s1 + kx s2 + kx h1 + kx h2) / 4 in
            let torsoY := (ky s1 + ky s2 + ky h1 + ky h2) / 4 in
            interactWithKeypoint g b (Some (mkKeypoint torsoX torsoY 1))
          else b
      | _, _, _, _ => b
      end
  | None => b
  end.

(** Lines 569-592. *)
Definition interactPoses (g : Globals) (b : Bubble) : Bubble :=
  if ((0 <? Z.of_nat (length (poses g)))%Z
      && negb (spawnOnBody (CONFIG g)))%bool
  then fold_left (interactPose g) (poses g) b
  else b.

(** Lines 564-592: what follows the lifespan block. *)
Definition animateTail (g : Globals) (rnd : nat -> R) (now_ms : Z) (c : nat)
    (b : Bubble) : nat * Bubble :=
  let '(c, b) :=
    if Rltb (visibleHeight g / 2 + 5) (vy (position b))
    then respawnBubble g rnd now_ms c b
    else (c, b) in
  (c, interactPoses g b).

(** The callback of [bubbles.forEach] in [animate]; [time_ms] is the
    [Date.now()] read at the top of [animate], [now_ms] the one read by a
    respawn during this callback. *)
Definition animateBubble (g : Globals) (rnd : nat -> R) (time_ms now_ms : Z)
    (c : nat) (b : Bubble) : nat * Bubble :=
  let time := IZR time_ms * 0.001 in
  let b := drift g time b in
  let b := depthScale b in
  if Rltb 0 (bubbleLifespan (CONFIG g)) then
    let actualLifespan :=
      bubbleLifespan (CONFIG g) * lifespanMultiplier (userData b) in
    let age := time - birthTime (userData b) in
    if Rltb actualLifespan age then
      respawnBubble g rnd now_ms c b          (* return *)
    else
      let lifeFraction := age / actualLifespan in
      animateTail g rnd now_ms c (set_opacity (fadeOpacity lifeFraction) b)
  else animateTail g rnd now_ms c b.

(** ** createBubbles, body of the [for] loop (main.js 191-226) *)

Definition createBubble (g : Globals) (rnd : nat -> R) (now_ms respawn_ms : Z)
    (i : Z) (c : nat) : nat * Bubble :=
  let cfg := CONFIG g in
  let x := (rnd c - 0.5) * visibleWidth g * 1.5 in
  let y := (rnd (c + 1)%nat - 0.5) * visibleHeight g * 1.5 in
  let z := (rnd (c + 2)%nat - 0.5) * 15 in
  let scale := rnd (c + 3)%nat * bubbleSize cfg + 0.1 in
  let baseTime := IZR now_ms / 1000 in
  let maxOffset := Rmax (bubbleLifespan cfg) 5 in
  let indexOffset := IZR i / IZR (bubbleCount cfg) * maxOffset in
  let birthRandomOffset :=
    rnd (c + 4)%nat * (maxOffset / IZR (bubbleCount cfg)) in
  let u :=
    mkUserData (rnd (c + 5)%nat * 0.1) scale (rnd (c + 6)%nat * 3)
      (rnd (c + 7)%nat * PI * 2) (rnd (c + 8)%nat * 100)
      (baseTime - indexOffset - birthRandomOffset)
      (0.5 + rnd (c + 9)%nat * 1.0) (Some (Fin 0.5)) in
  let mesh :=
    mkBubble (mkVector3 x y z) (setScalar (Fin scale)) 0.5 u in
  let c := (c + 10)%nat in
  if spawnOnBody cfg then
    match segmentationResult g with
    | Some seg =>
        match mask seg with
        | Some _ => respawnBubble g rnd respawn_ms c mesh
        | None => (c, mesh)
        end
    | None => (c, mesh)
    end
  else (c, mesh).

(** [createBubbles] (main.js 173-227): the pool is rebuilt from scratch by
    [bubbleCount] iterations; [now_ms i] and [respawn_ms i] are the
    [Date.now()] reads of iteration [i]. *)
Fixpoint createLoop (g : Globals) (rnd : nat -> R) (now_ms respawn_ms : Z -> Z)
    (remaining : nat) (i : Z) (c : nat) : nat * list Bubble :=
  match remaining with
  | O => (c, [])
  | S remaining' =>
      let '(c, mesh) := createBubble g rnd (now_ms i) (respawn_ms i) i c in
      let '(c, rest) :=
        createLoop g rnd now_ms respawn_ms remaining' (i + 1)%Z c in
      (c, mesh :: rest)
  end.

Definition createBubbles (g : Globals) (rnd : nat -> R)
    (now_ms respawn_ms : Z -> Z) (c : nat) : nat * list Bubble :=
  createLoop g rnd now_ms respawn_ms (Z.to_nat (bubbleCount (CONFIG g))) 0%Z c.

(** [animate] (main.js 518-596): the callback runs on every bubble of the
    pool in order; [now_ms i] is the [Date.now()] read by a respawn of
    bubble [i]. *)
Fixpoint animateFrom (g : Globals) (rnd : nat -> R) (time_ms : Z)
    (now_ms : nat -> Z) (i : nat) (c : nat) (bubbles : list Bubble)
    : nat * list Bubble :=
  match bubbles with
  | [] => (c, [])
  | bubble :: rest =>
      let '(c, bubble') := animateBubble g rnd time_ms (now_ms i) c bubble in
      let '(c, rest') := animateFrom g rnd time_ms now_ms (S i) c rest in
      (c, bubble' :: rest')
  end.

Definition animate (g : Globals) (rnd : nat -> R) (time_ms : Z)
    (now_ms : nat -> Z) (c : nat) (bubbles : list Bubble)
    : nat * list Bubble :=
  animateFrom g rnd time_ms now_ms 0 c bubbles.

(** ** updateVisibleBounds, onWindowResize (main.js 504-516) *)

(** The fields of the perspective camera that the engine reads: the vertical
    field of view in degrees, the aspect ratio and [camera.position.z]. *)
Record Camera : Type := mkCamera { fov : R; aspect : R; camera_z : R }.

(** [THREE.MathUtils.degToRad]. *)
Definition degToRad (degrees : R) : R := degrees * (PI / 180).

Definition set_visible (w h : R) (g : Globals) : Globals :=
  mkGlobals (CONFIG g) (poses g) (segmentationResult g) (depthResult g)
    (video_width g) (video_height g) w h.

Definition updateVisibleBounds (camera : Camera) (g : Globals) : Globals :=
  let vFOV := degToRad (fov camera) in
  let visibleHeight := 2 * tan (vFOV / 2) * camera_z camera in
  let visibleWidth := visibleHeight * aspect camera in
  set_visible visibleWidth visibleHeight g.

(** The camera and the globals after a resize to
    [innerWidth] x [innerHeight]; the renderer and composer sizes are not
    part of the state. *)
Definition onWindowResize (innerWidth innerHeight : R) (camera : Camera)
    (g : Globals) : Camera * Globals :=
  let camera :=
    mkCamera (fov camera) (innerWidth / innerHeight) (camera_z camera) in
  (camera, updateVisibleBounds camera g).

(** ** getVector3FromKeypoint (main.js 650-656) *)

(** [video.videoWidth] and [video.videoHeight], the intrinsic size of the
    stream (the element size [video.width], [video.height] is in
    [Globals]). *)
Record VideoStream : Type := mkVideoStream { videoWidth : R; videoHeight : R }.

Definition getVector3FromKeypoint (g : Globals) (video : VideoStream)
    (keypoint : Keypoint) : Vector3 R :=
  let normX := 1 - kx keypoint / videoWidth video in
  let normY := 1 - ky keypoint / videoHeight video in
  let x := (normX - 0.5) * visibleWidth g in
  let y := (normY - 0.5) * visibleHeight g in
  mkVector3 x y 0.

(** ** updateSkeleton (main.js 598-648) *)

(** A child of [skeletonGroup]: a sphere at a point, or a line between two
    points. *)
Inductive SkeletonChild : Type :=
| SkPoint (p : Vector3 R)
| SkLine (a b : Vector3 R).

(** How [updateSkeleton] ends, with the children of [skeletonGroup] at that
    moment: normally, or by the [TypeError] of [pose.keypoints[startIdx]] on
    a pose without [keypoints]. *)
Inductive SkeletonResult : Type :=
| Drawn (children : list SkeletonChild)
| Threw (children : list SkeletonChild).

(** Lines 600-602: [while (children.length > 0) remove(children[0])]. *)
Fixpoint clearGroup (children : list SkeletonChild) : list SkeletonChild :=
  match children with
  | [] => []
  | _ :: rest => clearGroup rest
  end.

(** Lines 622-630. *)
Definition connections : list (nat * nat) :=
  [ (5, 7); (7, 9);
    (6, 8); (8, 10);
    (5, 6);
    (11, 12);
    (5, 11); (6, 12);
    (11, 13); (13, 15);
    (12, 14); (14, 16) ]%nat.

(** Lines 611-618. *)
Definition drawPoint (g : Globals) (video : VideoStream) (kp : Keypoint)
    : list SkeletonChild :=
  if Rltb 0.2 (confidence kp)
  then [SkPoint (getVector3FromKeypoint g video kp)]
  else [].

Definition drawPoints (g : Globals) (video : VideoStream)
    (kps : list Keypoint) : list SkeletonChild :=
  flat_map (drawPoint g video) kps.

(** Lines 632-646. *)
Definition drawLine (g : Globals) (video : VideoStream) (kps : list Keypoint)
    (connection : nat * nat) : list SkeletonChild :=
  let '(startIdx, endIdx) := connection in
  match nth_error kps startIdx, nth_error kps endIdx with
  | Some start, Some end_ =>
      if (Rltb 0.2 (confidence start) && Rltb 0.2 (confidence end_))%bool
      then [SkLine (getVector3FromKeypoint g video start)
                   (getVector3FromKeypoint g video end_)]
      else []
  | _, _ => []
  end.

Definition drawLines (g : Globals) (video : VideoStream)
    (kps : list Keypoint) : list SkeletonChild :=
  flat_map (drawLine g video kps) connections.

(** Lines 608-647, [poses.forEach]: the points are guarded by
    [if (pose.keypoints)], the lines are not. *)
Fixpoint drawPoses (g : Globals) (video : VideoStream) (ps : list Pose)
    (children : list SkeletonChild) : SkeletonResult :=
  match ps with
  | [] => Drawn children
  | pose :: rest =>
      match keypoints pose with
      | Some kps =>
          drawPoses g video rest
            (children ++ drawPoints g video kps ++ drawLines g video kps)
      | None => Threw children
      end
  end.

Definition updateSkeleton (g : Globals) (video : VideoStream)
    (children : list SkeletonChild) : SkeletonResult :=
  drawPoses g video (poses g) (clearGroup children).

(** ** animate, the whole frame (main.js 518-596) *)

(** How a frame ends, with the children of [skeletonGroup], the cursor and
    the pool at that moment. *)
Inductive FrameResult : Type :=
| FrameDone (children : list SkeletonChild) (c : nat) (pool : list Bubble)
| FrameThrew (children : list SkeletonChild) (c : nat) (pool : list Bubble).

(** [animate] with its call of [updateSkeleton]: an exception raised there
    leaves the function before [bubbles.forEach]. *)
Definition animateFrame (g : Globals) (video : VideoStream) (rnd : nat -> R)
    (time_ms : Z) (now_ms : nat -> Z) (c : nat)
    (children : list SkeletonChild) (pool : list Bubble) : FrameResult :=
  if (0 <? Z.of_nat (length (poses g)))%Z then
    match updateSkeleton g video children with
    | Drawn children' =>
        let '(c', pool') := animate g rnd time_ms now_ms c pool in
        FrameDone children' c' pool'
    | Threw children' => FrameThrew children' c pool
    end
  else
    let '(c', pool') := animate g rnd time_ms now_ms c pool in
    FrameDone children c' pool'.

(** * Vocabulary of the statements *)

(** ** Oracles and draws *)

(** [Math.random()] returns a number in [0, 1). *)
Definition randOk (rnd : nat -> R) : Prop := forall n, 0 <= rnd n < 1.

(** The [k]-th pair of draws of a sampling loop whose first draw is at
    cursor [c], and the pixel it is mapped to. *)
Definition drawX (rnd : nat -> R) (c k : nat) : R := rnd (c + 2 * k)%nat.

Definition drawY (rnd : nat -> R) (c k : nat) : R := rnd (c + 2 * k + 1)%nat.

Definition drawPixel (rnd : nat -> R) (m : ImageBuf) (c k : nat) : Z * Z :=
  maskPixel m (drawX rnd c k) (drawY rnd c k).

Definition acceptedAt (g : Globals) (rnd : nat -> R) (m : ImageBuf)
    (maskData : list byte) (c k : nat) : bool :=
  shouldSpawn g m maskData (drawX rnd c k) (drawY rnd c k).

(** ** Snapshots *)

(** The mask snapshot and its pixel buffer, when both are published. *)
Definition publishedMask (g : Globals) : option (ImageBuf * list byte) :=
  match segmentationResult g with
  | Some seg =>
      match mask seg with
      | Some m =>
          match data m with
          | Some d => Some (m, d)
          | None => None
          end
      | None => None
      end
  | None => None
  end.

(** The depth snapshot and its pixel buffer, when both are published. *)
Definition publishedDepth (g : Globals) : option (ImageBuf * list byte) :=
  match depthResult g with
  | Some dr =>
      match depthImage dr with
      | Some im =>
          match data im with
          | Some d => Some (im, d)
          | None => None
          end
      | None => None
      end
  | None => None
  end.

(** An image with at least one pixel whose buffer holds four channels for
    every pixel. *)
Definition imageWf (im : ImageBuf) (d : list byte) : Prop :=
  (1 <= width im)%Z /\ (1 <= height im)%Z
  /\ (4 * width im * height im <= Z.of_nat (length d))%Z.

(** Dimensions of at least one pixel that a number holds exactly. *)
Definition safeDims (im : ImageBuf) : Prop :=
  (1 <= width im <= 2 ^ 53)%Z /\ (1 <= height im <= 2 ^ 53)%Z.

(** A buffer that is a JavaScript array: fewer than [2^53] elements. *)
Definition jsArray (d : list byte) : Prop :=
  (Z.of_nat (length d) < 2 ^ 53)%Z.

(** Published sensor snapshots have such dimensions, and the depth buffer
    holds four channels for every pixel. *)
Definition sensorsWf (g : Globals) : Prop :=
  (forall m d, publishedMask g = Some (m, d) -> safeDims m)
  /\ (forall im dd, publishedDepth g = Some (im, dd) ->
                    safeDims im /\ imageWf im dd).

(** Every pixel of the mask has alpha channel [a]. *)
Definition allAlpha (m : ImageBuf) (maskData : list byte) (a : Z) : Prop :=
  forall mx my,
    (0 <= mx < width m)%Z -> (0 <= my < height m)%Z ->
    js_index maskData (maskIndex m mx my + 3) = Some a.

(** The red channel of every depth pixel is [r]. *)
Definition allRed (im : ImageBuf) (d : list byte) (r : Z) : Prop :=
  forall x y,
    (0 <= x < width im)%Z -> (0 <= y < height im)%Z ->
    js_index d ((y * width im + x) * 4) = Some r.

(** The world position that the mask pixel [(mx, my)] is mapped to. *)
Definition maskWorldX (g : Globals) (m : ImageBuf) (mx : Z) : R :=
  (1 - IZR mx / IZR (width m) - 0.5) * visibleWidth g.

Definition maskWorldY (g : Globals) (m : ImageBuf) (my : Z) : R :=
  (1 - IZR my / IZR (height m) - 0.5) * visibleHeight g.

(** The depth coordinate that exact arithmetic would give. *)
Definition exactCoord (x w depthW : Z) : Z :=
  Zfloor (IZR x / IZR w * IZR depthW).

(** ** Binary64 data of the Standard Library

    The IEEE 754 specification [SpecFloat] of the Standard Library, at the
    parameters of binary64, and the real number that a finite datum
    denotes. *)
Definition SF2R (f : SpecFloat.spec_float) : R :=
  match f with
  | SpecFloat.S754_finite s m e =>
      (if s then - IZR (Zpos m) else IZR (Zpos m)) * bpow e
  | _ => 0
  end.

Definition b64 (n : positive) : SpecFloat.spec_float :=
  SpecFloat.S754_finite false n 0.

Definition b64div := SpecFloat.SFdiv 53 1024.

Definition b64mul := SpecFloat.SFmul 53 1024.

Definition b64sub := SpecFloat.SFsub 53 1024.

(** ** Bubbles *)

(** The fade progress of line 557, as [fadeOpacity] computes it. *)
Definition fadeProgress (x : R) : R :=
  round64 (round64 (x - round64 0.8) / round64 0.2).

(** The bubble after lines 529-543 of a tick. *)
Definition tickStart (g : Globals) (time_ms : Z) (b : Bubble) : Bubble :=
  depthScale (drift g (IZR time_ms * 0.001) b).

(** A defined closeness in [0, 1]. *)
Definition closenessOk (d : option num) : Prop :=
  exists v, d = Some (Fin v) /\ 0 <= v <= 1.

Definition multiplierOk (b : Bubble) : Prop :=
  0.5 <= lifespanMultiplier (userData b) < 1.5.

(** Bubbles built by [createBubbles] and evolved by respawns and ticks,
    under globals that satisfy [W] and draws in [0, 1). *)
Inductive reachable (W : Globals -> Prop) : Bubble -> Prop :=
| reach_create g rnd now_ms respawn_ms i c :
    W g -> randOk rnd ->
    reachable W (snd (createBubble g rnd now_ms respawn_ms i c))
| reach_respawn g rnd now_ms c b :
    W g -> randOk rnd -> reachable W b ->
    reachable W (snd (respawnBubble g rnd now_ms c b))
| reach_tick g rnd time_ms now_ms c b :
    W g -> randOk rnd -> reachable W b ->
    reachable W (snd (animateBubble g rnd time_ms now_ms c b)).

(** The Euclidean length [sqrt (x * x + y * y)]. *)
Definition hypot (x y : R) : R := sqrt (x * x + y * y).

(** ** Concrete worlds *)

(** The 8 x 8 mask whose four channels are 255 everywhere. *)
Definition mask8 : ImageBuf := mkImageBuf 8 8 (Some (repeat xff 256)).

(** A 4 x 4 depth image whose four channels are 255 everywhere. *)
Definition depth4 : ImageBuf := mkImageBuf 4 4 (Some (repeat xff 64)).

(** The defaults of [CONFIG], with a pool of one bubble. *)
Definition config0 : Config := mkConfig 1 2.5 0.6 4 true false 8.

(** Body-spawn mode, the all-255 mask published, no depth, no pose. *)
Definition globalsMask8 : Globals :=
  mkGlobals config0 [] (Some (mkSeg (Some mask8))) None 640 480 30 20.

(** Body-spawn mode with the all-255 mask and the all-255 depth image. *)
Definition globalsDepth4 : Globals :=
  mkGlobals config0 [] (Some (mkSeg (Some mask8)))
    (Some (mkDepth (Some depth4))) 640 480 30 20.

(** Body-spawn mode, nothing published yet. *)
Definition globalsNoSensor : Globals :=
  mkGlobals config0 [] None None 640 480 30 20.

(** Body-spawn mode, nothing published, global lifespan 0. *)
Definition globalsForever : Globals :=
  mkGlobals (mkConfig 1 2.5 0.6 4 true false 0) [] None None 640 480 30 20.

(** Skeleton mode with interaction radius 10. *)
Definition globalsSkeleton : Globals :=
  mkGlobals (mkConfig 1 2.5 0.6 10 false false 8) [] None None 640 480 30 20.

(** Keypoints whose target is the origin of the world. *)
Definition keypointCentre : Keypoint := mkKeypoint 320 240 1.

Definition keypointFaint : Keypoint := mkKeypoint 320 240 0.1.

Definition rndZero : nat -> R := fun _ => 0.

Definition rndHalf : nat -> R := fun _ => 0.5.

Definition bubble0 : Bubble :=
  mkBubble (mkVector3 1 2 3) (setScalar (Fin 0.4)) 0.5
    (mkUserData 0.05 0.4 1 0 0 0 1 (Some (Fin 0.5))).

Definition bubbleAt (x y : R) : Bubble :=
  mkBubble (mkVector3 x y 0) (setScalar (Fin 0.4)) 0.5
    (mkUserData 0.05 0.4 1 0 0 0 1 (Some (Fin 0.5))).

(** ** Creation *)

(** The mesh that iteration [i] of [createBubbles] has built when it reaches
    line 222, before the optional respawn. *)
Definition createdMesh (g : Globals) (rnd : nat -> R) (now_ms : Z) (i : Z)
    (c : nat) : Bubble :=
  let cfg := CONFIG g in
  let scale := rnd (c + 3)%nat * bubbleSize cfg + 0.1 in
  let maxOffset := Rmax (bubbleLifespan cfg) 5 in
  mkBubble
    (mkVector3 ((rnd c - 0.5) * visibleWidth g * 1.5)
               ((rnd (c + 1)%nat - 0.5) * visibleHeight g * 1.5)
               ((rnd (c + 2)%nat - 0.5) * 15))
    (setScalar (Fin scale)) 0.5
    (mkUserData (rnd (c + 5)%nat * 0.1) scale (rnd (c + 6)%nat * 3)
       (rnd (c + 7)%nat * PI * 2) (rnd (c + 8)%nat * 100)
       (IZR now_ms / 1000 - IZR i / IZR (bubbleCount cfg) * maxOffset
        - rnd (c + 4)%nat * (maxOffset / IZR (bubbleCount cfg)))
       (0.5 + rnd (c + 9)%nat * 1.0) (Some (Fin 0.5))).

(** The test of line 223. *)
Definition respawnsAtCreation (g : Globals) : bool :=
  if spawnOnBody (CONFIG g) then
    match segmentationResult g with
    | Some seg =>
        match mask seg with
        | Some _ => true
        | None => false
        end
    | None => false
    end
  else false.

(** The parameters of a bubble that are drawn once, at creation. *)
Definition fixedParams (b : Bubble) : R * R * R * R * R :=
  let u := userData b in
  (velocityMultiplier u, initialScale u, wobbleSpeed u, wobbleOffset u,
   randomOffset u).

(** ** Further snapshots *)

(** No byte of the buffer exceeds 127: no channel of any pixel is above the
    person threshold. *)
Definition noPersonByte (d : list byte) : Prop :=
  Forall (fun x => (byte_val x <= 127)%Z) d.

(** ** Interaction *)

(** One interaction with a keypoint that is present. *)
Definition interactStep (g : Globals) (b : Bubble) (k : Keypoint) : Bubble :=
  interactWithKeypoint g b (Some k).

(** A keypoint that is confident enough to interact and whose target is at
    least an interaction radius away from the bubble. *)
Definition farKeypoint (g : Globals) (b : Bubble) (k : Keypoint) : Prop :=
  0.2 <= confidence k /\ interactionRadius (CONFIG g) <= keypointDist g b k.

(** The torso point of lines 586-588. *)
Definition torsoKeypoint (s1 s2 h1 h2 : Keypoint) : Keypoint :=
  mkKeypoint ((kx s1 + kx s2 + kx h1 + kx h2) / 4)
             ((ky s1 + ky s2 + ky h1 + ky h2) / 4) 1.

(** Successive frames of one bubble under fixed globals: each element of
    [frames] is the [Date.now()] of a frame and the one a respawn in that
    frame would read. *)
Fixpoint runTicks (g : Globals) (rnd : nat -> R) (frames : list (Z * Z))
    (c : nat) (b : Bubble) : nat * Bubble :=
  match frames with
  | [] => (c, b)
  | (time_ms, now_ms) :: rest =>
      let '(c', b') := animateBubble g rnd time_ms now_ms c b in
      runTicks g rnd rest c' b'
  end.

(** ** Skeleton *)

(** The children of [skeletonGroup] when [updateSkeleton] ends, either
    way. *)
Definition skeletonChildren (r : SkeletonResult) : list SkeletonChild :=
  match r with
  | Drawn children => children
  | Threw children => children
  end.

(** What a pose with keypoints adds to the group. *)
Definition poseChildren (g : Globals) (video : VideoStream) (pose : Pose)
    : list SkeletonChild :=
  match keypoints pose with
  | Some kps => drawPoints g video kps ++ drawLines g video kps
  | None => []
  end.

Definition hasKeypoints (pose : Pose) : Prop := keypoints pose <> None.

Definition keypointCount (pose : Pose) : nat :=
  match keypoints pose with
  | Some kps => length kps
  | None => 0
  end.

(** Every point of a child lies in the plane [z = 0]. *)
Definition childInPlane (child : SkeletonChild) : Prop :=
  match child with
  | SkPoint p => vz p = 0
  | SkLine a b => vz a = 0 /\ vz b = 0
  end.

(** ** Further concrete worlds *)

(** The camera of [init]: 75 degrees, at distance 20; the aspect is that of
    a 3:2 window. *)
Definition camera0 : Camera := mkCamera 75 1.5 20.

(** A stream whose intrinsic size is the element size, and one twice as
    large. *)
Definition video0 : VideoStream := mkVideoStream 640 480.

Definition videoHD : VideoStream := mkVideoStream 1280 960.

(** An 8 x 8 mask whose buffer is present but empty, published in
    body-spawn mode with the mask inverted. *)
Definition maskEmpty : ImageBuf := mkImageBuf 8 8 (Some []).

Definition globalsEmptyInverted : Globals :=
  mkGlobals (mkConfig 1 2.5 0.6 4 true true 8) []
    (Some (mkSeg (Some maskEmpty))) None 640 480 30 20.

(** An 8 x 8 mask with no person in it. *)
Definition maskNobody : ImageBuf := mkImageBuf 8 8 (Some (repeat x00 256)).

Definition globalsNobody : Globals :=
  mkGlobals config0 [] (Some (mkSeg (Some maskNobody))) None 640 480 30 20.

(** The all-255 mask with a depth image whose buffer is present but
    empty. *)
Definition globalsDepthEmpty : Globals :=
  mkGlobals config0 [] (Some (mkSeg (Some mask8)))
    (Some (mkDepth (Some (mkImageBuf 4 4 (Some []))))) 640 480 30 20.

(** A mask and a depth image of one column and 480 rows, published in
    body-spawn mode: the mask has alpha 255 everywhere, the red channel of
    the depth image is 255 in row 123 and 0 in every other row. *)
Definition maskRows : ImageBuf := mkImageBuf 1 480 (Some (repeat xff 1920)).

Definition depthRowsData : list byte :=
  repeat x00 492 ++ repeat xff 4 ++ repeat x00 1424.

Definition depthRows : ImageBuf := mkImageBuf 1 480 (Some depthRowsData).

Definition globalsRows : Globals :=
  mkGlobals config0 [] (Some (mkSeg (Some maskRows)))
    (Some (mkDepth (Some depthRows))) 640 480 30 20.

(** A bubble born 8 seconds before time 0, with lifespan multiplier 1. *)
Definition bubbleAged : Bubble :=
  mkBubble (mkVector3 1 2 3) (setScalar (Fin 0.4)) 0.5
    (mkUserData 0.05 0.4 1 0 0 (-8) 1 (Some (Fin 0.5))).

(** A pose of 17 confident keypoints at the centre of the video, and a pose
    without keypoints. *)
Definition poseCentre : Pose := mkPose (Some (repeat keypointCentre 17)).

Definition poseBroken : Pose := mkPose None.

Definition globalsPoses (ps : list Pose) : Globals :=
  mkGlobals (mkConfig 1 2.5 0.6 10 false false 8) ps None None 640 480 30 20.

(** A keypoint at the centre whose confidence is exactly the threshold. *)
Definition keypointThreshold : Keypoint := mkKeypoint 320 240 0.2.

(** * Properties *)

(** ** Comparisons *)

Lemma Rltb_true (a b : R) : Rltb a b = true <-> a < b.
Proof.
  unfold Rltb. destruct (Rlt_dec a b); split; intros; try assumption;
    try reflexivity; try discriminate; contradiction.
Qed.

Lemma Rltb_false (a b : R) : Rltb a b = false <-> b <= a.
Proof.
  unfold Rltb. destruct (Rlt_dec a b); split; intros; try reflexivity;
    try discriminate; lra.
Qed.

(** ** Binary64 rounding *)

(** *** Powers of two and magnitudes *)

Lemma Rabs_le_inv (a b : R) : Rabs a <= b -> - b <= a <= b.
Proof.
  unfold Rabs. destruct (Rcase_abs a); lra.
Qed.

Lemma bpow_powerRZ (e : Z) : bpow e = powerRZ 2 e.
Proof.
  destruct e as [|p|p]; unfold bpow.
  - reflexivity.
  - apply Zpower_pos_powerRZ.
  - rewrite Zpower_pos_powerRZ. reflexivity.
Qed.

Lemma bpow_pos (e : Z) : 0 < bpow e.
Proof. rewrite bpow_powerRZ. apply powerRZ_lt. lra. Qed.

Lemma bpow_add (a b : Z) : bpow (a + b) = bpow a * bpow b.
Proof. rewrite !bpow_powerRZ. apply powerRZ_add. lra. Qed.

Lemma bpow_opp (a : Z) : bpow (- a) = / bpow a.
Proof. rewrite !bpow_powerRZ. apply powerRZ_neg'. Qed.

Lemma bpow_cancel (a : Z) : bpow a * bpow (- a) = 1.
Proof.
  rewrite bpow_opp. apply Rinv_r. pose proof (bpow_pos a). lra.
Qed.

Lemma bpow_IZR (e : Z) : (0 <= e)%Z -> bpow e = IZR (2 ^ e).
Proof.
  destruct e as [|p|p]; intros He; [reflexivity|reflexivity|lia].
Qed.

Lemma bpow_ge_2 (e : Z) : (0 < e)%Z -> 2 <= bpow e.
Proof.
  intros He. rewrite bpow_IZR by lia. apply IZR_le.
  change 2%Z with (2 ^ 1)%Z at 1. apply Z.pow_le_mono_r; lia.
Qed.

Lemma bpow_lt (a b : Z) : (a < b)%Z -> bpow a < bpow b.
Proof.
  intros Hab. replace b with (a + (b - a))%Z by lia. rewrite bpow_add.
  pose proof (bpow_pos a). pose proof (bpow_ge_2 (b - a) ltac:(lia)). nra.
Qed.

Lemma bpow_le (a b : Z) : (a <= b)%Z -> bpow a <= bpow b.
Proof.
  intros Hab. destruct (Z.eq_dec a b) as [->|Hne]; [lra|].
  left. apply bpow_lt. lia.
Qed.

Lemma bpow_lt_inv (a b : Z) : bpow a < bpow b -> (a < b)%Z.
Proof.
  intros H. destruct (Z_lt_le_dec a b) as [Hlt|Hle]; [exact Hlt|].
  pose proof (bpow_le b a Hle). lra.
Qed.

Lemma bpow_exp (e : Z) : bpow e = exp (IZR e * ln 2).
Proof.
  rewrite bpow_powerRZ, powerRZ_Rpower by lra. reflexivity.
Qed.

Lemma ln2_pos : 0 < ln 2.
Proof. pose proof ln_lt_2. lra. Qed.

Lemma mag_spec (x : R) :
  x <> 0 -> bpow (mag x) <= Rabs x < bpow (mag x + 1).
Proof.
  intros Hx. pose proof (Rabs_pos_lt x Hx) as Ha.
  pose proof ln2_pos as H2. unfold mag.
  set (t := ln (Rabs x) / ln 2).
  pose proof (Zfloor_bound t) as [Hlo Hhi].
  assert (Ht : t * ln 2 = ln (Rabs x)) by (unfold t; field; lra).
  rewrite !bpow_exp, plus_IZR.
  assert (Hx' : Rabs x = exp (t * ln 2)) by (rewrite Ht, exp_ln; lra).
  rewrite Hx'.
  split.
  - destruct Hlo as [Hlt|Heq].
    + left. apply exp_increasing. nra.
    + rewrite Heq. lra.
  - apply exp_increasing. nra.
Qed.

Lemma mag_unique (x : R) (e : Z) :
  bpow e <= Rabs x < bpow (e + 1) -> mag x = e.
Proof.
  intros [Hlo Hhi]. pose proof (bpow_pos e) as He.
  assert (Hx : x <> 0).
  { intros ->. rewrite Rabs_R0 in Hlo. lra. }
  destruct (mag_spec x Hx) as [Hlo' Hhi'].
  assert (H1 : (mag x < e + 1)%Z) by (apply bpow_lt_inv; lra).
  assert (H2 : (e < mag x + 1)%Z) by (apply bpow_lt_inv; lra).
  lia.
Qed.

Lemma mag_le (x y : R) :
  x <> 0 -> Rabs x <= Rabs y -> (mag x <= mag y)%Z.
Proof.
  intros Hx Hxy.
  assert (Hy : y <> 0).
  { intros ->. rewrite Rabs_R0 in Hxy.
    pose proof (Rabs_pos_lt x Hx). lra. }
  destruct (mag_spec x Hx) as [Hlo _].
  destruct (mag_spec y Hy) as [_ Hhi].
  assert (H : (mag x < mag y + 1)%Z) by (apply bpow_lt_inv; lra).
  lia.
Qed.

Lemma mag_opp (x : R) : mag (- x) = mag x.
Proof. unfold mag. rewrite Rabs_Ropp. reflexivity. Qed.

Lemma ulpExp_opp (x : R) : ulpExp (- x) = ulpExp x.
Proof. unfold ulpExp. rewrite mag_opp. reflexivity. Qed.

(** *** Rounding to the nearest integer *)

Lemma nearestEven_cases (x : R) :
  let n := Zfloor x in
  (nearestEven x = n /\ x - IZR n <= 1 / 2
   /\ (x - IZR n = 1 / 2 -> Z.even n = true))
  \/ (nearestEven x = (n + 1)%Z /\ 1 / 2 <= x - IZR n
      /\ (x - IZR n = 1 / 2 -> Z.even n = false)).
Proof.
  cbv zeta. unfold nearestEven.
  destruct (Rltb (x - IZR (Zfloor x)) (1 / 2)) eqn:H1.
  - apply Rltb_true in H1. left. repeat split; lra.
  - apply Rltb_false in H1.
    destruct (Rltb (1 / 2) (x - IZR (Zfloor x))) eqn:H2.
    + apply Rltb_true in H2. right. repeat split; lra.
    + apply Rltb_false in H2.
      destruct (Z.even (Zfloor x)) eqn:He.
      * left. repeat split; try lra. 
      * right. repeat split; try lra. 
Qed.

Lemma nearestEven_error (x : R) : Rabs (IZR (nearestEven x) - x) <= 1 / 2.
Proof.
  pose proof (Zfloor_bound x) as [Hlo Hhi].
  destruct (nearestEven_cases x) as [(-> & H & _)|(-> & H & _)];
    [|rewrite plus_IZR]; apply Rabs_le; lra.
Qed.

Lemma nearestEven_unique (x : R) (m : Z) :
  Rabs (x - IZR m) < 1 / 2 -> nearestEven x = m.
Proof.
  intros H. apply Rabs_def2 in H. destruct H as [H1 H2].
  pose proof (Zfloor_bound x) as [Hlo Hhi].
  destruct (nearestEven_cases x) as [(-> & H & _)|(-> & H & _)].
  - assert (Ha : (Zfloor x < m + 1)%Z) by (apply lt_IZR; rewrite plus_IZR; lra).
    assert (Hb : (m < Zfloor x + 1)%Z) by (apply lt_IZR; rewrite plus_IZR; lra).
    lia.
  - assert (Ha : (Zfloor x + 1 < m + 1)%Z)
      by (apply lt_IZR; rewrite !plus_IZR; lra).
    assert (Hb : (m < Zfloor x + 1 + 1)%Z)
      by (apply lt_IZR; rewrite !plus_IZR; lra).
    lia.
Qed.

Lemma nearestEven_IZR (n : Z) : nearestEven (IZR n) = n.
Proof.
  apply nearestEven_unique. rewrite Rminus_diag, Rabs_R0. lra.
Qed.

Lemma nearestEven_le (x y : R) :
  x <= y -> (nearestEven x <= nearestEven y)%Z.
Proof.
  intros Hxy.
  pose proof (Zfloor_le x y Hxy) as Hfl.
  pose proof (Zfloor_bound x) as [Hxl Hxh].
  pose proof (Zfloor_bound y) as [Hyl Hyh].
  destruct (nearestEven_cases x) as [(-> & Hx & Hxe)|(-> & Hx & Hxe)];
    destruct (nearestEven_cases y) as [(-> & Hy & Hye)|(-> & Hy & Hye)];
    try lia.
  destruct (Z.eq_dec (Zfloor x) (Zfloor y)) as [Heq|Hne]; [|lia].
  exfalso. rewrite Heq in *.
  assert (Hxh2 : x - IZR (Zfloor y) = 1 / 2) by lra.
  assert (Hyh2 : y - IZR (Zfloor y) = 1 / 2) by lra.
  rewrite (Hxe Hxh2) in Hye. specialize (Hye Hyh2). discriminate.
Qed.

Lemma nearestEven_opp (x : R) : nearestEven (- x) = (- nearestEven x)%Z.
Proof.
  pose proof (Zfloor_bound x) as [Hlo Hhi].
  destruct (nearestEven_cases x) as [(Hn & H & He)|(Hn & H & He)].
  - destruct (Req_dec (x - IZR (Zfloor x)) (1 / 2)) as [Hh|Hh].
    + (* tie, floor even *)
      specialize (He Hh).
      assert (Hf : Zfloor (- x) = (- Zfloor x - 1)%Z).
      { apply Zfloor_eq. rewrite minus_IZR, opp_IZR. lra. }
      destruct (nearestEven_cases (- x)) as [(Hm & H' & He')|(Hm & H' & He')];
        rewrite Hf in *.
      * assert (Ht : - x - IZR (- Zfloor x - 1) = 1 / 2).
        { rewrite minus_IZR, opp_IZR. lra. }
        specialize (He' Ht).
        replace (- Zfloor x - 1)%Z with (- (Zfloor x + 1))%Z in He' by lia.
        rewrite Z.even_opp, Z.even_add, He in He'. discriminate.
      * lia.
    + rewrite Hn. apply nearestEven_unique.
      rewrite opp_IZR. apply Rabs_def1; lra.
  - destruct (Req_dec (x - IZR (Zfloor x)) (1 / 2)) as [Hh|Hh].
    + specialize (He Hh).
      assert (Hf : Zfloor (- x) = (- Zfloor x - 1)%Z).
      { apply Zfloor_eq. rewrite minus_IZR, opp_IZR. lra. }
      destruct (nearestEven_cases (- x)) as [(Hm & H' & He')|(Hm & H' & He')];
        rewrite Hf in *.
      * lia.
      * assert (Ht : - x - IZR (- Zfloor x - 1) = 1 / 2).
        { rewrite minus_IZR, opp_IZR. lra. }
        specialize (He' Ht).
        replace (- Zfloor x - 1)%Z with (- (Zfloor x + 1))%Z in He' by lia.
        rewrite Z.even_opp, Z.even_add, He in He'. discriminate.
    + rewrite Hn. apply nearestEven_unique.
      rewrite opp_IZR, plus_IZR. apply Rabs_def1; lra.
Qed.

(** *** Rounding to binary64 *)

Lemma round64_opp (x : R) : round64 (- x) = - round64 x.
Proof.
  unfold round64. rewrite ulpExp_opp.
  replace (- x * bpow (- ulpExp x)) with (- (x * bpow (- ulpExp x))) by ring.
  rewrite nearestEven_opp, opp_IZR. ring.
Qed.

Lemma round64_0 : round64 0 = 0.
Proof.
  unfold round64. rewrite Rmult_0_l.
  change 0 with (IZR 0) at 1. rewrite nearestEven_IZR. simpl. ring.
Qed.

Lemma round64_error (x : R) :
  Rabs (round64 x - x) <= bpow (ulpExp x) / 2.
Proof.
  unfold round64. set (u := ulpExp x).
  pose proof (bpow_pos u) as Hu.
  pose proof (nearestEven_error (x * bpow (- u))) as He.
  replace (IZR (nearestEven (x * bpow (- u))) * bpow u - x)
    with ((IZR (nearestEven (x * bpow (- u))) - x * bpow (- u)) * bpow u).
  - rewrite Rabs_mult, (Rabs_pos_eq (bpow u)) by lra. nra.
  - rewrite Rmult_minus_distr_r, Rmult_assoc.
    rewrite (Rmult_comm (bpow (- u))), bpow_cancel. ring.
Qed.

(** A point [n * 2^k] of a grid at least as coarse as the one [x] is
    rounded on stays on its side of [x]. *)
Lemma round64_le_grid (x : R) (n k : Z) :
  (ulpExp x <= k)%Z -> x <= IZR n * bpow k -> round64 x <= IZR n * bpow k.
Proof.
  intros Hk Hx. unfold round64. set (u := ulpExp x) in *.
  pose proof (bpow_pos u) as Hu. pose proof (bpow_pos (- u)) as Hu'.
  assert (Hg : IZR n * bpow k = IZR (n * 2 ^ (k - u)) * bpow u).
  { rewrite mult_IZR, <- bpow_IZR by lia. rewrite Rmult_assoc, <- bpow_add.
    f_equal. f_equal. lia. }
  rewrite Hg in *.
  apply Rmult_le_compat_r; [lra|]. apply IZR_le.
  rewrite <- (nearestEven_IZR (n * 2 ^ (k - u))).
  apply nearestEven_le.
  apply (Rmult_le_compat_r (bpow (- u))) in Hx; [|lra].
  rewrite Rmult_assoc, bpow_cancel in Hx. lra.
Qed.

Lemma round64_ge_grid (x : R) (n k : Z) :
  (ulpExp x <= k)%Z -> IZR n * bpow k <= x -> IZR n * bpow k <= round64 x.
Proof.
  intros Hk Hx.
  pose proof (round64_le_grid (- x) (- n) k) as H.
  rewrite ulpExp_opp, round64_opp, opp_IZR in H.
  specialize (H Hk). lra.
Qed.

Lemma ulpExp_le (x y : R) :
  x <> 0 -> Rabs x <= Rabs y -> (ulpExp x <= ulpExp y)%Z.
Proof.
  intros Hx Hxy. pose proof (mag_le x y Hx Hxy). unfold ulpExp. lia.
Qed.

Lemma round64_le_pos (x y : R) :
  0 < x -> x <= y -> round64 x <= round64 y.
Proof.
  intros Hx Hxy.
  assert (Hx0 : x <> 0) by lra. assert (Hy0 : y <> 0) by lra.
  assert (Habs : Rabs x <= Rabs y) by (rewrite !Rabs_pos_eq; lra).
  pose proof (ulpExp_le x y Hx0 Habs) as Hu.
  destruct (Z.eq_dec (ulpExp x) (ulpExp y)) as [Heq|Hne].
  - unfold round64. rewrite Heq.
    pose proof (bpow_pos (ulpExp y)). pose proof (bpow_pos (- ulpExp y)).
    apply Rmult_le_compat_r; [lra|]. apply IZR_le, nearestEven_le.
    apply Rmult_le_compat_r; lra.
  - destruct (mag_spec x Hx0) as [_ Hxh].
    destruct (mag_spec y Hy0) as [Hyl _].
    rewrite Rabs_pos_eq in Hxh, Hyl by lra.
    assert (Hm : (mag x + 1 <= mag y)%Z) by (unfold ulpExp in *; lia).
    pose proof (bpow_le _ _ Hm) as Hb.
    apply Rle_trans with (IZR 1 * bpow (mag y)).
    + apply round64_le_grid; [unfold ulpExp in *; lia|lra].
    + apply round64_ge_grid; [unfold ulpExp in *; lia|lra].
Qed.

Lemma round64_nonneg (x : R) : 0 <= x -> 0 <= round64 x.
Proof.
  intros Hx.
  pose proof (round64_ge_grid x 0 (ulpExp x) ltac:(lia)) as H.
  rewrite Rmult_0_l in H. apply H. exact Hx.
Qed.

Lemma round64_le (x y : R) : x <= y -> round64 x <= round64 y.
Proof.
  intros Hxy.
  destruct (Rlt_dec 0 x) as [Hx|Hx].
  - apply round64_le_pos; assumption.
  - destruct (Rle_dec 0 y) as [Hy|Hy].
    + pose proof (round64_nonneg y Hy).
      pose proof (round64_nonneg (- x) ltac:(lra)) as H1.
      rewrite round64_opp in H1. lra.
    + pose proof (round64_le_pos (- y) (- x) ltac:(lra) ltac:(lra)) as H.
      rewrite !round64_opp in H. lra.
Qed.

(** Numbers with at most 53 significant bits above [2^-1074] are fixed. *)
Lemma round64_repr (m e : Z) :
  (-1074 <= e)%Z -> (Z.abs m < 2 ^ 53)%Z ->
  round64 (IZR m * bpow e) = IZR m * bpow e.
Proof.
  intros He Hm. set (x := IZR m * bpow e).
  pose proof (bpow_pos e) as Hbe.
  destruct (Z.eq_dec m 0) as [->|Hm0].
  { unfold x. rewrite Rmult_0_l. apply round64_0. }
  assert (Hx0 : x <> 0).
  { unfold x. apply Rmult_integral_contrapositive_currified; [|lra].
    intros H. apply eq_IZR in H. contradiction. }
  assert (Hu : (ulpExp x <= e)%Z).
  { destruct (mag_spec x Hx0) as [Hlo _].
    assert (Hlt : Rabs x < bpow (e + 53)).
    { unfold x. rewrite Rabs_mult, (Rabs_pos_eq (bpow e)) by lra.
      rewrite bpow_add, (bpow_IZR 53) by lia. rewrite <- abs_IZR.
      apply IZR_lt in Hm. rewrite Rmult_comm. nra. }
    assert ((mag x < e + 53)%Z) by (apply bpow_lt_inv; lra).
    unfold ulpExp. lia. }
  apply Rle_antisym.
  - apply round64_le_grid; [exact Hu|unfold x; lra].
  - apply round64_ge_grid; [exact Hu|unfold x; lra].
Qed.

Lemma round64_IZR (n : Z) :
  (Z.abs n < 2 ^ 53)%Z -> round64 (IZR n) = IZR n.
Proof.
  intros Hn. pose proof (round64_repr n 0 ltac:(lia) Hn) as H.
  simpl in H. rewrite Rmult_1_r in H. exact H.
Qed.

Lemma ulpExp_unique (x : R) (e : Z) :
  (-1074 <= e)%Z -> bpow (e + 52) <= Rabs x < bpow (e + 53) ->
  ulpExp x = e.
Proof.
  intros He Hx. unfold ulpExp.
  rewrite (mag_unique x (e + 52)).
  - lia.
  - replace (e + 52 + 1)%Z with (e + 53)%Z by lia. exact Hx.
Qed.

Lemma round64_at (x : R) (e m : Z) :
  ulpExp x = e -> Rabs (x * bpow (- e) - IZR m) < 1 / 2 ->
  round64 x = IZR m * bpow e.
Proof.
  intros He Hm. unfold round64. rewrite He.
  rewrite (nearestEven_unique _ m Hm). reflexivity.
Qed.

Lemma ulpExp_below (x : R) (k : Z) :
  x <> 0 -> Rabs x < bpow k -> (ulpExp x <= Z.max (k - 53) (-1074))%Z.
Proof.
  intros Hx Hk. destruct (mag_spec x Hx) as [Hlo _].
  assert ((mag x < k)%Z) by (apply bpow_lt_inv; lra).
  unfold ulpExp. lia.
Qed.

(** Half an ulp: the error of one rounding of a number of magnitude at
    most [2^k]. *)
Lemma round64_error_below (x : R) (k : Z) :
  (-1021 <= k)%Z -> Rabs x <= bpow k ->
  Rabs (round64 x - x) <= bpow (k - 54).
Proof.
  intros Hk Hx.
  destruct (Req_dec x 0) as [->|Hx0].
  { rewrite round64_0, Rminus_diag, Rabs_R0. left. apply bpow_pos. }
  destruct Hx as [Hlt|Heq].
  - pose proof (ulpExp_below x k Hx0 Hlt) as Hu.
    pose proof (round64_error x) as He.
    pose proof (bpow_le (ulpExp x) (k - 53) ltac:(lia)) as Hb.
    replace (k - 53)%Z with (k - 54 + 1)%Z in Hb by lia.
    rewrite bpow_add in Hb. simpl (bpow 1) in Hb. lra.
  - assert (Hr : round64 x = x).
    { destruct (Rle_dec 0 x) as [Hp|Hn].
      - rewrite Rabs_pos_eq in Heq by lra. rewrite Heq.
        pose proof (round64_repr 1 k ltac:(lia) ltac:(simpl; lia)) as H.
        rewrite Rmult_1_l in H. exact H.
      - rewrite Rabs_left in Heq by lra.
        replace x with (- bpow k) by lra. rewrite round64_opp.
        pose proof (round64_repr 1 k ltac:(lia) ltac:(simpl; lia)) as H.
        rewrite Rmult_1_l in H. rewrite H. reflexivity. }
    rewrite Hr, Rminus_diag, Rabs_R0. left. apply bpow_pos.
Qed.

(** The relative error of one rounding in the normal range. *)
Lemma round64_relative (x : R) :
  bpow (-1022) <= Rabs x -> Rabs (round64 x - x) <= bpow (-53) * Rabs x.
Proof.
  intros Hx.
  assert (Hx0 : x <> 0).
  { intros ->. rewrite Rabs_R0 in Hx. pose proof (bpow_pos (-1022)). lra. }
  destruct (mag_spec x Hx0) as [Hlo Hhi].
  assert (Hm : (-1022 < mag x + 1)%Z) by (apply bpow_lt_inv; lra).
  pose proof (round64_error x) as He.
  assert (Hu : ulpExp x = (mag x - 52)%Z) by (unfold ulpExp; lia).
  rewrite Hu in He.
  replace (mag x - 52)%Z with (mag x + (-53) + 1)%Z in He by lia.
  rewrite !bpow_add in He. simpl (bpow 1) in He.
  pose proof (bpow_pos (-53)). nra.
Qed.

(** ** Floors of scaled fractions *)

Lemma ratio_unit (x w : Z) :
  (0 <= x < w)%Z -> 0 <= IZR x / IZR w < 1.
Proof.
  intros [Hx0 Hxw].
  assert (Hw : 0 < IZR w) by (apply IZR_lt; lia).
  assert (Hx : 0 <= IZR x) by (apply IZR_le; lia).
  assert (Hlt : IZR x < IZR w) by (apply IZR_lt; lia).
  split.
  - apply Rmult_le_pos; [exact Hx|]. left. apply Rinv_0_lt_compat. exact Hw.
  - apply (Rmult_lt_reg_r (IZR w)); [exact Hw|].
    unfold Rdiv. rewrite Rmult_assoc, Rinv_l by lra. lra.
Qed.

Lemma Zfloor_scaled_range (r : R) (n : Z) :
  0 <= r < 1 -> (1 <= n)%Z -> (0 <= Zfloor (r * IZR n) < n)%Z.
Proof.
  intros [Hr0 Hr1] Hn.
  assert (Hn' : 1 <= IZR n) by (apply IZR_le in Hn; exact Hn).
  pose proof (Zfloor_bound (r * IZR n)) as [Hlo Hhi].
  split.
  - apply Zfloor_lub. simpl. nra.
  - apply lt_IZR. nra.
Qed.

Lemma maskPixel_in_range (m : ImageBuf) (rx ry : R) :
  (1 <= width m)%Z -> (1 <= height m)%Z ->
  0 <= rx < 1 -> 0 <= ry < 1 ->
  (0 <= fst (maskPixel m rx ry) < width m)%Z
  /\ (0 <= snd (maskPixel m rx ry) < height m)%Z.
Proof.
  intros Hw Hh Hx Hy. unfold maskPixel. simpl.
  split; apply Zfloor_scaled_range; assumption.
Qed.

(** ** The rescaled depth coordinate *)

(** The rounded quotient of a pixel coordinate by the dimension stays
    below 1 by at least [2^-53]. *)
Lemma round64_ratio (x w : Z) :
  (0 <= x < w)%Z -> (w <= 2 ^ 53)%Z ->
  0 <= round64 (IZR x / IZR w) <= 1 - bpow (-53).
Proof.
  intros Hx Hw.
  destruct (ratio_unit x w Hx) as [Hr0 Hr1].
  split; [apply round64_nonneg; exact Hr0|].
  destruct (Req_dec (IZR x / IZR w) 0) as [Hz|Hnz].
  { rewrite Hz, round64_0. simpl. lra. }
  replace (1 - bpow (-53)) with (IZR (2 ^ 53 - 1) * bpow (-53))
    by (simpl; lra).
  apply round64_le_grid.
  - pose proof (ulpExp_below (IZR x / IZR w) 0 Hnz) as H.
    rewrite Rabs_pos_eq in H by lra. simpl (bpow 0) in H.
    specialize (H Hr1). lia.
  - assert (Hw0 : 0 < IZR w) by (apply IZR_lt; lia).
    assert (Hxw : IZR x <= IZR w - 1).
    { rewrite <- minus_IZR. apply IZR_le. lia. }
    assert (Hw53 : IZR w <= 9007199254740992).
    { apply IZR_le in Hw. exact Hw. }
    apply (Rmult_le_reg_r (IZR w)); [exact Hw0|].
    unfold Rdiv. rewrite Rmult_assoc, Rinv_l by lra. simpl. lra.
Qed.

Lemma round64_scaled_below (q : R) (n : Z) :
  (1 <= n <= 2 ^ 53)%Z -> 0 <= q <= 1 - bpow (-53) ->
  0 <= round64 (q * IZR n) < IZR n.
Proof.
  intros Hn [Hq0 Hq1].
  assert (Hn1 : 1 <= IZR n) by (apply IZR_le; lia).
  assert (Hy0 : 0 <= q * IZR n) by nra.
  split; [apply round64_nonneg; exact Hy0|].
  destruct (Req_dec (q * IZR n) 0) as [Hz|Hnz].
  { rewrite Hz, round64_0. lra. }
  set (e := Z.log2 n).
  assert (He : (2 ^ e <= n < 2 ^ (e + 1))%Z).
  { pose proof (Z.log2_spec n ltac:(lia)) as H. unfold e.
    replace (Z.log2 n + 1)%Z with (Z.succ (Z.log2 n)) by lia. exact H. }
  assert (He0 : (0 <= e)%Z) by apply Z.log2_nonneg.
  assert (Hlo : bpow e <= IZR n).
  { rewrite bpow_IZR by lia. apply IZR_le. lia. }
  assert (Hhi : IZR n < bpow (e + 1)).
  { rewrite bpow_IZR by lia. apply IZR_lt. lia. }
  assert (H53 : bpow (-53) * IZR n <= q * IZR n + bpow (-53) * IZR n
                /\ q * IZR n <= IZR n - bpow (-53) * IZR n).
  { pose proof (bpow_pos (-53)). split; nra. }
  destruct H53 as [_ Hy].
  pose proof (bpow_pos (-53)) as Hp53.
  pose proof (round64_error (q * IZR n)) as Herr.
  apply Rabs_le_inv in Herr.
  destruct (Z.eq_dec n (2 ^ e)) as [Heq|Hne].
  - (* a power of two: the product is below it, on a finer grid *)
    assert (Hn' : IZR n = bpow e).
    { rewrite bpow_IZR by lia. rewrite Heq at 1. reflexivity. }
    assert (Hlt : Rabs (q * IZR n) < bpow e).
    { rewrite Rabs_pos_eq by lra. nra. }
    pose proof (ulpExp_below _ e Hnz Hlt) as Hu.
    pose proof (bpow_le (ulpExp (q * IZR n)) (e - 53) ltac:(lia)) as Hb.
    replace (e - 53)%Z with (e + (-53))%Z in Hb by lia.
    rewrite bpow_add in Hb. rewrite Hn' in *. nra.
  - assert (Hgt : bpow e + 1 <= IZR n).
    { rewrite bpow_IZR by lia. rewrite <- plus_IZR. apply IZR_le. lia. }
    assert (Hlt : Rabs (q * IZR n) < bpow (e + 1)).
    { rewrite Rabs_pos_eq by lra. nra. }
    pose proof (ulpExp_below _ (e + 1) Hnz Hlt) as Hu.
    pose proof (bpow_le (ulpExp (q * IZR n)) (e - 52) ltac:(lia)) as Hb.
    replace (e - 52)%Z with (e + (-53) + 1)%Z in Hb by lia.
    rewrite !bpow_add in Hb. simpl (bpow 1) in Hb.
    pose proof (bpow_pos e). nra.
Qed.

(** The floor of a rounded product of a fraction below 1 and a dimension
    is a coordinate of the image. *)
Lemma Zfloor_round64_scaled (q : R) (n : Z) :
  (1 <= n <= 2 ^ 53)%Z -> 0 <= q <= 1 - bpow (-53) ->
  (0 <= Zfloor (round64 (q * IZR n)) < n)%Z.
Proof.
  intros Hn Hq.
  pose proof (round64_scaled_below q n Hn Hq) as [Hp0 Hp1].
  pose proof (Zfloor_bound (round64 (q * IZR n))) as [Hlo Hhi].
  split.
  - apply Zfloor_lub. exact Hp0.
  - apply lt_IZR. lra.
Qed.

Lemma depthCoord_range (x w n : Z) :
  (0 <= x < w)%Z -> (w <= 2 ^ 53)%Z -> (1 <= n <= 2 ^ 53)%Z ->
  (0 <= depthCoord x w n < n)%Z.
Proof.
  intros Hx Hw Hn. unfold depthCoord.
  apply Zfloor_round64_scaled; [exact Hn|].
  apply round64_ratio; assumption.
Qed.

Lemma Zfloor_div (a b : Z) :
  (0 < b)%Z -> Zfloor (IZR a / IZR b) = (a / b)%Z.
Proof.
  intros Hb. apply Zfloor_eq.
  assert (Hb' : 0 < IZR b) by (apply IZR_lt; lia).
  pose proof (Z.div_mod a b ltac:(lia)) as Hdm.
  pose proof (Z.mod_pos_bound a b Hb) as Hm.
  assert (Ha : IZR a = IZR b * IZR (a / b) + IZR (a mod b)).
  { rewrite <- mult_IZR, <- plus_IZR. f_equal. exact Hdm. }
  assert (Hm0 : 0 <= IZR (a mod b)) by (apply IZR_le; lia).
  assert (Hm1 : IZR (a mod b) < IZR b) by (apply IZR_lt; lia).
  split.
  - apply (Rmult_le_reg_r (IZR b)); [exact Hb'|].
    unfold Rdiv. rewrite Rmult_assoc, Rinv_l by lra. nra.
  - apply (Rmult_lt_reg_r (IZR b)); [exact Hb'|].
    unfold Rdiv. rewrite Rmult_assoc, Rinv_l by lra. nra.
Qed.

(** The rounded coordinate is the exact one or its predecessor. *)
Lemma depthCoord_exact_or_below (x w n : Z) :
  (0 <= x < w)%Z -> (1 <= n)%Z -> (w * n <= 2 ^ 51)%Z ->
  (exactCoord x w n - 1 <= depthCoord x w n <= exactCoord x w n)%Z.
Proof.
  intros Hx Hn Hwn. unfold exactCoord.
  assert (Hw0 : 0 < IZR w) by (apply IZR_lt; lia).
  assert (Hn1 : 1 <= IZR n) by (apply IZR_le; lia).
  assert (Hx0 : 0 <= IZR x) by (apply IZR_le; lia).
  destruct (ratio_unit x w Hx) as [Hr0 Hr1].
  set (r := IZR x / IZR w) in *.
  assert (Hrw : r * IZR w = IZR x).
  { unfold r, Rdiv. rewrite Rmult_assoc, Rinv_l by lra. ring. }
  assert (Hxn : IZR (x * n) <= 2251799813685248 - 1).
  { rewrite <- minus_IZR. apply IZR_le.
    assert ((x + 1) * n <= w * n)%Z by nia. lia. }
  rewrite mult_IZR in Hxn.
  pose proof (bpow_pos (-53)) as Hp53.
  destruct (Z.eq_dec x 0) as [Hz|Hnz].
  { assert (Hr : r = 0).
    { unfold r. rewrite Hz. unfold Rdiv. ring. }
    unfold depthCoord. fold r. rewrite Hr, Rmult_0_l, round64_0.
    rewrite Rmult_0_l, round64_0.
    change 0 with (IZR 0). rewrite ZfloorZ. lia. }
  assert (Hx1 : 1 <= IZR x) by (apply IZR_le; lia).
  assert (Hxw : IZR w <= 2251799813685248).
  { assert (H : (w <= 2 ^ 51)%Z) by nia. apply IZR_le in H. exact H. }
  (* first rounding *)
  assert (Hrn : bpow (-1022) <= Rabs r).
  { rewrite Rabs_pos_eq by lra.
    apply Rle_trans with (bpow (-51)); [apply bpow_le; lia|].
    apply (Rmult_le_reg_r (IZR w)); [exact Hw0|]. rewrite Hrw.
    simpl. lra. }
  pose proof (round64_relative r Hrn) as He1.
  rewrite (Rabs_pos_eq r) in He1 by lra.
  apply Rabs_le_inv in He1.
  set (q := round64 r) in *.
  (* second rounding *)
  assert (Hp53' : bpow (-53) <= / 2) by (simpl; lra).
  assert (Hrpos : 0 < r).
  { destruct Hr0 as [Hr0|Hr0]; [exact Hr0|]. rewrite <- Hr0 in Hrw. lra. }
  assert (Hqpos : 0 < q) by nra.
  assert (Hq0 : 0 < q * IZR n) by nra.
  assert (Hyn : bpow (-1022) <= Rabs (q * IZR n)).
  { rewrite Rabs_pos_eq by lra.
    apply Rle_trans with (bpow (-52)); [apply bpow_le; lia|].
    assert (bpow (-51) <= r).
    { apply (Rmult_le_reg_r (IZR w)); [exact Hw0|]. rewrite Hrw.
      simpl. lra. }
    simpl in *. nra. }
  pose proof (round64_relative (q * IZR n) Hyn) as He2.
  rewrite (Rabs_pos_eq (q * IZR n)) in He2 by lra.
  apply Rabs_le_inv in He2.
  unfold depthCoord. fold r. fold q.
  set (p := round64 (q * IZR n)) in *.
  (* the exact quotient *)
  assert (Hv : r * IZR n = IZR (x * n) / IZR w).
  { rewrite mult_IZR. unfold r. field. lra. }
  rewrite Hv, Zfloor_div by lia.
  pose proof (Z.div_mod (x * n) w ltac:(lia)) as Hdm.
  pose proof (Z.mod_pos_bound (x * n) w ltac:(lia)) as Hm.
  set (v := (x * n / w)%Z) in *. set (s := ((x * n) mod w)%Z) in *.
  assert (Hxn' : IZR x * IZR n = IZR w * IZR v + IZR s).
  { rewrite <- !mult_IZR, <- plus_IZR. f_equal. exact Hdm. }
  assert (Hs0 : 0 <= IZR s) by (apply IZR_le; lia).
  assert (Hs1 : IZR s <= IZR w - 1).
  { rewrite <- minus_IZR. apply IZR_le. lia. }
  (* the distance of p to the exact value, times w *)
  assert (Hd : Rabs (p * IZR w - IZR x * IZR n) < 1).
  { assert (Hqw : Rabs (q * IZR w - IZR x) <= bpow (-53) * IZR x).
    { apply Rabs_le. rewrite <- Hrw. split; nra. }
    apply Rabs_le_inv in Hqw.
    assert (Hqn : q * IZR n * IZR w <= (1 + bpow (-53)) * (IZR x * IZR n)).
    { nra. }
    assert (Hpw : Rabs (p * IZR w - q * IZR n * IZR w)
                  <= bpow (-53) * (q * IZR n * IZR w)).
    { apply Rabs_le. split; nra. }
    apply Rabs_le_inv in Hpw.
    apply Rabs_def1; simpl in *; nra. }
  apply Rabs_def2 in Hd. destruct Hd as [Hd1 Hd2].
  pose proof (Zfloor_bound p) as [Hfl Hfh].
  split.
  - assert (H : (v - 1 < Zfloor p + 1)%Z).
    { apply lt_IZR. rewrite plus_IZR, minus_IZR.
      apply (Rmult_lt_reg_r (IZR w)); [exact Hw0|]. nra. }
    lia.
  - assert (H : (Zfloor p < v + 1)%Z).
    { apply lt_IZR. rewrite plus_IZR.
      apply (Rmult_lt_reg_r (IZR w)); [exact Hw0|]. nra. }
    lia.
Qed.

(** ** The sampling loop *)

Lemma acceptedAt_shift g rnd m d c j :
  acceptedAt g rnd m d (S (S c)) j = acceptedAt g rnd m d c (S j).
Proof.
  unfold acceptedAt, drawX, drawY.
  replace (S (S c) + 2 * j)%nat with (c + 2 * S j)%nat by lia.
  replace (S (S c) + 2 * j + 1)%nat with (c + 2 * S j + 1)%nat by lia.
  reflexivity.
Qed.

Lemma drawPixel_shift rnd m c j :
  drawPixel rnd m (S (S c)) j = drawPixel rnd m c (S j).
Proof.
  unfold drawPixel, drawX, drawY.
  replace (S (S c) + 2 * j)%nat with (c + 2 * S j)%nat by lia.
  replace (S (S c) + 2 * j + 1)%nat with (c + 2 * S j + 1)%nat by lia.
  reflexivity.
Qed.

Lemma spawnLoop_S g rnd m n c b :
  spawnLoop g rnd m (S n) c b =
    match data m with
    | Some maskData =>
        if shouldSpawn g m maskData (rnd c) (rnd (S c)) then
          (true, S (S (S c)),
           spawnAt g m (fst (maskPixel m (rnd c) (rnd (S c))))
                       (snd (maskPixel m (rnd c) (rnd (S c)))) b)
        else spawnLoop g rnd m n (S (S c)) b
    | None => spawnLoop g rnd m n (S (S c)) b
    end.
Proof. reflexivity. Qed.

(** The loop stops at the first accepted pair of draws, or runs out. *)
Lemma spawnLoop_first_accepted g rnd m d :
  data m = Some d ->
  forall n c b,
    (exists k, (k < n)%nat
       /\ (forall j, (j < k)%nat -> acceptedAt g rnd m d c j = false)
       /\ acceptedAt g rnd m d c k = true
       /\ spawnLoop g rnd m n c b =
            (true, (c + 2 * k + 3)%nat,
             spawnAt g m (fst (drawPixel rnd m c k))
                         (snd (drawPixel rnd m c k)) b))
    \/ ((forall j, (j < n)%nat -> acceptedAt g rnd m d c j = false)
        /\ spawnLoop g rnd m n c b = (false, (c + 2 * n)%nat, b)).
Proof.
  intros Hd n. induction n as [|n IH]; intros c b.
  - right. split; [intros j Hj; lia|]. simpl. f_equal. f_equal. lia.
  - rewrite spawnLoop_S, Hd.
    destruct (shouldSpawn g m d (rnd c) (rnd (S c))) eqn:Hacc.
    + left. exists 0%nat. split; [lia|]. split; [intros j Hj; lia|].
      unfold acceptedAt, drawPixel, drawX, drawY.
      replace (c + 2 * 0)%nat with c by lia.
      replace (c + 1)%nat with (S c) by lia.
      split; [exact Hacc|].
      replace (c + 3)%nat with (S (S (S c))) by lia. reflexivity.
    + destruct (IH (S (S c)) b) as [(k & Hk & Hrej & Hok & Heq)|[Hrej Heq]].
      * left. exists (S k). split; [lia|]. split.
        { intros j Hj. destruct j as [|j].
          - unfold acceptedAt, drawX, drawY.
            replace (c + 2 * 0)%nat with c by lia.
            replace (c + 1)%nat with (S c) by lia. exact Hacc.
          - rewrite <- acceptedAt_shift. apply Hrej. lia. }
        split; [rewrite <- acceptedAt_shift; exact Hok|].
        rewrite Heq, <- drawPixel_shift. f_equal. f_equal. lia.
      * right. split.
        { intros j Hj. destruct j as [|j].
          - unfold acceptedAt, drawX, drawY.
            replace (c + 2 * 0)%nat with c by lia.
            replace (c + 1)%nat with (S c) by lia. exact Hacc.
          - rewrite <- acceptedAt_shift. apply Hrej. lia. }
        rewrite Heq. f_equal. f_equal. lia.
Qed.

(** Without pixel data the loop spends its 200 attempts and spawns
    nothing. *)
Lemma spawnLoop_no_data g rnd m :
  data m = None ->
  forall n c b, spawnLoop g rnd m n c b = (false, (c + 2 * n)%nat, b).
Proof.
  intros Hd n. induction n as [|n IH]; intros c b; simpl.
  - f_equal. f_equal. lia.
  - rewrite Hd, IH. f_equal. f_equal. lia.
Qed.

(** What [shouldSpawn] decides, in terms of the alpha channel read. *)
Lemma shouldSpawn_alpha g m d rx ry :
  shouldSpawn g m d rx ry =
    let person :=
      match js_index d (maskIndex m (Zfloor (rx * IZR (width m)))
                                    (Zfloor (ry * IZR (height m))) + 3) with
      | Some a => (127 <? a)%Z
      | None => false
      end in
    if invertMask (CONFIG g) then negb person else person.
Proof. reflexivity. Qed.

Lemma shouldSpawn_allAlpha_255 g m d rx ry :
  invertMask (CONFIG g) = false ->
  (1 <= width m)%Z -> (1 <= height m)%Z ->
  allAlpha m d 255 ->
  0 <= rx < 1 -> 0 <= ry < 1 ->
  shouldSpawn g m d rx ry = true.
Proof.
  intros Hinv Hw Hh Hall Hx Hy.
  rewrite shouldSpawn_alpha. cbv zeta. rewrite Hinv.
  destruct (maskPixel_in_range m rx ry Hw Hh Hx Hy) as [Hmx Hmy].
  unfold maskPixel in Hmx, Hmy. simpl in Hmx, Hmy.
  rewrite (Hall _ _ Hmx Hmy). reflexivity.
Qed.

(** The finishing part of a respawn leaves x and y of a placed bubble. *)
Lemma respawnFinish_spawned g rnd now_ms c b :
  let r := respawnFinish g rnd now_ms (true, c, b) in
  fst r = (c + 2)%nat
  /\ vx (position (snd r)) = vx (position b)
  /\ vy (position (snd r)) = vy (position b)
  /\ depth (userData (snd r)) = depth (userData b).
Proof.
  simpl. repeat split. lia.
Qed.

Lemma respawnFinish_fallback g rnd now_ms c b :
  let r := respawnFinish g rnd now_ms (false, c, b) in
  fst r = (c + 3)%nat
  /\ vx (position (snd r)) = (rnd c - 0.5) * visibleWidth g
  /\ vy (position (snd r)) = - visibleHeight g / 2 - 5
  /\ depth (userData (snd r)) = depth (userData b).
Proof.
  simpl. repeat split. lia.
Qed.

(** ** The concrete snapshots *)

Lemma js_index_repeat (x : byte) (n : nat) (i : Z) :
  (0 <= i < Z.of_nat n)%Z -> js_index (repeat x n) i = Some (byte_val x).
Proof.
  intros Hi. unfold js_index.
  destruct (i <? 0)%Z eqn:Hneg; [apply Z.ltb_lt in Hneg; lia|].
  rewrite nth_error_repeat by lia. reflexivity.
Qed.

Lemma randOk_rndZero : randOk rndZero.
Proof. intro n. unfold rndZero. lra. Qed.

Lemma randOk_rndHalf : randOk rndHalf.
Proof. intro n. unfold rndHalf. lra. Qed.

Lemma allAlpha_mask8 : allAlpha mask8 (repeat xff 256) 255.
Proof.
  intros mx my Hx Hy. unfold maskIndex.
  change (width mask8) with 8%Z in *. change (height mask8) with 8%Z in *.
  rewrite js_index_repeat by lia. reflexivity.
Qed.

(** ** C1: the mask sampler *)

(** C1.  In a body-spawn respawn with a mask of at least one pixel whose
    pixel buffer is present, draw pair [k] of the sampling loop is mapped to
    the pixel [(floor (rx * width), floor (ry * height))], the pixel is a
    person pixel iff its alpha channel exceeds 127, and it is accepted iff
    [invert ? !isPerson : isPerson]; the loop uses the first accepted pair
    among at most 200, placing the bubble at the world position of that
    pixel, and reports failure when all 200 pairs are rejected.  For a mask
    whose pixels all have alpha 255, with [invertMask = false], the first
    pair is accepted, so the bubble is placed at a mask-derived position and
    the placement does not fail. *)
Theorem mask_sampler_uses_first_accepted_draw :
  forall g rnd now_ms c b seg m maskData,
    spawnOnBody (CONFIG g) = true ->
    segmentationResult g = Some seg ->
    mask seg = Some m ->
    data m = Some maskData ->
    (1 <= width m)%Z -> (1 <= height m)%Z ->
    let c0 := S c in
    let spawned := fst (fst (respawnPlace g rnd c b)) in
    let b' := snd (respawnBubble g rnd now_ms c b) in
    (forall rx ry,
        shouldSpawn g m maskData rx ry =
          let mx := Zfloor (rx * IZR (width m)) in
          let my := Zfloor (ry * IZR (height m)) in
          let person :=
            match js_index maskData ((my * width m + mx) * 4 + 3) with
            | Some a => (127 <? a)%Z
            | None => false
            end in
          if invertMask (CONFIG g) then negb person else person)
    /\ ((exists k, (k < 200)%nat
           /\ (forall j, (j < k)%nat ->
                 acceptedAt g rnd m maskData c0 j = false)
           /\ acceptedAt g rnd m maskData c0 k = true
           /\ spawned = true
           /\ vx (position b') = maskWorldX g m (fst (drawPixel rnd m c0 k))
           /\ vy (position b') = maskWorldY g m (snd (drawPixel rnd m c0 k)))
        \/ ((forall j, (j < 200)%nat ->
               acceptedAt g rnd m maskData c0 j = false)
            /\ spawned = false))
    /\ (invertMask (CONFIG g) = false ->
        allAlpha m maskData 255 ->
        randOk rnd ->
        spawned = true
        /\ vx (position b') = maskWorldX g m (fst (drawPixel rnd m c0 0))
        /\ vy (position b') = maskWorldY g m (snd (drawPixel rnd m c0 0))).
Proof.
  intros g rnd now_ms c b seg m d Hbody Hseg Hmask Hdata Hw Hh c0 spawned b'.
  assert (Hplace : respawnPlace g rnd c b = spawnLoop g rnd m 200 c0 b).
  { unfold respawnPlace. rewrite Hbody, Hseg, Hmask. reflexivity. }
  assert (Hgen :
    (exists k, (k < 200)%nat
       /\ (forall j, (j < k)%nat -> acceptedAt g rnd m d c0 j = false)
       /\ acceptedAt g rnd m d c0 k = true
       /\ spawned = true
       /\ vx (position b') = maskWorldX g m (fst (drawPixel rnd m c0 k))
       /\ vy (position b') = maskWorldY g m (snd (drawPixel rnd m c0 k)))
    \/ ((forall j, (j < 200)%nat -> acceptedAt g rnd m d c0 j = false)
        /\ spawned = false)).
  { destruct (spawnLoop_first_accepted g rnd m d Hdata 200 c0 b)
      as [(k & Hk & Hrej & Hok & Heq)|[Hrej Heq]].
    - left. exists k. repeat (split; [assumption|]).
      subst spawned b'. unfold respawnBubble. rewrite Hplace, Heq.
      split; [reflexivity|].
      pose proof (respawnFinish_spawned g rnd now_ms (c0 + 2 * k + 3)
        (spawnAt g m (fst (drawPixel rnd m c0 k))
                     (snd (drawPixel rnd m c0 k)) b)) as (_ & Hx & Hy & _).
      rewrite Hx, Hy. split; reflexivity.
    - right. split; [assumption|].
      subst spawned. rewrite Hplace, Heq. reflexivity. }
  split; [intros rx ry; reflexivity|].
  split; [exact Hgen|].
  intros Hinv Hall Hrnd.
  assert (H0 : acceptedAt g rnd m d c0 0 = true).
  { unfold acceptedAt.
    apply shouldSpawn_allAlpha_255; try assumption; apply Hrnd. }
  destruct Hgen as [(k & Hk & Hrej & Hok & Hsp & Hx & Hy)|[Hrej _]].
  - destruct k as [|k].
    + repeat split; assumption.
    + rewrite (Hrej 0%nat) in H0 by lia. discriminate.
  - rewrite (Hrej 0%nat) in H0 by lia. discriminate.
Qed.

Lemma mask_sampler_uses_first_accepted_draw_witness :
  fst (fst (respawnPlace globalsMask8 rndZero 0 bubble0)) = true
  /\ vx (position (snd (respawnBubble globalsMask8 rndZero 0 0 bubble0))) =
       maskWorldX globalsMask8 mask8 (fst (drawPixel rndZero mask8 1 0))
  /\ vy (position (snd (respawnBubble globalsMask8 rndZero 0 0 bubble0))) =
       maskWorldY globalsMask8 mask8 (snd (drawPixel rndZero mask8 1 0)).
Proof.
  refine (proj2 (proj2
    (mask_sampler_uses_first_accepted_draw globalsMask8 rndZero 0%Z 0%nat
       bubble0 (mkSeg (Some mask8)) mask8 (repeat xff 256)
       eq_refl eq_refl eq_refl eq_refl _ _)) eq_refl allAlpha_mask8
       randOk_rndZero); simpl; lia.
Defined.

(** ** C2: the fallback spawn *)

(** C2.  When the spawn mode is not "on body", or no mask snapshot with
    pixel data is published, or all 200 pairs of draws are rejected, the
    placement fails and the respawn sets [position.x] to
    [(u - 0.5) * visibleWidth] for the next draw [u] of [Math.random()],
    which lies in the full visible width, and [position.y] to exactly
    [-visibleHeight / 2 - 5]; with no segmentation result published this
    holds of every respawn. *)
Theorem fallback_spawn_below_frame :
  forall g rnd now_ms c b,
    let placed := respawnPlace g rnd c b in
    let n := snd (fst placed) in
    let b' := snd (respawnBubble g rnd now_ms c b) in
    ((spawnOnBody (CONFIG g) = false
      \/ publishedMask g = None
      \/ (exists m d, publishedMask g = Some (m, d)
            /\ forall j, (j < 200)%nat ->
                 acceptedAt g rnd m d (S c) j = false)) ->
     fst (fst placed) = false
     /\ vx (position b') = (rnd n - 0.5) * visibleWidth g
     /\ vy (position b') = - visibleHeight g / 2 - 5
     /\ (randOk rnd -> 0 < visibleWidth g ->
         - visibleWidth g / 2 <= vx (position b') < visibleWidth g / 2))
    /\ (segmentationResult g = None ->
        vy (position b') = - visibleHeight g / 2 - 5).
Proof.
  intros g rnd now_ms c b placed n b'.
  assert (Hfail : fst (fst placed) = false ->
     fst (fst placed) = false
     /\ vx (position b') = (rnd n - 0.5) * visibleWidth g
     /\ vy (position b') = - visibleHeight g / 2 - 5
     /\ (randOk rnd -> 0 < visibleWidth g ->
         - visibleWidth g / 2 <= vx (position b') < visibleWidth g / 2)).
  { intros Hf. subst b' n. unfold respawnBubble. fold placed.
    destruct placed as [[sp c1] b1]. simpl in Hf. subst sp.
    pose proof (respawnFinish_fallback g rnd now_ms c1 b1) as (_ & Hx & Hy & _).
    rewrite Hx, Hy. simpl fst. simpl snd.
    split; [reflexivity|]. split; [reflexivity|]. split; [reflexivity|].
    intros Hrnd Hvw. pose proof (Hrnd c1). split; nra. }
  assert (Hnoseg : segmentationResult g = None -> fst (fst placed) = false).
  { intros Hs. subst placed. unfold respawnPlace. rewrite Hs.
    destruct (spawnOnBody (CONFIG g)); reflexivity. }
  split.
  - intros Hcond. apply Hfail. subst placed. unfold respawnPlace.
    destruct Hcond as [Hmode|[Hnone|(m & d & Hpub & Hrej)]].
    + rewrite Hmode. reflexivity.
    + unfold publishedMask in Hnone.
      destruct (spawnOnBody (CONFIG g)); [|reflexivity].
      destruct (segmentationResult g) as [seg|]; [|reflexivity].
      destruct (mask seg) as [m|]; [|reflexivity].
      destruct (data m) as [d|] eqn:Hd; [discriminate|].
      rewrite (spawnLoop_no_data g rnd m Hd). reflexivity.
    + unfold publishedMask in Hpub.
      destruct (spawnOnBody (CONFIG g)); [|reflexivity].
      destruct (segmentationResult g) as [seg|]; [|reflexivity].
      destruct (mask seg) as [m'|]; [|reflexivity].
      destruct (data m') as [d'|] eqn:Hd; [|discriminate].
      injection Hpub as -> ->.
      destruct (spawnLoop_first_accepted g rnd m d Hd 200 (S c) b)
        as [(k & Hk & _ & Hok & _)|[_ Heq]].
      * rewrite (Hrej k Hk) in Hok. discriminate.
      * rewrite Heq. reflexivity.
  - intros Hs. apply Hfail. apply Hnoseg. exact Hs.
Qed.

Lemma fallback_spawn_below_frame_witness :
  vy (position (snd (respawnBubble globalsNoSensor rndHalf 0 0 bubble0))) =
    - visibleHeight globalsNoSensor / 2 - 5
  /\ - visibleWidth globalsNoSensor / 2
     <= vx (position (snd (respawnBubble globalsNoSensor rndHalf 0 0 bubble0)))
     < visibleWidth globalsNoSensor / 2.
Proof.
  pose proof (fallback_spawn_below_frame globalsNoSensor rndHalf 0%Z 0%nat
                bubble0) as [Hgen Hnone].
  split.
  - exact (Hnone eq_refl).
  - destruct (Hgen (or_intror (or_introl eq_refl))) as (_ & _ & _ & Hrange).
    apply Hrange; [exact randOk_rndHalf|simpl; lra].
Defined.

(** ** C3: what every respawn resets *)

(** C3.  Whichever branch placed the bubble, a respawn sets [position.z] to
    [(u - 0.5) * 15] for a draw [u], a value in [-7.5, 7.5), sets
    [birthTime] to the current time in seconds, sets [lifespanMultiplier]
    to [0.5 + u'] for the next draw [u'], a value in [0.5, 1.5), and sets
    the material opacity to 0.5. *)
Theorem respawn_resets_z_birth_multiplier_opacity :
  forall g rnd now_ms c b,
    randOk rnd ->
    let spawned := fst (fst (respawnPlace g rnd c b)) in
    let c1 := snd (fst (respawnPlace g rnd c b)) in
    let n := if spawned then c1 else S c1 in
    let b' := snd (respawnBubble g rnd now_ms c b) in
    vz (position b') = (rnd n - 0.5) * 15
    /\ -7.5 <= vz (position b') < 7.5
    /\ birthTime (userData b') = IZR now_ms / 1000
    /\ lifespanMultiplier (userData b') = 0.5 + rnd (S n) * 1.0
    /\ 0.5 <= lifespanMultiplier (userData b') < 1.5
    /\ opacity b' = 0.5.
Proof.
  intros g rnd now_ms c b Hrnd spawned c1 n b'.
  subst b' n c1 spawned. unfold respawnBubble.
  destruct (respawnPlace g rnd c b) as [[sp c1] b1].
  destruct sp; simpl.
  - pose proof (Hrnd c1). pose proof (Hrnd (S c1)).
    repeat split; try reflexivity; lra.
  - pose proof (Hrnd (S c1)). pose proof (Hrnd (S (S c1))).
    repeat split; try reflexivity; lra.
Qed.

Lemma respawn_resets_z_birth_multiplier_opacity_witness :
  randOk rndHalf
  /\ opacity (snd (respawnBubble globalsMask8 rndHalf 1000 0 bubble0)) = 0.5
  /\ birthTime (userData (snd (respawnBubble globalsMask8 rndHalf 1000 0
                                 bubble0))) = IZR 1000 / 1000.
Proof.
  split; [exact randOk_rndHalf|].
  pose proof (respawn_resets_z_birth_multiplier_opacity globalsMask8 rndHalf
                1000%Z 0%nat bubble0 randOk_rndHalf)
    as (_ & _ & Hb & _ & _ & Ho).
  split; [exact Ho|exact Hb].
Defined.

(** ** Buffer reads *)

Lemma byte_val_range (x : byte) : (0 <= byte_val x <= 255)%Z.
Proof.
  unfold byte_val. pose proof (to_N_bounded x). lia.
Qed.

Lemma js_index_in_bounds (arr : list byte) (i : Z) :
  (0 <= i < Z.of_nat (length arr))%Z ->
  exists v, js_index arr i = Some v /\ (0 <= v <= 255)%Z.
Proof.
  intros Hi. unfold js_index.
  destruct (i <? 0)%Z eqn:Hneg; [apply Z.ltb_lt in Hneg; lia|].
  destruct (nth_error arr (Z.to_nat i)) as [x|] eqn:Hnth.
  - exists (byte_val x). split; [reflexivity|apply byte_val_range].
  - apply nth_error_None in Hnth. lia.
Qed.

(** A read inside the buffer returns the byte stored there. *)
Lemma js_index_stored (arr : list byte) (i : Z) :
  (0 <= i < Z.of_nat (length arr))%Z ->
  exists x, nth_error arr (Z.to_nat i) = Some x
            /\ js_index arr i = Some (byte_val x).
Proof.
  intros Hi. unfold js_index.
  destruct (i <? 0)%Z eqn:Hneg; [apply Z.ltb_lt in Hneg; lia|].
  destruct (nth_error arr (Z.to_nat i)) as [x|] eqn:Hnth.
  - exists x. split; reflexivity.
  - apply nth_error_None in Hnth. lia.
Qed.

Lemma js_index_beyond d i :
  (Z.of_nat (length d) <= i)%Z -> js_index d i = None.
Proof.
  intros Hi. unfold js_index.
  destruct (i <? 0)%Z; [reflexivity|].
  assert (Hnone : nth_error d (Z.to_nat i) = None).
  { apply nth_error_None. lia. }
  rewrite Hnone. reflexivity.
Qed.

Lemma pixel_index_in_bounds (w h x y len k : Z) :
  (0 <= x < w)%Z -> (0 <= y < h)%Z -> (4 * w * h <= len)%Z ->
  (0 <= k <= 3)%Z ->
  (0 <= (y * w + x) * 4 + k < len)%Z.
Proof.
  intros Hx Hy Hlen Hk. split; [nia|].
  assert ((y + 1) * w <= h * w)%Z by nia. nia.
Qed.

Lemma sampleDepth_published g im d mx my w h :
  publishedDepth g = Some (im, d) ->
  sampleDepth g mx my w h =
    match js_index d (depthIndex im mx my w h) with
    | Some v => Fin (1 - IZR v / 255)
    | None => NaN
    end.
Proof.
  unfold publishedDepth, sampleDepth. intros Hpub.
  destruct (depthResult g) as [dr|]; [|discriminate].
  destruct (depthImage dr) as [im'|]; [|discriminate].
  destruct (data im') as [d'|] eqn:Hd; [|discriminate].
  injection Hpub as -> ->.
  destruct (js_index d _); reflexivity.
Qed.

Lemma sampleDepth_unpublished g mx my w h :
  publishedDepth g = None -> sampleDepth g mx my w h = Fin 0.5.
Proof.
  unfold publishedDepth, sampleDepth. intros Hpub.
  destruct (depthResult g) as [dr|]; [|simpl; f_equal; lra].
  destruct (depthImage dr) as [im|]; [|simpl; f_equal; lra].
  destruct (data im) as [d|]; [discriminate|simpl; f_equal; lra].
Qed.

Lemma depthPixel_in_range im mx my w h :
  (0 <= mx < w)%Z -> (0 <= my < h)%Z ->
  (w <= 2 ^ 53)%Z -> (h <= 2 ^ 53)%Z -> safeDims im ->
  (0 <= fst (depthPixel im mx my w h) < width im)%Z
  /\ (0 <= snd (depthPixel im mx my w h) < height im)%Z.
Proof.
  intros Hx Hy Hw Hh [Hdw Hdh]. unfold depthPixel. simpl.
  split; apply depthCoord_range; assumption.
Qed.

Lemma depthIndex_in_bounds im d mx my w h :
  (0 <= mx < w)%Z -> (0 <= my < h)%Z ->
  (w <= 2 ^ 53)%Z -> (h <= 2 ^ 53)%Z -> safeDims im -> imageWf im d ->
  (0 <= depthIndex im mx my w h < Z.of_nat (length d))%Z.
Proof.
  intros Hx Hy Hw Hh Hsafe (_ & _ & Hlen).
  destruct (depthPixel_in_range im mx my w h Hx Hy Hw Hh Hsafe) as [Hdx Hdy].
  unfold depthIndex.
  pose proof (pixel_index_in_bounds (width im) (height im) _ _ _ 0
                Hdx Hdy Hlen ltac:(lia)).
  lia.
Qed.

(** An image whose buffer is an array has dimensions that a number holds
    exactly. *)
Lemma imageWf_safeDims im d : imageWf im d -> jsArray d -> safeDims im.
Proof.
  unfold imageWf, jsArray, safeDims. intros (Hw & Hh & Hlen) Hd.
  assert (H1 : (width im * 1 <= width im * height im)%Z)
    by (apply Z.mul_le_mono_nonneg_l; lia).
  assert (H2 : (1 * height im <= width im * height im)%Z)
    by (apply Z.mul_le_mono_nonneg_r; lia).
  lia.
Qed.

(** ** Agreement with the IEEE 754 specification of the Standard Library

    On the operands that decide the statements below, [round64] of the exact
    result is the result of the corresponding binary64 operation of
    [SpecFloat]. *)

Lemma round64_0_8 : round64 0.8 = 7205759403792794 * bpow (-53).
Proof.
  apply round64_at.
  - apply ulpExp_unique; [lia|].
    rewrite Rabs_pos_eq by lra. simpl. lra.
  - simpl. apply Rabs_def1; lra.
Qed.

Lemma round64_0_2 : round64 0.2 = 7205759403792794 * bpow (-55).
Proof.
  apply round64_at.
  - apply ulpExp_unique; [lia|].
    rewrite Rabs_pos_eq by lra. simpl. lra.
  - simpl. apply Rabs_def1; lra.
Qed.

Lemma round64_quotient_123_480 :
  round64 (123 / 480) = 4616189618054758 * bpow (-54).
Proof.
  apply round64_at.
  - apply ulpExp_unique; [lia|].
    rewrite Rabs_pos_eq by lra. simpl. lra.
  - simpl. apply Rabs_def1; lra.
Qed.

Lemma round64_product_123_480 :
  round64 (round64 (123 / 480) * 480) = 8655355533852671 * bpow (-46).
Proof.
  rewrite round64_quotient_123_480.
  apply round64_at.
  - apply ulpExp_unique; [lia|].
    rewrite Rabs_pos_eq by (simpl; lra). simpl. lra.
  - simpl. apply Rabs_def1; lra.
Qed.

Lemma ieee_literals :
  SF2R (b64div (b64 4) (b64 5)) = round64 0.8
  /\ SF2R (b64div (b64 1) (b64 5)) = round64 0.2.
Proof.
  rewrite round64_0_8, round64_0_2.
  assert (H8 : b64div (b64 4) (b64 5) =
               SpecFloat.S754_finite false 7205759403792794 (-53))
    by (vm_compute; reflexivity).
  assert (H2 : b64div (b64 1) (b64 5) =
               SpecFloat.S754_finite false 7205759403792794 (-55))
    by (vm_compute; reflexivity).
  rewrite H8, H2. split; reflexivity.
Qed.

Lemma ieee_row_123 :
  SF2R (b64div (b64 123) (b64 480)) = round64 (123 / 480)
  /\ SF2R (b64mul (b64div (b64 123) (b64 480)) (b64 480)) =
       round64 (round64 (123 / 480) * 480).
Proof.
  rewrite round64_product_123_480, round64_quotient_123_480.
  assert (Hq : b64div (b64 123) (b64 480) =
               SpecFloat.S754_finite false 4616189618054758 (-54))
    by (vm_compute; reflexivity).
  assert (Hp : b64mul (b64div (b64 123) (b64 480)) (b64 480) =
               SpecFloat.S754_finite false 8655355533852671 (-46))
    by (vm_compute; reflexivity).
  rewrite Hp, Hq. split; reflexivity.
Qed.

(** ** C4: the depth sampler *)

Lemma depthCoord_row_123 : depthCoord 123 480 480 = 122%Z.
Proof.
  unfold depthCoord.
  change (IZR 123 / IZR 480) with (123 / 480).
  change (IZR 480) with 480.
  rewrite round64_product_123_480.
  apply Zfloor_eq. simpl. lra.
Qed.

Lemma exactCoord_row_123 : exactCoord 123 480 480 = 123%Z.
Proof.
  unfold exactCoord. apply Zfloor_eq. simpl. lra.
Qed.

Lemma depthCoord_zero (w n : Z) : depthCoord 0 w n = 0%Z.
Proof.
  unfold depthCoord.
  replace (IZR 0 / IZR w) with 0 by (unfold Rdiv; ring).
  rewrite round64_0, Rmult_0_l, round64_0.
  change 0 with (IZR 0). apply ZfloorZ.
Qed.

Lemma sampleDepth_row_123 :
  sampleDepth globalsRows 0 123 1 480 = Fin (1 - 0 / 255).
Proof.
  rewrite (sampleDepth_published globalsRows depthRows depthRowsData)
    by reflexivity.
  unfold depthIndex, depthPixel. cbn [fst snd].
  change (height depthRows) with 480%Z. change (width depthRows) with 1%Z.
  rewrite depthCoord_row_123, depthCoord_zero. reflexivity.
Qed.

(** The closeness that C4 words with the exact floor is not the one the
    code stores: for row 123 of 480 rows, rescaled to 480 rows, the exact
    floor is row 123, whose red channel is 255 in [depthRows], and the
    code reads row 122, whose red channel is 0. *)
Lemma depth_sampler_closeness_counterexample :
  ~ (forall g m b mx my im d red,
       (0 <= mx < width m)%Z -> (0 <= my < height m)%Z ->
       publishedDepth g = Some (im, d) ->
       js_index d ((exactCoord my (height m) (height im) * width im
                    + exactCoord mx (width m) (width im)) * 4) = Some red ->
       depth (userData (spawnAt g m mx my b)) =
         Some (Fin (1 - IZR red / 255))).
Proof.
  intros H.
  specialize (H globalsRows maskRows bubble0 0%Z 123%Z depthRows
                depthRowsData 255%Z).
  change (depth (userData (spawnAt globalsRows maskRows 0 123 bubble0)))
    with (Some (sampleDepth globalsRows 0 123 1 480)) in H.
  rewrite sampleDepth_row_123 in H.
  assert (Heq : Some (Fin (1 - 0 / 255)) = Some (Fin (1 - 255 / 255))).
  { apply H.
    - simpl. lia.
    - simpl. lia.
    - reflexivity.
    - change (height maskRows) with 480%Z. change (width maskRows) with 1%Z.
      change (height depthRows) with 480%Z. change (width depthRows) with 1%Z.
      rewrite exactCoord_row_123.
      assert (H0 : exactCoord 0 1 1 = 0%Z).
      { unfold exactCoord. apply Zfloor_eq. simpl. lra. }
      rewrite H0. reflexivity. }
  injection Heq as Heq. lra.
Qed.

(** C4.  For a mask pixel [(mx, my)] of a [w] x [h] mask, the
    closeness stored by a spawn is [1 - red / 255], where [red] is the red
    channel of the depth pixel whose coordinates are the floors of the
    binary64 products [(mx / w) * depthW] and [(my / h) * depthH]
    ([depthCoord]), and is [NaN] when that read is outside the buffer.
    Each coordinate is the floor of the exact product or one less than it,
    and lies inside the depth image; so the read is defined when the
    buffer holds four channels for every pixel, and a depth buffer whose
    red channel is 255 everywhere yields closeness 0 for every mask pixel.
    With no depth snapshot, or one without pixel data, the stored closeness
    is 0.5. *)
Theorem depth_sampler_closeness :
  forall g m b mx my,
    (0 <= mx < width m)%Z -> (0 <= my < height m)%Z ->
    let w := width m in
    let h := height m in
    depth (userData (spawnAt g m mx my b)) = Some (sampleDepth g mx my w h)
    /\ (forall im d,
          publishedDepth g = Some (im, d) ->
          let depthX := depthCoord mx w (width im) in
          let depthY := depthCoord my h (height im) in
          let index := ((depthY * width im + depthX) * 4)%Z in
          (forall red, js_index d index = Some red ->
                       sampleDepth g mx my w h = Fin (1 - IZR red / 255))
          /\ (js_index d index = None -> sampleDepth g mx my w h = NaN)
          /\ ((1 <= width im)%Z -> (w * width im <= 2 ^ 51)%Z ->
              (exactCoord mx w (width im) - 1 <= depthX
               <= exactCoord mx w (width im))%Z)
          /\ ((1 <= height im)%Z -> (h * height im <= 2 ^ 51)%Z ->
              (exactCoord my h (height im) - 1 <= depthY
               <= exactCoord my h (height im))%Z)
          /\ (safeDims m -> safeDims im ->
              (0 <= depthX < width im)%Z /\ (0 <= depthY < height im)%Z)
          /\ (safeDims m -> safeDims im -> imageWf im d ->
              exists red, js_index d index = Some red
                          /\ (0 <= red <= 255)%Z
                          /\ sampleDepth g mx my w h = Fin (1 - IZR red / 255))
          /\ (safeDims m -> safeDims im -> allRed im d 255 ->
              sampleDepth g mx my w h = Fin 0))
    /\ (publishedDepth g = None -> sampleDepth g mx my w h = Fin 0.5).
Proof.
  intros g m b mx my Hx Hy w h.
  split; [reflexivity|].
  split; [|apply sampleDepth_unpublished].
  intros im d Hpub depthX depthY index.
  pose proof (sampleDepth_published g im d mx my w h Hpub) as Hs.
  change (depthIndex im mx my w h) with index in Hs.
  assert (Hrange : safeDims m -> safeDims im ->
            (0 <= depthX < width im)%Z /\ (0 <= depthY < height im)%Z).
  { intros [Hmw Hmh] Him.
    exact (depthPixel_in_range im mx my w h Hx Hy
             (proj2 Hmw) (proj2 Hmh) Him). }
  split; [|split; [|split; [|split; [|split; [|split]]]]].
  - intros red Hred. rewrite Hs, Hred. reflexivity.
  - intros Hnone. rewrite Hs, Hnone. reflexivity.
  - intros Hw1 Hsmall.
    apply depthCoord_exact_or_below; assumption.
  - intros Hh1 Hsmall.
    apply depthCoord_exact_or_below; assumption.
  - exact Hrange.
  - intros [Hmw Hmh] Him Hwf.
    pose proof (depthIndex_in_bounds im d mx my w h Hx Hy
                  (proj2 Hmw) (proj2 Hmh) Him Hwf) as Hb.
    destruct (js_index_in_bounds d _ Hb) as (red & Hred & Hr).
    change (depthIndex im mx my w h) with index in Hred.
    exists red. split; [exact Hred|]. split; [exact Hr|].
    rewrite Hs, Hred. reflexivity.
  - intros Hm Him Hall.
    destruct (Hrange Hm Him) as [Hdx Hdy].
    pose proof (Hall _ _ Hdx Hdy) as Hred.
    change (js_index d index = Some 255%Z) in Hred.
    rewrite Hs, Hred. f_equal. lra.
Qed.

Lemma allRed_depth4 : allRed depth4 (repeat xff 64) 255.
Proof.
  intros x y Hx Hy.
  change (width depth4) with 4%Z in *. change (height depth4) with 4%Z in *.
  rewrite js_index_repeat by lia. reflexivity.
Qed.

Lemma safeDims_mask8 : safeDims mask8.
Proof. unfold safeDims. simpl. lia. Qed.

Lemma safeDims_depth4 : safeDims depth4.
Proof. unfold safeDims. simpl. lia. Qed.

Lemma depth_sampler_closeness_witness :
  sampleDepth globalsDepth4 7 7 8 8 = Fin 0.
Proof.
  refine (proj2 (proj2 (proj2 (proj2 (proj2 (proj2 (proj1 (proj2
    (depth_sampler_closeness globalsDepth4 mask8 bubble0 7 7 _ _))
    depth4 (repeat xff 64) eq_refl))))))
    safeDims_mask8 safeDims_depth4 allRed_depth4);
    simpl; lia.
Defined.

(** ** C10: every sampled index is inside its buffer *)

Lemma imageWf_mask8 : imageWf mask8 (repeat xff 256).
Proof.
  unfold imageWf. rewrite repeat_length. simpl. lia.
Qed.

Lemma imageWf_depth4 : imageWf depth4 (repeat xff 64).
Proof.
  unfold imageWf. rewrite repeat_length. simpl. lia.
Qed.

(** The alpha read of a draw: inside the buffer, and what the acceptance
    test is computed from. *)
Lemma alpha_read_in_bounds g rnd m maskData c k :
  imageWf m maskData -> randOk rnd ->
  let mx := fst (drawPixel rnd m c k) in
  let my := snd (drawPixel rnd m c k) in
  let index := maskIndex m mx my in
  (0 <= mx <= width m - 1)%Z /\ (0 <= my <= height m - 1)%Z
  /\ (0 <= index + 3 < Z.of_nat (length maskData))%Z
  /\ exists a,
       nth_error maskData (Z.to_nat (index + 3)) = Some a
       /\ isPerson maskData index = (127 <? byte_val a)%Z
       /\ acceptedAt g rnd m maskData c k =
            if invertMask (CONFIG g) then negb (127 <? byte_val a)%Z
            else (127 <? byte_val a)%Z.
Proof.
  intros (Hw & Hh & Hlen) Hrnd mx my index.
  destruct (maskPixel_in_range m (drawX rnd c k) (drawY rnd c k) Hw Hh
              (Hrnd _) (Hrnd _)) as [Hmx Hmy].
  change (fst (maskPixel m (drawX rnd c k) (drawY rnd c k))) with mx in Hmx.
  change (snd (maskPixel m (drawX rnd c k) (drawY rnd c k))) with my in Hmy.
  assert (Hb : (0 <= index + 3 < Z.of_nat (length maskData))%Z).
  { unfold index, maskIndex.
    apply pixel_index_in_bounds with (h := height m); try assumption; lia. }
  split; [lia|]. split; [lia|]. split; [exact Hb|].
  destruct (js_index_stored maskData _ Hb) as (a & Hnth & Hread).
  exists a. split; [exact Hnth|].
  assert (Hp : isPerson maskData index = (127 <? byte_val a)%Z).
  { unfold isPerson. rewrite Hread. reflexivity. }
  split; [exact Hp|].
  unfold acceptedAt, shouldSpawn.
  change (maskPixel m (drawX rnd c k) (drawY rnd c k))
    with (drawPixel rnd m c k).
  destruct (drawPixel rnd m c k) as [px py] eqn:Hpx.
  change (isPerson maskData (maskIndex m px py))
    with (isPerson maskData index).
  rewrite Hp. reflexivity.
Qed.

(** C10.  For a published mask with [width >= 1], [height >= 1] and a
    buffer of at least [4 * width * height] bytes, every pair of draws of
    the sampling loop is mapped to [mx] in [0, width - 1] and [my] in
    [0, height - 1]; the alpha read at index [(my * width + mx) * 4 + 3] is
    inside the buffer, and the byte stored there is what [isPerson] and the
    acceptance are computed from, so that the loop succeeds exactly when
    one of its 200 pairs reads an accepted alpha; the bounds on [mx] and
    [my] also hold when the products of lines 685-686 are rounded to
    binary64, for draws that are binary64 numbers.  Likewise, for a depth
    image of at least [4 * depthW * depthH] bytes, the red-channel read of
    the depth sampler for a mask pixel is inside the depth buffer, and the
    byte stored there is what the closeness is computed from.  Where
    rounding is involved the buffers are taken to be arrays, of fewer than
    [2^53] elements, so that numbers hold the dimensions exactly. *)
Theorem sampled_indices_within_buffers :
  forall g rnd m maskData,
    publishedMask g = Some (m, maskData) ->
    imageWf m maskData -> randOk rnd ->
    (forall c k,
        let mx := fst (drawPixel rnd m c k) in
        let my := snd (drawPixel rnd m c k) in
        let index := maskIndex m mx my in
        (0 <= mx <= width m - 1)%Z /\ (0 <= my <= height m - 1)%Z
        /\ index = ((my * width m + mx) * 4)%Z
        /\ (0 <= index + 3 < Z.of_nat (length maskData))%Z
        /\ exists a,
             nth_error maskData (Z.to_nat (index + 3)) = Some a
             /\ isPerson maskData index = (127 <? byte_val a)%Z
             /\ acceptedAt g rnd m maskData c k =
                  if invertMask (CONFIG g) then negb (127 <? byte_val a)%Z
                  else (127 <? byte_val a)%Z)
    /\ (spawnOnBody (CONFIG g) = true ->
        forall c b,
          fst (fst (respawnPlace g rnd c b)) = true <->
          exists k a,
            (k < 200)%nat
            /\ nth_error maskData
                 (Z.to_nat (maskIndex m (fst (drawPixel rnd m (S c) k))
                                        (snd (drawPixel rnd m (S c) k)) + 3))
               = Some a
            /\ (if invertMask (CONFIG g) then negb (127 <? byte_val a)%Z
                else (127 <? byte_val a)%Z) = true)
    /\ (jsArray maskData ->
        forall rx ry,
          0 <= rx <= 1 - bpow (-53) -> 0 <= ry <= 1 - bpow (-53) ->
          (0 <= Zfloor (round64 (rx * IZR (width m))) <= width m - 1)%Z
          /\ (0 <= Zfloor (round64 (ry * IZR (height m)))
              <= height m - 1)%Z)
    /\ (forall im depthData mx my,
          publishedDepth g = Some (im, depthData) ->
          imageWf im depthData ->
          jsArray maskData -> jsArray depthData ->
          (0 <= mx < width m)%Z -> (0 <= my < height m)%Z ->
          let depthX := fst (depthPixel im mx my (width m) (height m)) in
          let depthY := snd (depthPixel im mx my (width m) (height m)) in
          let index := depthIndex im mx my (width m) (height m) in
          (0 <= depthX <= width im - 1)%Z /\ (0 <= depthY <= height im - 1)%Z
          /\ index = ((depthY * width im + depthX) * 4)%Z
          /\ (0 <= index < Z.of_nat (length depthData))%Z
          /\ exists v,
               nth_error depthData (Z.to_nat index) = Some v
               /\ sampleDepth g mx my (width m) (height m) =
                    Fin (1 - IZR (byte_val v) / 255)).
Proof.
  intros g rnd m maskData Hpub Hwf Hrnd.
  split; [|split; [|split]].
  - intros c k mx my index.
    destruct (alpha_read_in_bounds g rnd m maskData c k Hwf Hrnd)
      as (Hmx & Hmy & Hb & Ha).
    split; [exact Hmx|]. split; [exact Hmy|]. split; [reflexivity|].
    split; [exact Hb|exact Ha].
  - intros Hbody c b.
    assert (Hd : data m = Some maskData).
    { unfold publishedMask in Hpub.
      destruct (segmentationResult g) as [seg|]; [|discriminate].
      destruct (mask seg) as [m'|]; [|discriminate].
      destruct (data m') as [d'|] eqn:Hd; [|discriminate].
      injection Hpub as -> ->. exact Hd. }
    assert (Hplace : respawnPlace g rnd c b = spawnLoop g rnd m 200 (S c) b).
    { unfold respawnPlace. rewrite Hbody. unfold publishedMask in Hpub.
      destruct (segmentationResult g) as [seg|]; [|discriminate].
      destruct (mask seg) as [m'|]; [|discriminate].
      destruct (data m') as [d'|]; [|discriminate].
      injection Hpub as -> _. reflexivity. }
    rewrite Hplace.
    destruct (spawnLoop_first_accepted g rnd m maskData Hd 200 (S c) b)
      as [(k & Hk & _ & Hok & Heq)|[Hrej Heq]]; rewrite Heq; cbn [fst].
    + split; [intros _|reflexivity].
      destruct (alpha_read_in_bounds g rnd m maskData (S c) k Hwf Hrnd)
        as (_ & _ & _ & a & Hnth & _ & Hacc).
      exists k, a. split; [exact Hk|]. split; [exact Hnth|].
      rewrite <- Hacc. exact Hok.
    + split; [discriminate|].
      intros (k & a & Hk & Hnth & Hok).
      destruct (alpha_read_in_bounds g rnd m maskData (S c) k Hwf Hrnd)
        as (_ & _ & _ & a' & Hnth' & _ & Hacc).
      rewrite Hnth in Hnth'. injection Hnth' as <-.
      rewrite (Hrej k Hk) in Hacc. rewrite <- Hacc in Hok. discriminate.
  - intros Hma rx ry Hrx Hry.
    destruct (imageWf_safeDims m maskData Hwf Hma) as [Hmw Hmh].
    pose proof (Zfloor_round64_scaled rx (width m) Hmw Hrx).
    pose proof (Zfloor_round64_scaled ry (height m) Hmh Hry).
    lia.
  - intros im depthData mx my Hdpub Hdwf Hma Hda Hmx Hmy
           depthX depthY index.
    destruct (imageWf_safeDims m maskData Hwf Hma) as [Hmw Hmh].
    pose proof (imageWf_safeDims im depthData Hdwf Hda) as Him.
    destruct (depthPixel_in_range im mx my _ _ Hmx Hmy
                (proj2 Hmw) (proj2 Hmh) Him) as [Hx Hy].
    fold depthX in Hx. fold depthY in Hy.
    pose proof (depthIndex_in_bounds im depthData mx my _ _ Hmx Hmy
                  (proj2 Hmw) (proj2 Hmh) Him Hdwf) as Hb.
    fold index in Hb.
    split; [lia|]. split; [lia|]. split; [reflexivity|].
    split; [exact Hb|].
    destruct (js_index_stored depthData _ Hb) as (v & Hnth & Hread).
    exists v. split; [exact Hnth|].
    rewrite (sampleDepth_published g im depthData mx my _ _ Hdpub).
    fold index. rewrite Hread. reflexivity.
Qed.

Lemma sampled_indices_within_buffers_witness :
  (0 <= maskIndex mask8 (fst (drawPixel rndHalf mask8 1 0))
                        (snd (drawPixel rndHalf mask8 1 0)) + 3
     < Z.of_nat (length (repeat xff 256)))%Z
  /\ (0 <= depthIndex depth4 7 7 8 8 < Z.of_nat (length (repeat xff 64)))%Z.
Proof.
  pose proof (sampled_indices_within_buffers globalsDepth4 rndHalf mask8
                (repeat xff 256) eq_refl imageWf_mask8 randOk_rndHalf)
    as (Hmask & _ & _ & Hdepth).
  split.
  - pose proof (Hmask 1%nat 0%nat) as (_ & _ & _ & Hb & _). exact Hb.
  - pose proof (Hdepth depth4 (repeat xff 64) 7%Z 7%Z eq_refl imageWf_depth4
                  ltac:(unfold jsArray; simpl; lia)
                  ltac:(unfold jsArray; simpl; lia)
                  ltac:(simpl; lia) ltac:(simpl; lia))
      as (_ & _ & _ & Hb & _).
    exact Hb.
Defined.

(** ** What the keypoint interaction leaves alone *)

Lemma interactWithKeypoint_frame g b k :
  userData (interactWithKeypoint g b k) = userData b
  /\ opacity (interactWithKeypoint g b k) = opacity b
  /\ vz (position (interactWithKeypoint g b k)) = vz (position b).
Proof.
  unfold interactWithKeypoint.
  destruct k as [k|]; [|repeat split].
  destruct (Rltb (confidence k) 0.2); [repeat split|].
  destruct (Rltb _ _); repeat split.
Qed.

Lemma forEachKeypoint_frame g kps :
  forall index b,
    userData (forEachKeypoint g kps index b) = userData b
    /\ opacity (forEachKeypoint g kps index b) = opacity b
    /\ vz (position (forEachKeypoint g kps index b)) = vz (position b).
Proof.
  induction kps as [|k kps IH]; intros index b; cbn [forEachKeypoint].
  - repeat split.
  - destruct (IH (index + 1)%Z
                (if ((5 <=? index)%Z && (index <=? 16)%Z)%bool
                 then interactWithKeypoint g b (Some k) else b))
      as (Hu & Ho & Hz).
    rewrite Hu, Ho, Hz.
    destruct ((5 <=? index)%Z && (index <=? 16)%Z)%bool.
    + apply interactWithKeypoint_frame.
    + repeat split.
Qed.

Lemma interactPose_frame g b pose :
  userData (interactPose g b pose) = userData b
  /\ opacity (interactPose g b pose) = opacity b
  /\ vz (position (interactPose g b pose)) = vz (position b).
Proof.
  unfold interactPose.
  destruct (keypoints pose) as [kps|]; [|repeat split].
  pose proof (forEachKeypoint_frame g kps 0%Z b) as (Hu & Ho & Hz).
  destruct (nth_error kps 5) as [s1|]; [|repeat split; assumption].
  destruct (nth_error kps 6) as [s2|]; [|repeat split; assumption].
  destruct (nth_error kps 11) as [h1|]; [|repeat split; assumption].
  destruct (nth_error kps 12) as [h2|]; [|repeat split; assumption].
  destruct (_ && _)%bool; [|repeat split; assumption].
  pose proof (interactWithKeypoint_frame g (forEachKeypoint g kps 0%Z b)
    (Some (mkKeypoint ((kx s1 + kx s2 + kx h1 + kx h2) / 4)
                      ((ky s1 + ky s2 + ky h1 + ky h2) / 4) 1)))
    as (Hu' & Ho' & Hz').
  rewrite Hu', Ho', Hz'. repeat split; assumption.
Qed.

Lemma fold_interactPose_frame g ps :
  forall b,
    userData (fold_left (interactPose g) ps b) = userData b
    /\ opacity (fold_left (interactPose g) ps b) = opacity b
    /\ vz (position (fold_left (interactPose g) ps b)) = vz (position b).
Proof.
  induction ps as [|p ps IH]; intros b; simpl.
  - repeat split.
  - destruct (IH (interactPose g b p)) as (Hu & Ho & Hz).
    rewrite Hu, Ho, Hz. apply interactPose_frame.
Qed.

Lemma interactPoses_frame g b :
  userData (interactPoses g b) = userData b
  /\ opacity (interactPoses g b) = opacity b
  /\ vz (position (interactPoses g b)) = vz (position b).
Proof.
  unfold interactPoses.
  destruct (_ && _)%bool; [apply fold_interactPose_frame|repeat split].
Qed.

(** Without poses, or in body-spawn mode, nothing interacts. *)
Lemma interactPoses_off g b :
  poses g = [] \/ spawnOnBody (CONFIG g) = true ->
  interactPoses g b = b.
Proof.
  unfold interactPoses. intros [Hp|Hm].
  - rewrite Hp. reflexivity.
  - rewrite Hm. rewrite andb_false_r. reflexivity.
Qed.

(** ** Respawns advance the cursor *)

Lemma spawnLoop_cursor g rnd m n :
  forall c b, (c <= snd (fst (spawnLoop g rnd m n c b)))%nat.
Proof.
  induction n as [|n IH]; intros c b.
  - simpl. lia.
  - rewrite spawnLoop_S.
    destruct (data m) as [d|].
    + destruct (shouldSpawn g m d (rnd c) (rnd (S c))).
      * simpl. lia.
      * pose proof (IH (S (S c)) b). lia.
    + pose proof (IH (S (S c)) b). lia.
Qed.

Lemma respawnPlace_cursor g rnd c b :
  (c < snd (fst (respawnPlace g rnd c b)))%nat.
Proof.
  unfold respawnPlace.
  destruct (spawnOnBody (CONFIG g)); [|simpl; lia].
  destruct (segmentationResult g) as [seg|]; [|simpl; lia].
  destruct (mask seg) as [m|]; [|simpl; lia].
  pose proof (spawnLoop_cursor g rnd m 200 (S c) b). lia.
Qed.

Lemma respawnBubble_cursor g rnd now_ms c b :
  (c < fst (respawnBubble g rnd now_ms c b))%nat.
Proof.
  unfold respawnBubble.
  pose proof (respawnPlace_cursor g rnd c b) as Hc.
  destruct (respawnPlace g rnd c b) as [[sp c1] b1]. simpl in Hc.
  destruct sp; simpl; lia.
Qed.

(** ** The shape of a respawn *)

Lemma respawnPlace_spawned g rnd c b :
  fst (fst (respawnPlace g rnd c b)) = true ->
  exists m d k,
    spawnOnBody (CONFIG g) = true
    /\ publishedMask g = Some (m, d)
    /\ (k < 200)%nat
    /\ acceptedAt g rnd m d (S c) k = true
    /\ snd (respawnPlace g rnd c b) =
         spawnAt g m (fst (drawPixel rnd m (S c) k))
                     (snd (drawPixel rnd m (S c) k)) b.
Proof.
  unfold respawnPlace, publishedMask.
  destruct (spawnOnBody (CONFIG g)); [|discriminate].
  destruct (segmentationResult g) as [seg|]; [|discriminate].
  destruct (mask seg) as [m|]; [|discriminate].
  destruct (data m) as [d|] eqn:Hd.
  - destruct (spawnLoop_first_accepted g rnd m d Hd 200 (S c) b)
      as [(k & Hk & _ & Hok & Heq)|[_ Heq]]; rewrite Heq; simpl.
    + intros _. exists m, d, k. repeat split; assumption.
    + discriminate.
  - rewrite (spawnLoop_no_data g rnd m Hd). discriminate.
Qed.

Lemma respawnPlace_failed g rnd c b :
  fst (fst (respawnPlace g rnd c b)) = false ->
  snd (respawnPlace g rnd c b) = b.
Proof.
  unfold respawnPlace.
  destruct (spawnOnBody (CONFIG g)); [|reflexivity].
  destruct (segmentationResult g) as [seg|]; [|reflexivity].
  destruct (mask seg) as [m|]; [|reflexivity].
  destruct (data m) as [d|] eqn:Hd.
  - destruct (spawnLoop_first_accepted g rnd m d Hd 200 (S c) b)
      as [(k & Hk & _ & Hok & Heq)|[_ Heq]]; rewrite Heq; simpl.
    + discriminate.
    + reflexivity.
  - rewrite (spawnLoop_no_data g rnd m Hd). reflexivity.
Qed.

(** A respawn touches [userData] only in [birthTime],
    [lifespanMultiplier] and, through the placement, [depth]; it leaves the
    scale. *)
Lemma respawnBubble_frame g rnd now_ms c b :
  let b1 := snd (respawnPlace g rnd c b) in
  let b' := snd (respawnBubble g rnd now_ms c b) in
  depth (userData b') = depth (userData b1)
  /\ scale b' = scale b1
  /\ initialScale (userData b') = initialScale (userData b1).
Proof.
  unfold respawnBubble.
  destruct (respawnPlace g rnd c b) as [[sp c1] b1].
  destruct sp; simpl; repeat split.
Qed.

Lemma spawnAt_frame g m mx my b :
  scale (spawnAt g m mx my b) = scale b
  /\ initialScale (userData (spawnAt g m mx my b)) = initialScale (userData b)
  /\ lifespanMultiplier (userData (spawnAt g m mx my b)) =
       lifespanMultiplier (userData b).
Proof. repeat split. Qed.

Lemma respawnBubble_scale g rnd now_ms c b :
  scale (snd (respawnBubble g rnd now_ms c b)) = scale b
  /\ initialScale (userData (snd (respawnBubble g rnd now_ms c b))) =
       initialScale (userData b).
Proof.
  destruct (respawnBubble_frame g rnd now_ms c b) as (_ & Hs & Hi).
  rewrite Hs, Hi.
  destruct (fst (fst (respawnPlace g rnd c b))) eqn:Hsp.
  - destruct (respawnPlace_spawned g rnd c b Hsp)
      as (m & d & k & _ & _ & _ & _ & Heq).
    rewrite Heq. split; reflexivity.
  - rewrite (respawnPlace_failed g rnd c b Hsp). split; reflexivity.
Qed.

Lemma respawn_resets_opacity_aux g rnd now_ms c b :
  opacity (snd (respawnBubble g rnd now_ms c b)) = 0.5.
Proof.
  unfold respawnBubble.
  destruct (respawnPlace g rnd c b) as [[sp c1] b1].
  destruct sp; reflexivity.
Qed.

(** ** The shape of a tick *)

Lemma depthScale_frame b :
  userData (depthScale b) = userData b
  /\ position (depthScale b) = position b
  /\ opacity (depthScale b) = opacity b.
Proof.
  unfold depthScale. destruct (depth (userData b)); repeat split.
Qed.

Lemma tickStart_userData g time_ms b :
  userData (tickStart g time_ms b) = userData b.
Proof.
  unfold tickStart.
  destruct (depthScale_frame (drift g (IZR time_ms * 0.001) b)) as (Hu & _).
  rewrite Hu. reflexivity.
Qed.

Lemma animateBubble_unfold g rnd time_ms now_ms c b :
  animateBubble g rnd time_ms now_ms c b =
    let b2 := tickStart g time_ms b in
    let actualLifespan :=
      bubbleLifespan (CONFIG g) * lifespanMultiplier (userData b) in
    let age := IZR time_ms * 0.001 - birthTime (userData b) in
    if Rltb 0 (bubbleLifespan (CONFIG g)) then
      if Rltb actualLifespan age then respawnBubble g rnd now_ms c b2
      else animateTail g rnd now_ms c
             (set_opacity (fadeOpacity (age / actualLifespan)) b2)
    else animateTail g rnd now_ms c b2.
Proof.
  unfold animateBubble. cbv zeta. fold (tickStart g time_ms b).
  rewrite (tickStart_userData g time_ms b). reflexivity.
Qed.

Lemma animateTail_no_respawn g rnd now_ms c b :
  fst (animateTail g rnd now_ms c b) = c ->
  vy (position b) <= visibleHeight g / 2 + 5
  /\ animateTail g rnd now_ms c b = (c, interactPoses g b).
Proof.
  unfold animateTail.
  destruct (Rltb (visibleHeight g / 2 + 5) (vy (position b))) eqn:Hb.
  - pose proof (respawnBubble_cursor g rnd now_ms c b) as Hc.
    destruct (respawnBubble g rnd now_ms c b) as [c1 b1]. simpl in *.
    intros ->. lia.
  - intros _. apply Rltb_false in Hb. split; [exact Hb|reflexivity].
Qed.

Lemma animateTail_in_frame g rnd now_ms c b :
  vy (position b) <= visibleHeight g / 2 + 5 ->
  animateTail g rnd now_ms c b = (c, interactPoses g b).
Proof.
  intros Hb. unfold animateTail.
  apply Rltb_false in Hb. rewrite Hb. reflexivity.
Qed.

(** After the tail of a tick, [userData] is that of its input or of a
    respawn of its input. *)
Lemma animateTail_userData g rnd now_ms c b :
  (fst (animateTail g rnd now_ms c b) = c
   /\ userData (snd (animateTail g rnd now_ms c b)) = userData b
   /\ opacity (snd (animateTail g rnd now_ms c b)) = opacity b)
  \/ (userData (snd (animateTail g rnd now_ms c b)) =
        userData (snd (respawnBubble g rnd now_ms c b))
      /\ opacity (snd (animateTail g rnd now_ms c b)) = 0.5).
Proof.
  unfold animateTail.
  destruct (Rltb (visibleHeight g / 2 + 5) (vy (position b))).
  - right.
    destruct (respawnBubble g rnd now_ms c b) as [c1 b1] eqn:Hr. simpl.
    destruct (interactPoses_frame g b1) as (Hu & Ho & _).
    rewrite Hu, Ho. split; [reflexivity|].
    pose proof (respawn_resets_opacity_aux g rnd now_ms c b) as Hop.
    rewrite Hr in Hop. exact Hop.
  - left. simpl.
    destruct (interactPoses_frame g b) as (Hu & Ho & _).
    repeat split; assumption.
Qed.

(** ** Closeness stays valid *)

Lemma sampleDepth_unit g mx my w h :
  (forall im dd, publishedDepth g = Some (im, dd) ->
                 safeDims im /\ imageWf im dd) ->
  (0 <= mx < w)%Z -> (0 <= my < h)%Z ->
  (w <= 2 ^ 53)%Z -> (h <= 2 ^ 53)%Z ->
  exists v, sampleDepth g mx my w h = Fin v /\ 0 <= v <= 1.
Proof.
  intros Hwf Hx Hy Hw Hh.
  destruct (publishedDepth g) as [[im dd]|] eqn:Hpub.
  - rewrite (sampleDepth_published g im dd mx my w h Hpub).
    destruct (Hwf im dd eq_refl) as [Hsafe Him].
    pose proof (depthIndex_in_bounds im dd mx my w h Hx Hy Hw Hh Hsafe Him)
      as Hb.
    destruct (js_index_in_bounds dd _ Hb) as (red & Hred & Hr0 & Hr1).
    rewrite Hred. exists (1 - IZR red / 255). split; [reflexivity|].
    apply IZR_le in Hr0, Hr1. lra.
  - rewrite (sampleDepth_unpublished g mx my w h Hpub).
    exists 0.5. split; [reflexivity|lra].
Qed.

(** The depth that a respawn leaves: the old one, or the closeness sampled
    at the accepted pixel. *)
Lemma respawnBubble_depth g rnd now_ms c b :
  let spawned := fst (fst (respawnPlace g rnd c b)) in
  let b' := snd (respawnBubble g rnd now_ms c b) in
  (spawned = false /\ depth (userData b') = depth (userData b))
  \/ (spawned = true
      /\ exists m d k,
           publishedMask g = Some (m, d) /\ (k < 200)%nat
           /\ depth (userData b') =
                Some (sampleDepth g (fst (drawPixel rnd m (S c) k))
                                    (snd (drawPixel rnd m (S c) k))
                                    (width m) (height m))).
Proof.
  cbv zeta.
  destruct (respawnBubble_frame g rnd now_ms c b) as (Hd & _ & _).
  rewrite Hd.
  destruct (fst (fst (respawnPlace g rnd c b))) eqn:Hsp.
  - right. split; [reflexivity|].
    destruct (respawnPlace_spawned g rnd c b Hsp)
      as (m & d & k & _ & Hpub & Hk & _ & Heq).
    exists m, d, k. rewrite Heq. repeat split; assumption.
  - left. rewrite (respawnPlace_failed g rnd c b Hsp). split; reflexivity.
Qed.

Lemma respawnBubble_closeness g rnd now_ms c b :
  sensorsWf g -> randOk rnd ->
  fst (fst (respawnPlace g rnd c b)) = true ->
  closenessOk (depth (userData (snd (respawnBubble g rnd now_ms c b)))).
Proof.
  intros [Hm Hdp] Hrnd Hsp.
  destruct (respawnBubble_depth g rnd now_ms c b)
    as [[Hf _]|(_ & m & d & k & Hpub & _ & Heq)].
  - rewrite Hsp in Hf. discriminate.
  - destruct (Hm m d Hpub) as [[Hw Hw'] [Hh Hh']].
    destruct (maskPixel_in_range m (drawX rnd (S c) k) (drawY rnd (S c) k)
                Hw Hh (Hrnd _) (Hrnd _)) as [Hx Hy].
    destruct (sampleDepth_unit g _ _ _ _ Hdp Hx Hy Hw' Hh')
      as (v & Hv & Hr).
    exists v. split; [|exact Hr].
    rewrite Heq. unfold drawPixel. rewrite Hv. reflexivity.
Qed.

(** [userData] after a tick: that of the bubble, or that of a respawn of a
    bubble with the same [userData]. *)
Lemma animateBubble_userData g rnd time_ms now_ms c b :
  let t := animateBubble g rnd time_ms now_ms c b in
  (fst t = c /\ userData (snd t) = userData b)
  \/ (exists bm, userData bm = userData b
        /\ userData (snd t) = userData (snd (respawnBubble g rnd now_ms c bm))
        /\ (c < fst t)%nat).
Proof.
  cbv zeta. rewrite animateBubble_unfold. cbv zeta.
  pose proof (tickStart_userData g time_ms b) as Hu.
  set (b2 := tickStart g time_ms b) in *.
  assert (Htail : forall bx, userData bx = userData b ->
    (fst (animateTail g rnd now_ms c bx) = c
     /\ userData (snd (animateTail g rnd now_ms c bx)) = userData b)
    \/ (exists bm, userData bm = userData b
          /\ userData (snd (animateTail g rnd now_ms c bx)) =
               userData (snd (respawnBubble g rnd now_ms c bm))
          /\ (c < fst (animateTail g rnd now_ms c bx))%nat)).
  { intros bx Hbx. unfold animateTail.
    destruct (Rltb (visibleHeight g / 2 + 5) (vy (position bx))).
    - right. exists bx. split; [exact Hbx|].
      pose proof (respawnBubble_cursor g rnd now_ms c bx) as Hc.
      destruct (respawnBubble g rnd now_ms c bx) as [c1 b1]. simpl in *.
      destruct (interactPoses_frame g b1) as (Hu1 & _).
      split; [exact Hu1|exact Hc].
    - left. simpl. destruct (interactPoses_frame g bx) as (Hu1 & _).
      rewrite Hu1. split; [reflexivity|exact Hbx]. }
  destruct (Rltb 0 (bubbleLifespan (CONFIG g))).
  - destruct (Rltb _ _).
    + right. exists b2. split; [exact Hu|]. split; [reflexivity|].
      apply respawnBubble_cursor.
    + apply Htail. exact Hu.
  - apply Htail. exact Hu.
Qed.

(** On a mask whose pixels all have alpha 255 the placement succeeds. *)
Lemma respawnPlace_allAlpha g rnd c b m d :
  spawnOnBody (CONFIG g) = true ->
  invertMask (CONFIG g) = false ->
  publishedMask g = Some (m, d) ->
  (1 <= width m)%Z -> (1 <= height m)%Z ->
  allAlpha m d 255 -> randOk rnd ->
  fst (fst (respawnPlace g rnd c b)) = true.
Proof.
  intros Hbody Hinv Hpub Hw Hh Hall Hrnd.
  unfold respawnPlace. rewrite Hbody. unfold publishedMask in Hpub.
  destruct (segmentationResult g) as [seg|]; [|discriminate].
  destruct (mask seg) as [m'|]; [|discriminate].
  destruct (data m') as [d'|] eqn:Hd; [|discriminate].
  injection Hpub as -> ->.
  destruct (spawnLoop_first_accepted g rnd m d Hd 200 (S c) b)
    as [(k & _ & _ & _ & Heq)|[Hrej _]].
  - rewrite Heq. reflexivity.
  - assert (H0 : acceptedAt g rnd m d (S c) 0 = true).
    { unfold acceptedAt.
      apply shouldSpawn_allAlpha_255; try assumption; apply Hrnd. }
    rewrite (Hrej 0%nat) in H0 by lia. discriminate.
Qed.

(** ** States a bubble can be in *)

Lemma respawnBubble_multiplier g rnd now_ms c b :
  randOk rnd -> multiplierOk (snd (respawnBubble g rnd now_ms c b)).
Proof.
  intros Hrnd. unfold multiplierOk, respawnBubble.
  destruct (respawnPlace g rnd c b) as [[sp c1] b1].
  destruct sp; simpl.
  - pose proof (Hrnd (S c1)). lra.
  - pose proof (Hrnd (S (S c1))). lra.
Qed.

Lemma createBubble_cases g rnd now_ms respawn_ms i c :
  exists mesh,
    lifespanMultiplier (userData mesh) = 0.5 + rnd (c + 9)%nat * 1.0
    /\ depth (userData mesh) = Some (Fin 0.5)
    /\ (snd (createBubble g rnd now_ms respawn_ms i c) = mesh
        \/ snd (createBubble g rnd now_ms respawn_ms i c) =
             snd (respawnBubble g rnd respawn_ms (c + 10) mesh)).
Proof.
  unfold createBubble. cbv zeta.
  match goal with
  | |- context [respawnBubble g rnd respawn_ms (c + 10) ?x] =>
      exists x
  end.
  split; [reflexivity|]. split; [reflexivity|].
  destruct (spawnOnBody (CONFIG g)); [|left; reflexivity].
  destruct (segmentationResult g) as [seg|]; [|left; reflexivity].
  destruct (mask seg); [right|left]; reflexivity.
Qed.

Lemma reachable_multiplier W b : reachable W b -> multiplierOk b.
Proof.
  induction 1 as [g rnd now_ms respawn_ms i c _ Hrnd
                 |g rnd now_ms c b _ Hrnd _ _
                 |g rnd time_ms now_ms c b _ Hrnd _ IH].
  - destruct (createBubble_cases g rnd now_ms respawn_ms i c)
      as (mesh & Hm & _ & [-> | ->]).
    + unfold multiplierOk. rewrite Hm. pose proof (Hrnd (c + 9)%nat). lra.
    + apply respawnBubble_multiplier. exact Hrnd.
  - apply respawnBubble_multiplier. exact Hrnd.
  - destruct (animateBubble_userData g rnd time_ms now_ms c b)
      as [[_ Hu]|(bm & _ & Hu & _)]; unfold multiplierOk; rewrite Hu.
    + exact IH.
    + apply respawnBubble_multiplier. exact Hrnd.
Qed.

Lemma respawnBubble_closeness_kept g rnd now_ms c b :
  sensorsWf g -> randOk rnd ->
  closenessOk (depth (userData b)) ->
  closenessOk (depth (userData (snd (respawnBubble g rnd now_ms c b)))).
Proof.
  intros Hwf Hrnd Hok.
  destruct (fst (fst (respawnPlace g rnd c b))) eqn:Hsp.
  - apply respawnBubble_closeness; assumption.
  - destruct (respawnBubble_depth g rnd now_ms c b)
      as [[_ Heq]|[Ht _]].
    + rewrite Heq. exact Hok.
    + rewrite Hsp in Ht. discriminate.
Qed.

Lemma reachable_closeness W b :
  (forall g, W g -> sensorsWf g) ->
  reachable W b -> closenessOk (depth (userData b)).
Proof.
  intros HW.
  induction 1 as [g rnd now_ms respawn_ms i c Hg Hrnd
                 |g rnd now_ms c b Hg Hrnd _ IH
                 |g rnd time_ms now_ms c b Hg Hrnd _ IH].
  - destruct (createBubble_cases g rnd now_ms respawn_ms i c)
      as (mesh & _ & Hd & [-> | ->]).
    + exists 0.5. split; [exact Hd|lra].
    + apply respawnBubble_closeness_kept; auto.
      exists 0.5. split; [exact Hd|lra].
  - apply respawnBubble_closeness_kept; auto.
  - destruct (animateBubble_userData g rnd time_ms now_ms c b)
      as [[_ Hu]|(bm & Hbm & Hu & _)]; rewrite Hu.
    + exact IH.
    + apply respawnBubble_closeness_kept; auto. rewrite Hbm. exact IH.
Qed.

(** The pool keeps its size, and every bubble of it stays reachable. *)
Lemma createLoop_reachable W g rnd now_ms respawn_ms :
  W g -> randOk rnd ->
  forall n i c,
    Forall (reachable W) (snd (createLoop g rnd now_ms respawn_ms n i c))
    /\ length (snd (createLoop g rnd now_ms respawn_ms n i c)) = n.
Proof.
  intros Hg Hrnd n. induction n as [|n IH]; intros i c.
  - split; [constructor|reflexivity].
  - cbn [createLoop].
    pose proof (reach_create W g rnd (now_ms i) (respawn_ms i) i c Hg Hrnd)
      as Hmesh.
    destruct (createBubble g rnd (now_ms i) (respawn_ms i) i c) as [c1 mesh].
    destruct (IH (i + 1)%Z c1) as [Hall Hlen].
    destruct (createLoop g rnd now_ms respawn_ms n (i + 1)%Z c1) as [c2 rest].
    simpl in *. split; [constructor; assumption|congruence].
Qed.

Lemma animateFrom_reachable W g rnd time_ms now_ms :
  W g -> randOk rnd ->
  forall bubbles i c,
    Forall (reachable W) bubbles ->
    Forall (reachable W) (snd (animateFrom g rnd time_ms now_ms i c bubbles))
    /\ length (snd (animateFrom g rnd time_ms now_ms i c bubbles)) =
         length bubbles.
Proof.
  intros Hg Hrnd bubbles.
  induction bubbles as [|b rest IH]; intros i c Hall.
  - split; [constructor|reflexivity].
  - cbn [animateFrom]. inversion Hall as [|? ? Hb Hrest]; subst.
    pose proof (reach_tick W g rnd time_ms (now_ms i) c b Hg Hrnd Hb) as Hb'.
    destruct (animateBubble g rnd time_ms (now_ms i) c b) as [c1 b'].
    destruct (IH (S i) c1 Hrest) as [Hall' Hlen].
    destruct (animateFrom g rnd time_ms now_ms (S i) c1 rest) as [c2 rest'].
    simpl in *. split; [constructor; assumption|congruence].
Qed.

(** ** C9: who writes [userData.depth] *)

(** The pair of draws whose pixel a successful respawn samples the depth
    for is the first accepted one. *)
Lemma respawnBubble_depth_first g rnd now_ms c b :
  fst (fst (respawnPlace g rnd c b)) = true ->
  exists m d k,
    publishedMask g = Some (m, d) /\ (k < 200)%nat
    /\ acceptedAt g rnd m d (S c) k = true
    /\ (forall j, (j < k)%nat -> acceptedAt g rnd m d (S c) j = false)
    /\ depth (userData (snd (respawnBubble g rnd now_ms c b))) =
         Some (sampleDepth g (fst (drawPixel rnd m (S c) k))
                             (snd (drawPixel rnd m (S c) k))
                             (width m) (height m)).
Proof.
  destruct (respawnBubble_frame g rnd now_ms c b) as (Hd & _ & _).
  rewrite Hd. unfold respawnPlace, publishedMask.
  destruct (spawnOnBody (CONFIG g)); [|discriminate].
  destruct (segmentationResult g) as [seg|]; [|discriminate].
  destruct (mask seg) as [m|]; [|discriminate].
  destruct (data m) as [d|] eqn:Hdata.
  - destruct (spawnLoop_first_accepted g rnd m d Hdata 200 (S c) b)
      as [(k & Hk & Hrej & Hok & Heq)|[_ Heq]]; rewrite Heq; simpl.
    + intros _. exists m, d, k. repeat split; assumption.
    + discriminate.
  - rewrite (spawnLoop_no_data g rnd m Hdata). discriminate.
Qed.

Lemma sampleDepth_empty_buffer g im mx my w h :
  publishedDepth g = Some (im, []) -> sampleDepth g mx my w h = NaN.
Proof.
  intros Hpub. rewrite (sampleDepth_published g im [] mx my w h Hpub).
  unfold js_index. destruct (_ <? 0)%Z; [reflexivity|].
  destruct (Z.to_nat _); reflexivity.
Qed.

(** The closeness that a spawn onto a mask pixel stores is not in [0, 1]
    whatever the snapshots: with the all-255 mask and a depth image whose
    buffer is empty, the respawn takes the mask branch and stores [NaN]. *)
Lemma depth_written_only_by_mask_spawn_counterexample :
  fst (fst (respawnPlace globalsDepthEmpty rndZero 0 bubble0)) = true
  /\ depth (userData (snd (respawnBubble globalsDepthEmpty rndZero 0 0
                             bubble0))) = Some NaN
  /\ ~ closenessOk
         (depth (userData (snd (respawnBubble globalsDepthEmpty rndZero 0 0
                                  bubble0)))).
Proof.
  assert (Hsp : fst (fst (respawnPlace globalsDepthEmpty rndZero 0 bubble0))
                = true).
  { apply (respawnPlace_allAlpha globalsDepthEmpty rndZero 0%nat bubble0
             mask8 (repeat xff 256)); try reflexivity; try (simpl; lia);
      [exact allAlpha_mask8|exact randOk_rndZero]. }
  assert (Hnan : depth (userData (snd (respawnBubble globalsDepthEmpty
                                         rndZero 0 0 bubble0))) = Some NaN).
  { destruct (respawnBubble_depth_first globalsDepthEmpty rndZero 0%Z 0%nat
                bubble0 Hsp) as (m & d & k & _ & _ & _ & _ & Heq).
    rewrite Heq.
    rewrite (sampleDepth_empty_buffer globalsDepthEmpty
               (mkImageBuf 4 4 (Some []))) by reflexivity.
    reflexivity. }
  split; [exact Hsp|]. split; [exact Hnan|].
  rewrite Hnan. intros (v & Hv & _). discriminate.
Qed.

(** C9.  [userData.depth] is written only by a spawn onto a mask
    pixel, which stores the closeness sampled for the pixel of the first
    accepted pair of draws: a value in [0, 1] when the published snapshots
    are well formed (dimensions of at least one pixel that a number holds
    exactly, a depth buffer of four channels for every pixel), and [NaN]
    when the sampled index is outside the depth buffer.  A fallback respawn
    and a tick without respawn leave it unchanged; a tick changes it only
    through such a spawn; a defined depth never becomes undefined, and
    under well-formed snapshots every reachable bubble holds a closeness
    in [0, 1]. *)
Theorem depth_written_only_by_mask_spawn :
  forall g rnd time_ms now_ms c b,
    let spawned := fst (fst (respawnPlace g rnd c b)) in
    let b' := snd (respawnBubble g rnd now_ms c b) in
    let t := animateBubble g rnd time_ms now_ms c b in
    (spawned = false -> depth (userData b') = depth (userData b))
    /\ (spawned = true ->
        exists m d k,
          publishedMask g = Some (m, d) /\ (k < 200)%nat
          /\ acceptedAt g rnd m d (S c) k = true
          /\ (forall j, (j < k)%nat -> acceptedAt g rnd m d (S c) j = false)
          /\ depth (userData b') =
               Some (sampleDepth g (fst (drawPixel rnd m (S c) k))
                                   (snd (drawPixel rnd m (S c) k))
                                   (width m) (height m))
          /\ (forall im dd,
                publishedDepth g = Some (im, dd) ->
                (Z.of_nat (length dd)
                 <= depthIndex im (fst (drawPixel rnd m (S c) k))
                                  (snd (drawPixel rnd m (S c) k))
                                  (width m) (height m))%Z ->
                depth (userData b') = Some NaN))
    /\ (spawned = true -> sensorsWf g -> randOk rnd ->
        closenessOk (depth (userData b')))
    /\ (fst t = c -> depth (userData (snd t)) = depth (userData b))
    /\ (depth (userData (snd t)) = depth (userData b)
        \/ exists bm,
             userData bm = userData b
             /\ fst (fst (respawnPlace g rnd c bm)) = true
             /\ depth (userData (snd t)) =
                  depth (userData (snd (respawnBubble g rnd now_ms c bm))))
    /\ (depth (userData b) <> None ->
        depth (userData b') <> None /\ depth (userData (snd t)) <> None)
    /\ (forall W r, (forall g0, W g0 -> sensorsWf g0) ->
                    reachable W r -> closenessOk (depth (userData r))).
Proof.
  intros g rnd time_ms now_ms c b spawned b' t.
  assert (Hresp : forall bm,
    depth (userData bm) <> None ->
    depth (userData (snd (respawnBubble g rnd now_ms c bm))) <> None).
  { intros bm Hbm.
    destruct (respawnBubble_depth g rnd now_ms c bm)
      as [[_ Heq]|(_ & m & d & k & _ & _ & Heq)]; rewrite Heq.
    - exact Hbm.
    - discriminate. }
  assert (Htick :
    depth (userData (snd t)) = depth (userData b)
    \/ exists bm,
         userData bm = userData b
         /\ fst (fst (respawnPlace g rnd c bm)) = true
         /\ depth (userData (snd t)) =
              depth (userData (snd (respawnBubble g rnd now_ms c bm)))).
  { destruct (animateBubble_userData g rnd time_ms now_ms c b)
      as [[_ Hu]|(bm & Hbm & Hu & _)]; fold t in Hu.
    - left. rewrite Hu. reflexivity.
    - destruct (respawnBubble_depth g rnd now_ms c bm)
        as [[_ Heq]|(Hsp & _)].
      + left. rewrite Hu, Heq, Hbm. reflexivity.
      + right. exists bm. rewrite Hu. repeat split; assumption. }
  split; [|split; [|split; [|split; [|split; [|split]]]]].
  - intros Hsp.
    destruct (respawnBubble_depth g rnd now_ms c b) as [[_ Heq]|[Ht _]].
    + exact Heq.
    + fold spawned in Ht. rewrite Hsp in Ht. discriminate.
  - intros Hsp.
    destruct (respawnBubble_depth_first g rnd now_ms c b Hsp)
      as (m & d & k & Hpub & Hk & Hok & Hrej & Heq).
    exists m, d, k. fold b' in Heq.
    split; [exact Hpub|]. split; [exact Hk|]. split; [exact Hok|].
    split; [exact Hrej|]. split; [exact Heq|].
    intros im dd Hdpub Hshort. rewrite Heq.
    rewrite (sampleDepth_published g im dd _ _ _ _ Hdpub).
    rewrite (js_index_beyond dd _ Hshort). reflexivity.
  - intros Hsp Hwf Hrnd. apply respawnBubble_closeness; assumption.
  - intros Hc.
    destruct (animateBubble_userData g rnd time_ms now_ms c b)
      as [[_ Hu]|(bm & _ & _ & Hlt)].
    + fold t in Hu. rewrite Hu. reflexivity.
    + fold t in Hlt. lia.
  - exact Htick.
  - intros Hdef. split.
    + apply Hresp. exact Hdef.
    + destruct Htick as [Heq|(bm & Hbm & _ & Heq)]; rewrite Heq.
      * exact Hdef.
      * apply Hresp. rewrite Hbm. exact Hdef.
  - intros W r HW Hr. exact (reachable_closeness W r HW Hr).
Qed.

Lemma sensorsWf_globalsDepth4 : sensorsWf globalsDepth4.
Proof.
  split.
  - intros m d Hpub. injection Hpub as <- _. exact safeDims_mask8.
  - intros im dd Hpub. injection Hpub as <- <-.
    split; [exact safeDims_depth4|exact imageWf_depth4].
Qed.

Lemma depth_written_only_by_mask_spawn_witness :
  depth (userData (snd (respawnBubble globalsNoSensor rndZero 0 0 bubble0))) =
    depth (userData bubble0)
  /\ closenessOk
       (depth (userData (snd (respawnBubble globalsDepth4 rndZero 0 0
                                bubble0))))
  /\ closenessOk
       (depth (userData
          (snd (createBubble globalsDepth4 rndZero 0 0 0 0)))).
Proof.
  pose proof (depth_written_only_by_mask_spawn globalsNoSensor rndZero
                0%Z 0%Z 0%nat bubble0)
    as (Hfall & _ & _ & _ & _ & _ & Hreach).
  pose proof (depth_written_only_by_mask_spawn globalsDepth4 rndZero
                0%Z 0%Z 0%nat bubble0)
    as (_ & _ & Hmask & _).
  split; [|split].
  - exact (Hfall eq_refl).
  - apply Hmask.
    + apply (respawnPlace_allAlpha globalsDepth4 rndZero 0%nat bubble0
               mask8 (repeat xff 256)); try reflexivity;
        try (simpl; lia);
        [exact allAlpha_mask8|exact randOk_rndZero].
    + exact sensorsWf_globalsDepth4.
    + exact randOk_rndZero.
  - apply (Hreach (fun g => g = globalsDepth4)).
    + intros g0 ->. exact sensorsWf_globalsDepth4.
    + apply reach_create; [reflexivity|exact randOk_rndZero].
Defined.

(** ** C6: the effective lifespan *)

(** C6.  In a tick, a bubble is respawned for its age exactly when the
    global lifespan is positive and the age exceeds the global lifespan
    times the bubble's [lifespanMultiplier]; that multiplier lies in
    [0.5, 1.5) for every reachable bubble, hence for every bubble of the
    pool after every [animate]; and with a global lifespan of 0 the
    lifespan block is skipped, so a bubble inside the frame is not
    respawned whatever its age. *)
Theorem effective_lifespan_and_infinite_life :
  forall g rnd time_ms now_ms c b,
    let L := bubbleLifespan (CONFIG g) in
    let effectiveLifespan := L * lifespanMultiplier (userData b) in
    let age := IZR time_ms * 0.001 - birthTime (userData b) in
    let b2 := tickStart g time_ms b in
    let t := animateBubble g rnd time_ms now_ms c b in
    (forall W, reachable W b ->
               0.5 <= lifespanMultiplier (userData b) < 1.5)
    /\ (forall W now_of pool,
          W g -> randOk rnd -> Forall (reachable W) pool ->
          Forall multiplierOk (snd (animate g rnd time_ms now_of c pool)))
    /\ (0 < L -> effectiveLifespan < age ->
        t = respawnBubble g rnd now_ms c b2)
    /\ (0 < L -> age <= effectiveLifespan ->
        exists o, t = animateTail g rnd now_ms c (set_opacity o b2))
    /\ (L = 0 ->
        t = animateTail g rnd now_ms c b2
        /\ (vy (position b2) <= visibleHeight g / 2 + 5 ->
            fst t = c
            /\ birthTime (userData (snd t)) = birthTime (userData b)
            /\ lifespanMultiplier (userData (snd t)) =
                 lifespanMultiplier (userData b))).
Proof.
  intros g rnd time_ms now_ms c b L eff age b2 t.
  pose proof (animateBubble_unfold g rnd time_ms now_ms c b) as Hun.
  cbv zeta in Hun. fold L eff age b2 t in Hun.
  assert (Hzero : L = 0 -> Rltb 0 L = false).
  { intros ->. apply Rltb_false. lra. }
  split; [|split; [|split; [|split]]].
  - intros W Hr. exact (reachable_multiplier W b Hr).
  - intros W now_of pool Hg Hrnd Hpool.
    destruct (animateFrom_reachable W g rnd time_ms now_of Hg Hrnd pool
                0%nat c Hpool) as [Hall _].
    apply (Forall_impl _ (reachable_multiplier W) Hall).
  - intros HL Hage. rewrite Hun.
    apply Rltb_true in HL. apply Rltb_true in Hage.
    rewrite HL, Hage. reflexivity.
  - intros HL Hage. rewrite Hun.
    apply Rltb_true in HL. apply Rltb_false in Hage.
    rewrite HL, Hage. eexists. reflexivity.
  - intros HL. rewrite Hun, (Hzero HL). split; [reflexivity|].
    intros Hin. rewrite (animateTail_in_frame g rnd now_ms c b2 Hin).
    simpl fst. simpl snd. destruct (interactPoses_frame g b2) as (Hu & _).
    rewrite Hu. unfold b2. rewrite tickStart_userData.
    repeat split.
Qed.

Lemma effective_lifespan_and_infinite_life_witness :
  animateBubble globalsForever rndZero 99000 99000 0 bubble0 =
    animateTail globalsForever rndZero 99000 0
      (tickStart globalsForever 99000 bubble0)
  /\ animateBubble globalsMask8 rndZero 9000 9000 0 bubble0 =
       respawnBubble globalsMask8 rndZero 9000 0
         (tickStart globalsMask8 9000 bubble0)
  /\ 0.5 <= lifespanMultiplier
              (userData (snd (createBubble globalsForever rndZero 0 0 0 0)))
         < 1.5.
Proof.
  split; [|split].
  - exact (proj1 (proj2 (proj2 (proj2 (proj2
      (effective_lifespan_and_infinite_life globalsForever rndZero
         99000%Z 99000%Z 0%nat bubble0)))) eq_refl)).
  - apply (proj1 (proj2 (proj2
      (effective_lifespan_and_infinite_life globalsMask8 rndZero
         9000%Z 9000%Z 0%nat bubble0)))); simpl; lra.
  - apply (proj1 (effective_lifespan_and_infinite_life globalsForever rndZero
         0%Z 0%Z 0%nat (snd (createBubble globalsForever rndZero 0 0 0 0)))
         (fun _ => True)).
    apply reach_create; [exact I|exact randOk_rndZero].
Defined.

(** ** C7: the fade *)

Lemma round64_half : round64 0.5 = 0.5.
Proof.
  pose proof (round64_repr 1 (-1) ltac:(lia) ltac:(simpl; lia)) as H.
  simpl in H. replace 0.5 with (1 * / 2) by lra. exact H.
Qed.

Lemma round64_1 : round64 1 = 1.
Proof. exact (round64_IZR 1 ltac:(simpl; lia)). Qed.

Lemma round64_le_1 (x : R) : x <= 1 -> round64 x <= 1.
Proof.
  intros Hx. rewrite <- round64_1. apply round64_le. exact Hx.
Qed.

Lemma fadeOpacity_early (x : R) : x <= 0.8 -> fadeOpacity x = 0.5.
Proof.
  intros Hx. unfold fadeOpacity.
  assert (H : Rltb (round64 0.8) x = false).
  { apply Rltb_false. rewrite round64_0_8. simpl. lra. }
  rewrite H. reflexivity.
Qed.

Lemma fadeOpacity_late (x : R) :
  round64 0.8 < x ->
  fadeOpacity x =
    round64 (0.5 * round64
      (1 - round64 (round64 (x - round64 0.8) / round64 0.2))).
Proof.
  intros Hx. unfold fadeOpacity. apply Rltb_true in Hx. rewrite Hx.
  reflexivity.
Qed.

Lemma fadeProgress_le (x y : R) :
  x <= y -> fadeProgress x <= fadeProgress y.
Proof.
  intros Hxy. unfold fadeProgress. apply round64_le.
  assert (H2 : 0 < round64 0.2) by (rewrite round64_0_2; simpl; lra).
  apply Rmult_le_compat_r; [left; apply Rinv_0_lt_compat; exact H2|].
  apply round64_le. lra.
Qed.

Lemma fadeProgress_nonneg (x : R) :
  round64 0.8 <= x -> 0 <= fadeProgress x.
Proof.
  intros Hx. unfold fadeProgress. apply round64_nonneg.
  assert (H2 : 0 < round64 0.2) by (rewrite round64_0_2; simpl; lra).
  apply Rmult_le_pos; [|left; apply Rinv_0_lt_compat; exact H2].
  apply round64_nonneg. lra.
Qed.

Lemma fadeProgress_1 : fadeProgress 1 = 1 - bpow (-52).
Proof.
  unfold fadeProgress.
  assert (Ha : round64 (1 - round64 0.8) = 900719925474099 * bpow (-52)).
  { rewrite round64_0_8.
    replace (1 - 7205759403792794 * bpow (-53))
      with (IZR 900719925474099 * bpow (-52)) by (simpl; lra).
    apply round64_repr; [lia|simpl; lia]. }
  rewrite Ha, round64_0_2.
  replace (1 - bpow (-52)) with (IZR 9007199254740990 * bpow (-53))
    by (simpl; lra).
  apply round64_at.
  - apply ulpExp_unique; [lia|]. simpl.
    rewrite Rabs_pos_eq by lra. lra.
  - simpl. apply Rabs_def1; lra.
Qed.

Lemma fadeOpacity_1 : fadeOpacity 1 = bpow (-53).
Proof.
  rewrite fadeOpacity_late by (rewrite round64_0_8; simpl; lra).
  fold (fadeProgress 1). rewrite fadeProgress_1.
  replace (1 - (1 - bpow (-52))) with (IZR 1 * bpow (-52)) by (simpl; lra).
  rewrite round64_repr by (simpl; lia).
  replace (0.5 * (IZR 1 * bpow (-52))) with (IZR 1 * bpow (-53))
    by (simpl; lra).
  rewrite round64_repr by (simpl; lia). lra.
Qed.

Lemma fadeOpacity_le_half (x : R) : fadeOpacity x <= 0.5.
Proof.
  unfold fadeOpacity.
  destruct (Rltb (round64 0.8) x) eqn:Hx; [|lra].
  apply Rltb_true in Hx. cbv zeta. fold (fadeProgress x).
  pose proof (fadeProgress_nonneg x ltac:(lra)) as Hp.
  rewrite <- round64_half at 2. apply round64_le.
  assert (H : round64 (1 - fadeProgress x) <= 1).
  { apply round64_le_1. lra. }
  lra.
Qed.

Lemma fadeOpacity_antitone (x y : R) :
  x <= y -> fadeOpacity y <= fadeOpacity x.
Proof.
  intros Hxy.
  destruct (Rle_dec x (round64 0.8)) as [Hx|Hx].
  - assert (H : fadeOpacity x = 0.5).
    { unfold fadeOpacity. apply Rltb_false in Hx. rewrite Hx. reflexivity. }
    rewrite H. apply fadeOpacity_le_half.
  - rewrite (fadeOpacity_late x), (fadeOpacity_late y) by lra.
    fold (fadeProgress x). fold (fadeProgress y).
    pose proof (fadeProgress_le x y Hxy) as Hp.
    apply round64_le.
    assert (H : round64 (1 - fadeProgress y) <= round64 (1 - fadeProgress x)).
    { apply round64_le. lra. }
    lra.
Qed.

Lemma fadeOpacity_positive (x : R) :
  x <= 1 -> bpow (-53) <= fadeOpacity x <= 0.5.
Proof.
  intros Hx. split; [|apply fadeOpacity_le_half].
  rewrite <- fadeOpacity_1. apply fadeOpacity_antitone. exact Hx.
Qed.

Lemma fadeOpacity_near_ramp (x : R) :
  0.8 < x <= 1 ->
  Rabs (fadeOpacity x - 0.5 * (1 - (x - 0.8) / 0.2)) <= bpow (-50).
Proof.
  intros [Hx0 Hx1].
  destruct (Rle_dec x (round64 0.8)) as [Hx|Hx].
  - assert (H : fadeOpacity x = 0.5).
    { unfold fadeOpacity. apply Rltb_false in Hx. rewrite Hx. reflexivity. }
    rewrite H. rewrite round64_0_8 in Hx. simpl in *.
    apply Rabs_le. lra.
  - assert (Hx' : round64 0.8 < x) by lra.
    rewrite (fadeOpacity_late x Hx').
    pose proof round64_0_8 as H8. pose proof round64_0_2 as H2.
    set (c8 := round64 0.8) in *. set (c2 := round64 0.2) in *.
    (* x - 0.8 *)
    assert (Ha : Rabs (x - c8) <= bpow (-2)).
    { rewrite Rabs_pos_eq by lra. rewrite H8. simpl. lra. }
    pose proof (round64_error_below (x - c8) (-2) ltac:(lia) Ha) as Ea.
    apply Rabs_le_inv in Ea.
    assert (Ha1 : round64 (x - c8) <= 900719925474099 * bpow (-52)).
    { apply round64_le_grid.
      - assert (Hn : x - c8 <> 0) by lra.
        pose proof (ulpExp_below (x - c8) (-2) Hn) as Hu.
        rewrite Rabs_pos_eq in Hu by lra.
        assert (x - c8 < bpow (-2)) by (rewrite H8; simpl; lra).
        specialize (Hu H). lia.
      - rewrite H8. simpl. lra. }
    pose proof (round64_nonneg (x - c8) ltac:(lra)) as Ha0.
    set (a := round64 (x - c8)) in *.
    (* / 0.2 *)
    assert (Hc2 : 0 < c2) by (rewrite H2; simpl; lra).
    assert (Hd0 : 0 <= a / c2).
    { apply Rmult_le_pos; [exact Ha0|]. left. apply Rinv_0_lt_compat.
      exact Hc2. }
    assert (Hd1 : a / c2 <= 1).
    { apply (Rmult_le_reg_r c2); [exact Hc2|].
      unfold Rdiv. rewrite Rmult_assoc, Rinv_l by lra.
      rewrite H2. simpl in *. lra. }
    assert (Hdv : a / c2 * c2 = a).
    { unfold Rdiv. rewrite Rmult_assoc, Rinv_l by lra. ring. }
    assert (Hd : Rabs (a / c2) <= bpow 0).
    { rewrite Rabs_pos_eq by lra. simpl. lra. }
    pose proof (round64_error_below (a / c2) 0 ltac:(lia) Hd) as Ed.
    apply Rabs_le_inv in Ed.
    pose proof (round64_nonneg (a / c2) Hd0) as Hp0.
    assert (Hp1 : round64 (a / c2) <= 1).
    { apply round64_le_1. exact Hd1. }
    set (d := a / c2) in *. set (p := round64 d) in *.
    (* 1 - progress *)
    assert (Hs : Rabs (1 - p) <= bpow 0).
    { rewrite Rabs_pos_eq by lra. simpl. lra. }
    pose proof (round64_error_below (1 - p) 0 ltac:(lia) Hs) as Es.
    apply Rabs_le_inv in Es.
    pose proof (round64_nonneg (1 - p) ltac:(lra)) as Hs0.
    assert (Hs1 : round64 (1 - p) <= 1).
    { apply round64_le_1. lra. }
    set (s := round64 (1 - p)) in *.
    (* 0.5 * *)
    assert (Ho : Rabs (0.5 * s) <= bpow (-1)).
    { rewrite Rabs_pos_eq by lra. simpl. lra. }
    pose proof (round64_error_below (0.5 * s) (-1) ltac:(lia) Ho) as Eo.
    apply Rabs_le_inv in Eo.
    set (o := round64 (0.5 * s)) in *.
    (* together *)
    rewrite H2 in Hdv. rewrite H8 in Ea.
    simpl in *. apply Rabs_le. split; lra.
Qed.

Lemma ieee_fade_at_1 :
  SF2R (b64mul (b64div (b64 1) (b64 2))
          (b64sub (b64 1)
             (b64div (b64sub (b64 1) (b64div (b64 4) (b64 5)))
                     (b64div (b64 1) (b64 5))))) = fadeOpacity 1.
Proof.
  rewrite fadeOpacity_1.
  match goal with
  | |- SF2R ?f = _ =>
      assert (H : f = SpecFloat.S754_finite false 4503599627370496 (-105))
        by (vm_compute; reflexivity)
  end.
  rewrite H. simpl. lra.
Qed.

(** The opacity that a tick without respawn leaves. *)
Lemma animateBubble_opacity g rnd time_ms now_ms c b :
  0 < bubbleLifespan (CONFIG g) ->
  let effectiveLifespan :=
    bubbleLifespan (CONFIG g) * lifespanMultiplier (userData b) in
  let age := IZR time_ms * 0.001 - birthTime (userData b) in
  let t := animateBubble g rnd time_ms now_ms c b in
  (fst t = c -> opacity (snd t) = fadeOpacity (age / effectiveLifespan))
  /\ (age <= effectiveLifespan ->
      vy (position (tickStart g time_ms b)) <= visibleHeight g / 2 + 5 ->
      fst t = c).
Proof.
  intros HL eff age t.
  pose proof (animateBubble_unfold g rnd time_ms now_ms c b) as Hun.
  cbv zeta in Hun. fold eff age t in Hun.
  apply Rltb_true in HL. rewrite HL in Hun.
  split.
  - intros Hc. rewrite Hun in Hc |- *.
    destruct (Rltb eff age).
    + pose proof (respawnBubble_cursor g rnd now_ms c
                    (tickStart g time_ms b)). lia.
    + destruct (animateTail_no_respawn g rnd now_ms c _ Hc) as [_ Heq].
      rewrite Heq. simpl snd.
      destruct (interactPoses_frame g
                  (set_opacity (fadeOpacity (age / eff))
                     (tickStart g time_ms b)))
        as (_ & Ho & _).
      rewrite Ho. reflexivity.
  - intros Hage Hin. rewrite Hun.
    apply Rltb_false in Hage. rewrite Hage.
    rewrite animateTail_in_frame; [reflexivity|exact Hin].
Qed.

(** The opacity does not reach 0 at age fraction 1: the bubble born 8
    seconds before time 0 is, at time 0, exactly as old as its effective
    lifespan of 8 seconds; the tick does not respawn it and leaves it an
    opacity of [2^-53]. *)
Lemma fade_opacity_by_age_fraction_counterexample :
  let t := animateBubble globalsMask8 rndZero 0 0 0 bubbleAged in
  (IZR 0 * 0.001 - birthTime (userData bubbleAged))
    / (bubbleLifespan (CONFIG globalsMask8)
       * lifespanMultiplier (userData bubbleAged)) = 1
  /\ fst t = 0%nat
  /\ opacity (snd t) = bpow (-53)
  /\ opacity (snd t) <> 0.
Proof.
  cbv zeta.
  assert (HL : 0 < bubbleLifespan (CONFIG globalsMask8)) by (simpl; lra).
  destruct (animateBubble_opacity globalsMask8 rndZero 0%Z 0%Z 0%nat
              bubbleAged HL) as [Hop Hno].
  assert (Hf : (IZR 0 * 0.001 - birthTime (userData bubbleAged))
               / (bubbleLifespan (CONFIG globalsMask8)
                  * lifespanMultiplier (userData bubbleAged)) = 1).
  { simpl. lra. }
  assert (Hc : fst (animateBubble globalsMask8 rndZero 0 0 0 bubbleAged)
               = 0%nat).
  { apply Hno.
    - simpl. lra.
    - unfold tickStart, depthScale, drift. simpl. lra. }
  assert (Ho : opacity (snd (animateBubble globalsMask8 rndZero 0 0 0
                               bubbleAged)) = bpow (-53)).
  { rewrite (Hop Hc), Hf. exact fadeOpacity_1. }
  split; [exact Hf|]. split; [exact Hc|]. split; [exact Ho|].
  rewrite Ho. pose proof (bpow_pos (-53)). lra.
Qed.

(** C7.  With a positive global lifespan, a bubble (whose
    multiplier is in [0.5, 1.5), as it is for every reachable bubble) that
    is not respawned in a tick ends the tick with opacity [fadeOpacity f],
    where [f] is its age over its effective lifespan, at most 1.  That
    opacity is exactly 0.5 for [f <= 0.8]; for [0.8 < f <= 1] it is the
    binary64 value of [0.5 * (1 - (f - 0.8) / 0.2)], within [2^-50] of the
    exact one; it is non-increasing in [f]; and at [f = 1] it is [2^-53],
    about 1.1e-16, not 0: for [f <= 1] the opacity stays in
    [2^-53, 0.5]. *)
Theorem fade_opacity_by_age_fraction :
  forall g rnd time_ms now_ms c b,
    0 < bubbleLifespan (CONFIG g) ->
    multiplierOk b ->
    let effectiveLifespan :=
      bubbleLifespan (CONFIG g) * lifespanMultiplier (userData b) in
    let age := IZR time_ms * 0.001 - birthTime (userData b) in
    let f := age / effectiveLifespan in
    let t := animateBubble g rnd time_ms now_ms c b in
    (fst t = c -> opacity (snd t) = fadeOpacity f)
    /\ (age <= effectiveLifespan ->
        vy (position (tickStart g time_ms b)) <= visibleHeight g / 2 + 5 ->
        fst t = c)
    /\ (fst t = c -> f <= 1 /\ bpow (-53) <= opacity (snd t) <= 0.5)
    /\ (forall x, x <= 0.8 -> fadeOpacity x = 0.5)
    /\ (forall x, 0.8 < x <= 1 ->
          Rabs (fadeOpacity x - 0.5 * (1 - (x - 0.8) / 0.2)) <= bpow (-50))
    /\ (forall x y, x <= y -> fadeOpacity y <= fadeOpacity x)
    /\ fadeOpacity 1 = bpow (-53)
    /\ (forall x, x <= 1 -> bpow (-53) <= fadeOpacity x <= 0.5).
Proof.
  intros g rnd time_ms now_ms c b HL Hm eff age f t.
  destruct (animateBubble_opacity g rnd time_ms now_ms c b HL) as [Hop Hno].
  fold eff age t in Hop, Hno. fold f in Hop.
  split; [exact Hop|]. split; [exact Hno|].
  split; [|split; [|split; [|split; [|split]]]].
  - intros Hc.
    assert (Hf : f <= 1).
    { pose proof (animateBubble_unfold g rnd time_ms now_ms c b) as Hun.
      cbv zeta in Hun. fold eff age t in Hun.
      pose proof HL as HL'. apply Rltb_true in HL'. rewrite HL' in Hun.
      destruct (Rltb eff age) eqn:Hage.
      - rewrite Hun in Hc.
        pose proof (respawnBubble_cursor g rnd now_ms c
                      (tickStart g time_ms b)). lia.
      - apply Rltb_false in Hage.
        assert (He : 0 < eff).
        { unfold eff. destruct Hm as [Hm _].
          apply Rmult_lt_0_compat; lra. }
        unfold f. apply (Rmult_le_reg_r eff); [exact He|].
        unfold Rdiv. rewrite Rmult_assoc, Rinv_l by lra. lra. }
    split; [exact Hf|]. rewrite (Hop Hc).
    apply fadeOpacity_positive. exact Hf.
  - exact fadeOpacity_early.
  - exact fadeOpacity_near_ramp.
  - exact fadeOpacity_antitone.
  - exact fadeOpacity_1.
  - exact fadeOpacity_positive.
Qed.

Lemma fade_opacity_by_age_fraction_witness :
  opacity (snd (animateBubble globalsMask8 rndZero 7000 7000 0 bubble0)) =
    fadeOpacity ((IZR 7000 * 0.001 - 0) / (8 * 1)).
Proof.
  assert (HL : 0 < bubbleLifespan (CONFIG globalsMask8)) by (simpl; lra).
  assert (Hm : multiplierOk bubble0) by (unfold multiplierOk; simpl; lra).
  pose proof (fade_opacity_by_age_fraction globalsMask8 rndZero 7000%Z 7000%Z
                0%nat bubble0 HL Hm) as (Hop & Hno & _).
  apply Hop. apply Hno.
  - simpl. lra.
  - unfold tickStart, depthScale, drift. simpl. lra.
Defined.

(** ** C8: the depth-driven scale *)

(** C8.  In every tick of a bubble with closeness [d], lines 536-543 set
    the scale to [initialScale * (0.5 + d * 1.5)] on all three axes; a
    respawn later in the tick leaves that scale, and only the keypoint
    interaction, which runs after it outside body-spawn mode, may change
    it before the tick ends.  For [d = 1] the scale is [initialScale * 2.0]
    and for [d = 0] it is [initialScale * 0.5]. *)
Theorem depth_driven_scale :
  forall g rnd time_ms now_ms c b d,
    depth (userData b) = Some (Fin d) ->
    let s := initialScale (userData b) * (0.5 + d * 1.5) in
    let t := animateBubble g rnd time_ms now_ms c b in
    scale (tickStart g time_ms b) = setScalar (Fin s)
    /\ (exists bm, scale bm = setScalar (Fin s)
                   /\ (snd t = bm \/ snd t = interactPoses g bm))
    /\ (poses g = [] \/ spawnOnBody (CONFIG g) = true ->
        scale (snd t) = setScalar (Fin s))
    /\ (d = 1 -> s = initialScale (userData b) * 2.0)
    /\ (d = 0 -> s = initialScale (userData b) * 0.5).
Proof.
  intros g rnd time_ms now_ms c b d Hd s t.
  assert (Hstart : scale (tickStart g time_ms b) = setScalar (Fin s)).
  { unfold tickStart, depthScale.
    change (userData (drift g (IZR time_ms * 0.001) b)) with (userData b).
    rewrite Hd. reflexivity. }
  assert (Hmid : exists bm, scale bm = setScalar (Fin s)
                   /\ (snd t = bm \/ snd t = interactPoses g bm)).
  { pose proof (animateBubble_unfold g rnd time_ms now_ms c b) as Hun.
    cbv zeta in Hun. fold t in Hun.
    assert (Htail : forall bx, scale bx = setScalar (Fin s) ->
      exists bm, scale bm = setScalar (Fin s)
        /\ snd (animateTail g rnd now_ms c bx) = interactPoses g bm).
    { intros bx Hbx. unfold animateTail.
      destruct (Rltb (visibleHeight g / 2 + 5) (vy (position bx))).
      - exists (snd (respawnBubble g rnd now_ms c bx)). split.
        + destruct (respawnBubble_scale g rnd now_ms c bx) as [Hs _].
          rewrite Hs. exact Hbx.
        + destruct (respawnBubble g rnd now_ms c bx). reflexivity.
      - exists bx. split; [exact Hbx|reflexivity]. }
    rewrite Hun.
    destruct (Rltb 0 (bubbleLifespan (CONFIG g))).
    - destruct (Rltb _ _).
      + exists (snd (respawnBubble g rnd now_ms c (tickStart g time_ms b))).
        split; [|left; reflexivity].
        destruct (respawnBubble_scale g rnd now_ms c (tickStart g time_ms b))
          as [Hs _].
        rewrite Hs. exact Hstart.
      + destruct (Htail (set_opacity
                           (fadeOpacity
                              ((IZR time_ms * 0.001 - birthTime (userData b))
                               / (bubbleLifespan (CONFIG g)
                                  * lifespanMultiplier (userData b))))
                           (tickStart g time_ms b)) Hstart)
          as (bm & Hbm & Heq).
        exists bm. split; [exact Hbm|right; exact Heq].
    - destruct (Htail _ Hstart) as (bm & Hbm & Heq).
      exists bm. split; [exact Hbm|right; exact Heq]. }
  split; [exact Hstart|]. split; [exact Hmid|].
  split; [|split].
  - intros Hoff. destruct Hmid as (bm & Hbm & [Heq|Heq]); rewrite Heq.
    + exact Hbm.
    + rewrite (interactPoses_off g bm Hoff). exact Hbm.
  - intros ->. unfold s. lra.
  - intros ->. unfold s. lra.
Qed.

Lemma depth_driven_scale_witness :
  scale (snd (animateBubble globalsMask8 rndZero 7000 7000 0 bubble0)) =
    setScalar (Fin (0.4 * (0.5 + 0.5 * 1.5))).
Proof.
  exact (proj1 (proj2 (proj2
    (depth_driven_scale globalsMask8 rndZero 7000%Z 7000%Z 0%nat bubble0 0.5
       eq_refl))) (or_introl eq_refl)).
Defined.

(** ** Plane geometry of the push *)

Lemma hypot_nonneg x y : 0 <= hypot x y.
Proof. apply sqrt_pos. Qed.

Lemma hypot_sqr x y : hypot x y * hypot x y = x * x + y * y.
Proof. unfold hypot. apply sqrt_sqrt. nra. Qed.

Lemma hypot_pos x y : x <> 0 \/ y <> 0 -> 0 < hypot x y.
Proof.
  intros H. unfold hypot. apply sqrt_lt_R0.
  destruct H as [H|H]; nra.
Qed.

Lemma hypot_zero x y : hypot x y = 0 -> x = 0 /\ y = 0.
Proof.
  intros H. pose proof (hypot_sqr x y) as Hs. rewrite H in Hs.
  split; nra.
Qed.

Lemma hypot_scale (k x y : R) : 0 <= k -> hypot (k * x) (k * y) = k * hypot x y.
Proof.
  intros Hk. unfold hypot.
  replace (k * x * (k * x) + k * y * (k * y))
    with ((k * k) * (x * x + y * y)) by ring.
  rewrite sqrt_mult by nra. rewrite sqrt_square by exact Hk. reflexivity.
Qed.

Lemma sqrt_one_plus_ratio (x y : R) :
  x <> 0 -> sqrt (1 + (y / x)²) = hypot x y / Rabs x.
Proof.
  intros Hx.
  assert (Habs : 0 < Rabs x) by (apply Rabs_pos_lt; exact Hx).
  assert (Hsq : Rabs x * Rabs x = x * x).
  { unfold Rabs. destruct (Rcase_abs x); ring. }
  replace (1 + (y / x)²) with ((x * x + y * y) / (Rabs x * Rabs x)).
  - rewrite sqrt_div by nra. rewrite sqrt_square by lra. reflexivity.
  - rewrite Hsq. unfold Rsqr. field. exact Hx.
Qed.

Lemma cos_sin_atan_ratio (x y : R) :
  x <> 0 ->
  cos (atan (y / x)) = Rabs x / hypot x y
  /\ sin (atan (y / x)) = (y / x) * Rabs x / hypot x y.
Proof.
  intros Hx.
  assert (Habs : 0 < Rabs x) by (apply Rabs_pos_lt; exact Hx).
  assert (Hh : 0 < hypot x y) by (apply hypot_pos; left; exact Hx).
  rewrite cos_atan, sin_atan, sqrt_one_plus_ratio by exact Hx.
  split; field; split; lra.
Qed.

Lemma cos_sin_atan2 (x y : R) :
  x <> 0 \/ y <> 0 ->
  cos (atan2 y x) = x / hypot x y /\ sin (atan2 y x) = y / hypot x y.
Proof.
  intros Hnz.
  assert (Hh : 0 < hypot x y) by (apply hypot_pos; exact Hnz).
  unfold atan2.
  destruct (Rlt_dec 0 x) as [Hpos|Hnpos].
  - destruct (cos_sin_atan_ratio x y) as [Hc Hs]; [lra|].
    rewrite Hc, Hs. rewrite Rabs_right by lra.
    split; field; lra.
  - destruct (Rlt_dec x 0) as [Hneg|Hnneg].
    + destruct (cos_sin_atan_ratio x y) as [Hc Hs]; [lra|].
      rewrite Rabs_left in Hc, Hs by exact Hneg.
      destruct (Rle_dec 0 y).
      * rewrite neg_cos, neg_sin, Hc, Hs. split; field; lra.
      * unfold Rminus.
        rewrite cos_plus, sin_plus, cos_neg, sin_neg, cos_PI, sin_PI, Hc, Hs.
        split; field; lra.
    + assert (Hx0 : x = 0) by lra. subst x.
      assert (Hy : y <> 0) by (destruct Hnz; [lra|assumption]).
      destruct (Rlt_dec 0 y) as [Hyp|Hynp].
      * rewrite cos_PI2, sin_PI2.
        assert (hypot 0 y = y).
        { unfold hypot. replace (0 * 0 + y * y) with (y * y) by ring.
          apply sqrt_square. lra. }
        rewrite H. split; field; lra.
      * destruct (Rlt_dec y 0) as [Hyn|]; [|lra].
        rewrite cos_neg, sin_neg, cos_PI2, sin_PI2.
        assert (hypot 0 y = - y).
        { unfold hypot.
          replace (0 * 0 + y * y) with ((- y) * (- y)) by ring.
          apply sqrt_square. lra. }
        rewrite H. split; field; lra.
Qed.

Lemma atan2_origin : atan2 0 0 = 0.
Proof.
  unfold atan2.
  destruct (Rlt_dec 0 0); [lra|]. reflexivity.
Qed.

(** A step of length [m] along the angle of [(dx, dy)] has length [m] and
    moves the point [m] further from the origin. *)
Lemma push_magnitude (a m : R) :
  0 <= m -> hypot (cos a * m) (sin a * m) = m.
Proof.
  intros Hm.
  replace (cos a * m) with (m * cos a) by ring.
  replace (sin a * m) with (m * sin a) by ring.
  rewrite hypot_scale by exact Hm.
  unfold hypot.
  replace (cos a * cos a + sin a * sin a) with ((sin a)² + (cos a)²)
    by (unfold Rsqr; ring).
  rewrite sin2_cos2, sqrt_1. ring.
Qed.

Lemma push_distance (dx dy m : R) :
  0 <= m ->
  hypot (dx + cos (atan2 dy dx) * m) (dy + sin (atan2 dy dx) * m) =
    hypot dx dy + m.
Proof.
  intros Hm.
  destruct (Req_dec (hypot dx dy) 0) as [Hz|Hnz].
  - destruct (hypot_zero dx dy Hz) as [-> ->].
    rewrite atan2_origin, cos_0, sin_0, Hz.
    replace (0 + 1 * m) with (m * 1) by ring.
    replace (0 + 0 * m) with (m * 0) by ring.
    rewrite hypot_scale by exact Hm.
    unfold hypot. replace (1 * 1 + 0 * 0) with 1 by ring.
    rewrite sqrt_1. ring.
  - assert (Hne : dx <> 0 \/ dy <> 0).
    { destruct (Req_dec dx 0) as [->|]; [|left; assumption].
      destruct (Req_dec dy 0) as [->|]; [|right; assumption].
      exfalso. apply Hnz. unfold hypot.
      replace (0 * 0 + 0 * 0) with 0 by ring. apply sqrt_0. }
    pose proof (hypot_pos dx dy Hne) as Hpos.
    destruct (cos_sin_atan2 dx dy Hne) as [Hc Hs]. rewrite Hc, Hs.
    replace (dx + dx / hypot dx dy * m)
      with ((1 + m / hypot dx dy) * dx) by (field; lra).
    replace (dy + dy / hypot dx dy * m)
      with ((1 + m / hypot dx dy) * dy) by (field; lra).
    assert (Hk : 0 <= 1 + m / hypot dx dy).
    { assert (0 <= m / hypot dx dy); [|lra].
      apply Rmult_le_pos; [exact Hm|].
      left. apply Rinv_0_lt_compat. exact Hpos. }
    rewrite hypot_scale by exact Hk. field. lra.
Qed.

(** ** C5: the keypoint interaction *)

Lemma interactWithKeypoint_near g b k :
  0.2 <= confidence k ->
  keypointDist g b k < interactionRadius (CONFIG g) ->
  let radius := interactionRadius (CONFIG g) in
  let dx := vx (position b) - targetX g k in
  let dy := vy (position b) - targetY g k in
  let force := (radius - keypointDist g b k) / radius in
  let angle := atan2 dy dx in
  interactWithKeypoint g b (Some k) =
    mkBubble
      (mkVector3 (vx (position b) + cos angle * force * 0.8)
                 (vy (position b) + sin angle * force * 0.8)
                 (vz (position b)))
      (setScalar (Fin (initialScale (userData b) * (1 + force * 0.5))))
      (opacity b) (userData b).
Proof.
  intros Hc Hd. cbv zeta. unfold interactWithKeypoint.
  apply Rltb_false in Hc. rewrite Hc.
  unfold keypointDist in Hd. apply Rltb_true in Hd. rewrite Hd.
  reflexivity.
Qed.

Lemma interactWithKeypoint_far g b k :
  0.2 <= confidence k ->
  interactionRadius (CONFIG g) <= keypointDist g b k ->
  interactWithKeypoint g b (Some k) =
    set_scale (lerp (scale b) (initialScale (userData b)) 0.1) b.
Proof.
  intros Hc Hd. unfold interactWithKeypoint.
  apply Rltb_false in Hc. rewrite Hc.
  unfold keypointDist in Hd. apply Rltb_false in Hd. rewrite Hd.
  reflexivity.
Qed.

(** C5.  For a keypoint with confidence at least 0.2 and target [T] (the
    keypoint mapped through a video of non-zero size) at distance [d] from
    the bubble: if [d < interactionRadius], the bubble moves by a step of
    length [((radius - d) / radius) * 0.8] that takes it exactly that much
    further from [T] (for [d > 0], along [bubble - T]),
    and its scale becomes [initialScale * (1 + 0.5 * (radius - d) / radius)],
    at most [1.5 * initialScale]; if [d >= interactionRadius], in particular
    at [d = interactionRadius], the position is unchanged and every scale
    component moves 10% of its difference towards [initialScale].  A
    keypoint with confidence below 0.2 changes nothing. *)
Theorem keypoint_interaction_push_and_scale :
  forall g b k,
    video_width g <> 0 -> video_height g <> 0 ->
    let radius := interactionRadius (CONFIG g) in
    let Tx := targetX g k in
    let Ty := targetY g k in
    let d := keypointDist g b k in
    let falloff := (radius - d) / radius in
    let rest := initialScale (userData b) in
    let b' := interactWithKeypoint g b (Some k) in
    (0.2 <= confidence k -> d < radius ->
       hypot (vx (position b') - vx (position b))
             (vy (position b') - vy (position b)) = falloff * 0.8
       /\ keypointDist g b' k = d + falloff * 0.8
       /\ (0 < d ->
           vx (position b') - vx (position b) =
             falloff * 0.8 / d * (vx (position b) - Tx)
           /\ vy (position b') - vy (position b) =
                falloff * 0.8 / d * (vy (position b) - Ty))
       /\ vz (position b') = vz (position b)
       /\ scale b' = setScalar (Fin (rest * (1 + 0.5 * falloff)))
       /\ 0 < falloff <= 1
       /\ (0 <= rest -> rest * (1 + 0.5 * falloff) <= 1.5 * rest))
    /\ (0.2 <= confidence k -> radius <= d ->
        position b' = position b
        /\ scale b' = lerp (scale b) rest 0.1
        /\ (forall sx sy sz,
              scale b = mkVector3 (Fin sx) (Fin sy) (Fin sz) ->
              scale b' = mkVector3 (Fin (sx + (rest - sx) * 0.1))
                                   (Fin (sy + (rest - sy) * 0.1))
                                   (Fin (sz + (rest - sz) * 0.1))))
    /\ (0.2 <= confidence k -> d = radius ->
        falloff * 0.8 = 0
        /\ position b' = position b
        /\ (scale b = setScalar (Fin rest) -> scale b' = setScalar (Fin rest)))
    /\ (confidence k < 0.2 -> b' = b).
Proof.
  intros g b k _ _ radius Tx Ty d falloff rest b'.
  assert (Hd0 : 0 <= d) by apply sqrt_pos.
  split; [|split; [|split]].
  - intros Hc Hd.
    assert (Hr : 0 < radius) by lra.
    assert (Hf : 0 < falloff <= 1).
    { unfold falloff. split.
      - apply Rmult_lt_0_compat; [lra|apply Rinv_0_lt_compat; exact Hr].
      - apply (Rmult_le_reg_r radius); [exact Hr|].
        unfold Rdiv. rewrite Rmult_assoc, Rinv_l by lra. lra. }
    pose proof (interactWithKeypoint_near g b k Hc Hd) as Heq.
    cbv zeta in Heq. fold Tx Ty radius d in Heq. fold falloff in Heq.
    fold b' in Heq.
    set (dx := vx (position b) - Tx) in *.
    set (dy := vy (position b) - Ty) in *.
    assert (Hm : 0 <= falloff * 0.8) by lra.
    assert (Hx : vx (position b') - vx (position b) =
                 cos (atan2 dy dx) * (falloff * 0.8)).
    { rewrite Heq. simpl. ring. }
    assert (Hy : vy (position b') - vy (position b) =
                 sin (atan2 dy dx) * (falloff * 0.8)).
    { rewrite Heq. simpl. ring. }
    split; [|split; [|split; [|split; [|split; [|split]]]]].
    + rewrite Hx, Hy. apply push_magnitude. exact Hm.
    + unfold keypointDist. fold Tx Ty.
      change (sqrt ((vx (position b') - Tx) * (vx (position b') - Tx)
                    + (vy (position b') - Ty) * (vy (position b') - Ty)))
        with (hypot (vx (position b') - Tx) (vy (position b') - Ty)).
      replace (vx (position b') - Tx)
        with (dx + cos (atan2 dy dx) * (falloff * 0.8))
        by (assert (dx = vx (position b) - Tx) by reflexivity; lra).
      replace (vy (position b') - Ty)
        with (dy + sin (atan2 dy dx) * (falloff * 0.8))
        by (assert (dy = vy (position b) - Ty) by reflexivity; lra).
      rewrite push_distance by exact Hm. reflexivity.
    + intros Hpos.
      assert (Hne : dx <> 0 \/ dy <> 0).
      { destruct (Req_dec dx 0) as [Hx0|]; [|left; assumption].
        destruct (Req_dec dy 0) as [Hy0|]; [|right; assumption].
        exfalso. unfold d, keypointDist in Hpos. fold Tx Ty dx dy in Hpos.
        rewrite Hx0, Hy0 in Hpos.
        replace (0 * 0 + 0 * 0) with 0 in Hpos by ring.
        rewrite sqrt_0 in Hpos. lra. }
      destruct (cos_sin_atan2 dx dy Hne) as [Hcos Hsin].
      change (hypot dx dy) with d in Hcos, Hsin.
      rewrite Hx, Hy, Hcos, Hsin. split; field; lra.
    + rewrite Heq. reflexivity.
    + rewrite Heq. simpl. unfold setScalar. fold rest.
      replace (rest * (1 + falloff * 0.5)) with (rest * (1 + 0.5 * falloff))
        by ring.
      reflexivity.
    + exact Hf.
    + intros Hrest. nra.
  - intros Hc Hd.
    pose proof (interactWithKeypoint_far g b k Hc Hd) as Heq.
    fold b' rest in Heq. rewrite Heq.
    split; [reflexivity|]. split; [reflexivity|].
    intros sx sy sz Hs. simpl. rewrite Hs. reflexivity.
  - intros Hc Hd.
    assert (Hle : radius <= d) by lra.
    pose proof (interactWithKeypoint_far g b k Hc Hle) as Heq.
    fold b' rest in Heq. rewrite Heq.
    split; [|split; [reflexivity|]].
    + unfold falloff. rewrite Hd. unfold Rdiv, Rminus.
      rewrite Rplus_opp_r. ring.
    + intros Hs. simpl. rewrite Hs. unfold lerp, setScalar, lerp1. simpl.
      replace (rest + (rest - rest) * 0.1) with rest by ring.
      reflexivity.
  - intros Hc. unfold b', interactWithKeypoint.
    apply Rltb_true in Hc. rewrite Hc. reflexivity.
Qed.

Lemma keypointDist_centre (x y r : R) :
  0 <= r -> x * x + y * y = r * r ->
  keypointDist globalsSkeleton (bubbleAt x y) keypointCentre = r.
Proof.
  intros Hr Hxy. unfold keypointDist, targetX, targetY. simpl.
  match goal with
  | |- sqrt ?a = _ => replace a with (r * r) by nra
  end.
  apply sqrt_square. exact Hr.
Qed.

Lemma keypoint_interaction_push_and_scale_witness :
  keypointDist globalsSkeleton
    (interactWithKeypoint globalsSkeleton (bubbleAt 3 4) (Some keypointCentre))
    keypointCentre = 5 + (10 - 5) / 10 * 0.8
  /\ position (interactWithKeypoint globalsSkeleton (bubbleAt 30 40)
                 (Some keypointCentre)) = position (bubbleAt 30 40)
  /\ position (interactWithKeypoint globalsSkeleton (bubbleAt 6 8)
                 (Some keypointCentre)) = position (bubbleAt 6 8)
  /\ interactWithKeypoint globalsSkeleton (bubbleAt 3 4) (Some keypointFaint)
     = bubbleAt 3 4.
Proof.
  assert (Hconf : 0.2 <= confidence keypointCentre) by (simpl; lra).
  assert (Hvw : video_width globalsSkeleton <> 0) by (simpl; lra).
  assert (Hvh : video_height globalsSkeleton <> 0) by (simpl; lra).
  assert (H5 : keypointDist globalsSkeleton (bubbleAt 3 4) keypointCentre = 5)
    by (apply keypointDist_centre; lra).
  assert (H50 : keypointDist globalsSkeleton (bubbleAt 30 40) keypointCentre
                = 50) by (apply keypointDist_centre; lra).
  assert (H10 : keypointDist globalsSkeleton (bubbleAt 6 8) keypointCentre
                = 10) by (apply keypointDist_centre; lra).
  split; [|split; [|split]].
  - destruct (proj1 (keypoint_interaction_push_and_scale globalsSkeleton
                       (bubbleAt 3 4) keypointCentre Hvw Hvh) Hconf)
      as (_ & Hdist & _).
    + rewrite H5. simpl. lra.
    + rewrite Hdist, H5. reflexivity.
  - apply (proj1 (proj2 (keypoint_interaction_push_and_scale globalsSkeleton
                           (bubbleAt 30 40) keypointCentre Hvw Hvh)) Hconf).
    rewrite H50. simpl. lra.
  - apply (proj1 (proj2 (proj2 (keypoint_interaction_push_and_scale
                                  globalsSkeleton (bubbleAt 6 8)
                                  keypointCentre Hvw Hvh))) Hconf).
    rewrite H10. reflexivity.
  - apply (proj2 (proj2 (proj2 (keypoint_interaction_push_and_scale
                                  globalsSkeleton (bubbleAt 3 4)
                                  keypointFaint Hvw Hvh)))).
    simpl. lra.
Defined.

(** * Further properties of the code *)

(** ** The visible bounds *)

Lemma half_fov_in_range (d : R) :
  0 < d < 180 -> 0 < degToRad d / 2 < PI / 2.
Proof.
  intros [H0 H1]. unfold degToRad. pose proof PI_RGT_0. split; nra.
Qed.

(** X1.  For a camera with a field of view strictly between 0 and 180
    degrees, a positive distance and a positive aspect ratio,
    [updateVisibleBounds] makes both visible extents positive with
    [visibleWidth / visibleHeight] equal to the aspect ratio, a wider field
    of view gives a strictly larger visible height, and a window resize
    changes the visible width only: the visible height does not depend on
    the window. *)
Theorem visible_bounds_positive_proportional :
  forall camera g,
    0 < fov camera < 180 -> 0 < camera_z camera -> 0 < aspect camera ->
    let g' := updateVisibleBounds camera g in
    0 < visibleHeight g'
    /\ 0 < visibleWidth g'
    /\ visibleWidth g' / visibleHeight g' = aspect camera
    /\ (forall wider,
          fov camera < wider < 180 ->
          visibleHeight g' <
            visibleHeight
              (updateVisibleBounds
                 (mkCamera wider (aspect camera) (camera_z camera)) g))
    /\ (forall innerWidth innerHeight,
          0 < innerWidth -> 0 < innerHeight ->
          let g2 := snd (onWindowResize innerWidth innerHeight camera g) in
          visibleHeight g2 = visibleHeight g'
          /\ visibleWidth g2 / visibleHeight g2 = innerWidth / innerHeight).
Proof.
  intros camera g Hfov Hz Ha g'.
  pose proof (half_fov_in_range (fov camera) Hfov) as [Hlo Hhi].
  pose proof (tan_gt_0 _ Hlo Hhi) as Htan.
  assert (Hh : 0 < visibleHeight g').
  { simpl. apply Rmult_lt_0_compat; [|exact Hz].
    apply Rmult_lt_0_compat; [lra|exact Htan]. }
  assert (Hratio : forall h a, 0 < h -> h * a / h = a).
  { intros h a Hpos. field. lra. }
  split; [exact Hh|]. split.
  - simpl. simpl in Hh. apply Rmult_lt_0_compat; assumption.
  - split; [|split].
    + simpl. simpl in Hh. apply Hratio. exact Hh.
    + intros wider Hw. simpl.
      assert (Hw' : 0 < wider < 180) by lra.
      pose proof (half_fov_in_range wider Hw') as [Hlo2 Hhi2].
      assert (Hlt : tan (degToRad (fov camera) / 2) < tan (degToRad wider / 2)).
      { apply tan_increasing; [lra| |exact Hhi2].
        unfold degToRad. pose proof PI_RGT_0. nra. }
      nra.
    + intros iw ih Hiw Hih g2. simpl. split; [reflexivity|].
      simpl in Hh. apply Hratio. exact Hh.
Qed.

Lemma visible_bounds_positive_proportional_witness :
  0 < visibleHeight (updateVisibleBounds camera0 globalsNoSensor)
  /\ visibleWidth (updateVisibleBounds camera0 globalsNoSensor)
     / visibleHeight (updateVisibleBounds camera0 globalsNoSensor) = 1.5.
Proof.
  assert (Hfov : 0 < fov camera0 < 180) by (simpl; lra).
  assert (Hz : 0 < camera_z camera0) by (simpl; lra).
  assert (Ha : 0 < aspect camera0) by (simpl; lra).
  pose proof (visible_bounds_positive_proportional camera0 globalsNoSensor
                Hfov Hz Ha) as (Hh & _ & Hr & _).
  split; [exact Hh|exact Hr].
Defined.

(** ** The keypoint mapping *)

(** X2.  [getVector3FromKeypoint] maps a keypoint inside the video to a
    point of the plane [z = 0] inside the visible frame, mirrors both axes
    (the keypoints [x] and [videoWidth - x] land on opposite sides, the left
    edge lands on the right edge of the frame, the centre on the origin),
    and loses nothing: the keypoint coordinates are recovered from the
    point. *)
Theorem keypoint_mapping_mirrors_into_frame :
  forall g video k,
    0 < videoWidth video -> 0 < videoHeight video ->
    0 < visibleWidth g -> 0 < visibleHeight g ->
    let p := getVector3FromKeypoint g video k in
    vz p = 0
    /\ (0 <= kx k <= videoWidth video ->
        - visibleWidth g / 2 <= vx p <= visibleWidth g / 2)
    /\ (0 <= ky k <= videoHeight video ->
        - visibleHeight g / 2 <= vy p <= visibleHeight g / 2)
    /\ (forall k',
          kx k' = videoWidth video - kx k -> ky k' = videoHeight video - ky k ->
          vx (getVector3FromKeypoint g video k') = - vx p
          /\ vy (getVector3FromKeypoint g video k') = - vy p)
    /\ (kx k = 0 -> vx p = visibleWidth g / 2)
    /\ (kx k = videoWidth video / 2 -> ky k = videoHeight video / 2 ->
        vx p = 0 /\ vy p = 0)
    /\ kx k = (0.5 - vx p / visibleWidth g) * videoWidth video
    /\ ky k = (0.5 - vy p / visibleHeight g) * videoHeight video.
Proof.
  intros g video k HW HH Hvw Hvh p.
  assert (Hx : vx p = (0.5 - kx k / videoWidth video) * visibleWidth g).
  { unfold p. simpl. lra. }
  assert (Hy : vy p = (0.5 - ky k / videoHeight video) * visibleHeight g).
  { unfold p. simpl. lra. }
  assert (Hdx : forall a w, 0 < w -> 0 <= a <= w -> 0 <= a / w <= 1).
  { intros a w Hw [Ha0 Ha1]. split.
    - apply Rmult_le_pos; [exact Ha0|left; apply Rinv_0_lt_compat; exact Hw].
    - apply (Rmult_le_reg_r w); [exact Hw|].
      unfold Rdiv. rewrite Rmult_assoc, Rinv_l by lra. lra. }
  split; [reflexivity|].
  split; [intros Hk; rewrite Hx; pose proof (Hdx _ _ HW Hk); nra|].
  split; [intros Hk; rewrite Hy; pose proof (Hdx _ _ HH Hk); nra|].
  assert (Hmd : forall t v, v <> 0 -> t * v / v = t).
  { intros t v Hv. field. exact Hv. }
  assert (Hdm : forall a w, w <> 0 -> a / w * w = a).
  { intros a w Hw. field. exact Hw. }
  split.
  { intros k' Hkx Hky. rewrite Hx, Hy. simpl. rewrite Hkx, Hky.
    replace ((videoWidth video - kx k) / videoWidth video)
      with (1 - kx k / videoWidth video) by (field; lra).
    replace ((videoHeight video - ky k) / videoHeight video)
      with (1 - ky k / videoHeight video) by (field; lra).
    split; lra. }
  split.
  { intros Hk. rewrite Hx, Hk.
    replace (0 / videoWidth video) with 0 by (field; lra). lra. }
  split.
  { intros Hkx Hky. rewrite Hx, Hy, Hkx, Hky.
    replace (videoWidth video / 2 / videoWidth video) with (1 / 2)
      by (field; lra).
    replace (videoHeight video / 2 / videoHeight video) with (1 / 2)
      by (field; lra).
    split; lra. }
  rewrite Hx, Hy, !Hmd by lra.
  pose proof (Hdm (kx k) (videoWidth video)).
  pose proof (Hdm (ky k) (videoHeight video)).
  split; lra.
Qed.

Lemma keypoint_mapping_mirrors_into_frame_witness :
  vx (getVector3FromKeypoint globalsSkeleton video0 keypointCentre) = 0
  /\ vy (getVector3FromKeypoint globalsSkeleton video0 keypointCentre) = 0.
Proof.
  assert (HW : 0 < videoWidth video0) by (simpl; lra).
  assert (HH : 0 < videoHeight video0) by (simpl; lra).
  assert (Hvw : 0 < visibleWidth globalsSkeleton) by (simpl; lra).
  assert (Hvh : 0 < visibleHeight globalsSkeleton) by (simpl; lra).
  pose proof (keypoint_mapping_mirrors_into_frame globalsSkeleton video0
                keypointCentre HW HH Hvw Hvh)
    as (_ & _ & _ & _ & _ & Hc & _).
  apply Hc; simpl; lra.
Defined.

(** X3.  The point that [updateSkeleton] draws for a keypoint and the target
    that [interactWithKeypoint] pushes bubbles away from are computed from
    different sizes of the video ([videoWidth], [videoHeight] against
    [width], [height]): they coincide when the two sizes are equal, and for
    a keypoint off the left and top edges they coincide only then. *)
Theorem skeleton_point_matches_target_iff_sizes_agree :
  forall g video k,
    videoWidth video <> 0 -> videoHeight video <> 0 ->
    video_width g <> 0 -> video_height g <> 0 ->
    visibleWidth g <> 0 -> visibleHeight g <> 0 ->
    kx k <> 0 -> ky k <> 0 ->
    let p := getVector3FromKeypoint g video k in
    (vx p = targetX g k <-> videoWidth video = video_width g)
    /\ (vy p = targetY g k <-> videoHeight video = video_height g).
Proof.
  intros g video k HW HH Hw Hh Hvw Hvh Hkx Hky p.
  assert (Hinv : forall a u v s,
            a <> 0 -> u <> 0 -> v <> 0 -> s <> 0 ->
            ((1 - a / u - 0.5) * s = (1 - a / v - 0.5) * s <-> u = v)).
  { intros a u v s Ha Hu Hv Hs. split.
    - intros Heq.
      assert (H1 : a / u = a / v).
      { apply (Rmult_eq_reg_r s); [|exact Hs]. lra. }
      assert (H2 : a * v = a * u).
      { apply (f_equal (fun t => t * u * v)) in H1.
        replace (a / u * u * v) with (a * v) in H1 by (field; exact Hu).
        replace (a / v * u * v) with (a * u) in H1 by (field; exact Hv).
        exact H1. }
      apply (Rmult_eq_reg_l a); [symmetry; exact H2|exact Ha].
    - intros ->. reflexivity. }
  split.
  - unfold targetX. simpl. apply Hinv; assumption.
  - unfold targetY. simpl. apply Hinv; assumption.
Qed.

Lemma skeleton_point_matches_target_iff_sizes_agree_witness :
  vx (getVector3FromKeypoint globalsSkeleton video0 keypointCentre) =
    targetX globalsSkeleton keypointCentre
  /\ vx (getVector3FromKeypoint globalsSkeleton videoHD keypointCentre) <>
       targetX globalsSkeleton keypointCentre.
Proof.
  assert (H : forall video,
            videoWidth video <> 0 -> videoHeight video <> 0 ->
            (vx (getVector3FromKeypoint globalsSkeleton video keypointCentre)
               = targetX globalsSkeleton keypointCentre
             <-> videoWidth video = video_width globalsSkeleton)).
  { intros video HW HH.
    apply (skeleton_point_matches_target_iff_sizes_agree globalsSkeleton
             video keypointCentre HW HH); simpl; lra. }
  split.
  - apply (H video0); simpl; lra.
  - intros Heq. apply (H videoHD) in Heq; simpl in *; lra.
Defined.

(** ** The pool and its creation *)

Lemma createBubble_mesh g rnd now_ms respawn_ms i c :
  createBubble g rnd now_ms respawn_ms i c =
    if respawnsAtCreation g
    then respawnBubble g rnd respawn_ms (c + 10) (createdMesh g rnd now_ms i c)
    else ((c + 10)%nat, createdMesh g rnd now_ms i c).
Proof.
  unfold createBubble, respawnsAtCreation, createdMesh. cbv zeta.
  destruct (spawnOnBody (CONFIG g)); [|reflexivity].
  destruct (segmentationResult g) as [seg|]; [|reflexivity].
  destruct (mask seg); reflexivity.
Qed.

Lemma respawnBubble_fixedParams g rnd now_ms c b :
  fixedParams (snd (respawnBubble g rnd now_ms c b)) = fixedParams b.
Proof.
  unfold respawnBubble.
  destruct (fst (fst (respawnPlace g rnd c b))) eqn:Hsp.
  - destruct (respawnPlace_spawned g rnd c b Hsp)
      as (m & d & k & _ & _ & _ & _ & Heq).
    destruct (respawnPlace g rnd c b) as [[sp c1] b1].
    simpl in Hsp, Heq. subst sp b1. reflexivity.
  - pose proof (respawnPlace_failed g rnd c b Hsp) as Heq.
    destruct (respawnPlace g rnd c b) as [[sp c1] b1].
    simpl in Hsp, Heq. subst sp b1. reflexivity.
Qed.

Lemma animateBubble_fixedParams g rnd time_ms now_ms c b :
  fixedParams (snd (animateBubble g rnd time_ms now_ms c b)) = fixedParams b.
Proof.
  destruct (animateBubble_userData g rnd time_ms now_ms c b)
    as [[_ Hu]|(bm & Hbm & Hu & _)].
  - unfold fixedParams. rewrite Hu. reflexivity.
  - transitivity (fixedParams (snd (respawnBubble g rnd now_ms c bm))).
    + unfold fixedParams. rewrite Hu. reflexivity.
    + rewrite respawnBubble_fixedParams. unfold fixedParams.
      rewrite Hbm. reflexivity.
Qed.

Lemma animateBubble_cursor g rnd time_ms now_ms c b :
  (c <= fst (animateBubble g rnd time_ms now_ms c b))%nat.
Proof.
  destruct (animateBubble_userData g rnd time_ms now_ms c b)
    as [[Hc _]|(_ & _ & _ & Hlt)]; lia.
Qed.

Lemma animateFrom_pool g rnd time_ms now_ms :
  forall pool i c,
    length (snd (animateFrom g rnd time_ms now_ms i c pool)) = length pool
    /\ (c <= fst (animateFrom g rnd time_ms now_ms i c pool))%nat
    /\ map fixedParams (snd (animateFrom g rnd time_ms now_ms i c pool)) =
         map fixedParams pool.
Proof.
  induction pool as [|b rest IH]; intros i c.
  - simpl. repeat split. lia.
  - cbn [animateFrom].
    pose proof (animateBubble_cursor g rnd time_ms (now_ms i) c b) as Hc.
    pose proof (animateBubble_fixedParams g rnd time_ms (now_ms i) c b) as Hf.
    destruct (animateBubble g rnd time_ms (now_ms i) c b) as [c1 b'].
    destruct (IH (S i) c1) as (Hlen & Hcur & Hmap).
    destruct (animateFrom g rnd time_ms now_ms (S i) c1 rest) as [c2 rest'].
    simpl in *. repeat split; [congruence|lia|congruence].
Qed.

Lemma createLoop_length g rnd now_ms respawn_ms :
  forall n i c,
    length (snd (createLoop g rnd now_ms respawn_ms n i c)) = n.
Proof.
  induction n as [|n IH]; intros i c.
  - reflexivity.
  - cbn [createLoop].
    destruct (createBubble g rnd (now_ms i) (respawn_ms i) i c) as [c1 mesh].
    pose proof (IH (i + 1)%Z c1) as Hlen.
    destruct (createLoop g rnd now_ms respawn_ms n (i + 1)%Z c1) as [c2 rest].
    simpl in *. congruence.
Qed.

(** X4.  [createBubbles] builds exactly [bubbleCount] bubbles (none for a
    count of zero or less), and [animate] returns a pool of the same size in
    which no bubble has changed its creation-time parameters, having only
    advanced the random cursor. *)
Theorem pool_size_and_parameters_fixed :
  forall g rnd now_ms respawn_ms time_ms now_of c pool,
    length (snd (createBubbles g rnd now_ms respawn_ms c)) =
      Z.to_nat (bubbleCount (CONFIG g))
    /\ ((bubbleCount (CONFIG g) <= 0)%Z ->
        snd (createBubbles g rnd now_ms respawn_ms c) = [])
    /\ length (snd (animate g rnd time_ms now_of c pool)) = length pool
    /\ map fixedParams (snd (animate g rnd time_ms now_of c pool)) =
         map fixedParams pool
    /\ (c <= fst (animate g rnd time_ms now_of c pool))%nat.
Proof.
  intros g rnd now_ms respawn_ms time_ms now_of c pool.
  destruct (animateFrom_pool g rnd time_ms now_of pool 0%nat c)
    as (Hlen & Hcur & Hmap).
  split; [apply createLoop_length|].
  split.
  - intros Hle. unfold createBubbles.
    replace (Z.to_nat (bubbleCount (CONFIG g))) with 0%nat by lia.
    reflexivity.
  - repeat split; assumption.
Qed.

Lemma pool_size_and_parameters_fixed_witness :
  length (snd (createBubbles globalsMask8 rndZero (fun _ => 0%Z)
                 (fun _ => 0%Z) 0)) = 1%nat
  /\ snd (createBubbles
            (mkGlobals (mkConfig 0 2.5 0.6 4 true false 8) [] None None
               640 480 30 20)
            rndZero (fun _ => 0%Z) (fun _ => 0%Z) 0) = [].
Proof.
  split.
  - exact (proj1 (pool_size_and_parameters_fixed globalsMask8 rndZero
                    (fun _ => 0%Z) (fun _ => 0%Z) 0%Z (fun _ => 0%Z) 0%nat [])).
  - apply (proj1 (proj2 (pool_size_and_parameters_fixed
                    (mkGlobals (mkConfig 0 2.5 0.6 4 true false 8) [] None
                       None 640 480 30 20)
                    rndZero (fun _ => 0%Z) (fun _ => 0%Z) 0%Z (fun _ => 0%Z)
                    0%nat []))).
    simpl. lia.
Defined.

(** X5.  Every bubble that [createBubbles] builds, respawned at creation or
    not, has [initialScale] in [0.1, 0.1 + bubbleSize), its scale equal to
    [initialScale] on all three axes, [velocityMultiplier] in [0, 0.1),
    [wobbleSpeed] in [0, 3), [wobbleOffset] in [0, 2 PI), [randomOffset] in
    [0, 100), opacity 0.5 and a defined depth; without a respawn at creation
    it lies within 0.75 of the visible extents around the origin, with
    [z] in [-7.5, 7.5) and depth 0.5. *)
Theorem created_bubble_parameter_ranges :
  forall g rnd now_ms respawn_ms i c,
    randOk rnd -> 0 < bubbleSize (CONFIG g) ->
    0 <= visibleWidth g -> 0 <= visibleHeight g ->
    let b := snd (createBubble g rnd now_ms respawn_ms i c) in
    let u := userData b in
    0.1 <= initialScale u < 0.1 + bubbleSize (CONFIG g)
    /\ scale b = setScalar (Fin (initialScale u))
    /\ 0 <= velocityMultiplier u < 0.1
    /\ 0 <= wobbleSpeed u < 3
    /\ 0 <= wobbleOffset u < 2 * PI
    /\ 0 <= randomOffset u < 100
    /\ opacity b = 0.5
    /\ depth u <> None
    /\ (respawnsAtCreation g = false ->
        - 0.75 * visibleWidth g <= vx (position b) <= 0.75 * visibleWidth g
        /\ - 0.75 * visibleHeight g <= vy (position b)
           <= 0.75 * visibleHeight g
        /\ -7.5 <= vz (position b) < 7.5
        /\ depth u = Some (Fin 0.5)
        /\ fst (createBubble g rnd now_ms respawn_ms i c) = (c + 10)%nat).
Proof.
  intros g rnd now_ms respawn_ms i c Hrnd Hsize Hvw Hvh b u.
  set (mesh := createdMesh g rnd now_ms i c).
  assert (Hfix : fixedParams b = fixedParams mesh).
  { unfold b. rewrite createBubble_mesh. fold mesh.
    destruct (respawnsAtCreation g); [|reflexivity].
    apply respawnBubble_fixedParams. }
  assert (Hscale : scale b = scale mesh).
  { unfold b. rewrite createBubble_mesh. fold mesh.
    destruct (respawnsAtCreation g); [|reflexivity].
    apply respawnBubble_scale. }
  assert (Hop : opacity b = 0.5).
  { unfold b. rewrite createBubble_mesh. fold mesh.
    destruct (respawnsAtCreation g); [|reflexivity].
    apply respawn_resets_opacity_aux. }
  assert (Hdepth : depth u <> None).
  { unfold u, b. rewrite createBubble_mesh. fold mesh.
    destruct (respawnsAtCreation g); [|discriminate].
    destruct (respawnBubble_depth g rnd respawn_ms (c + 10) mesh)
      as [[_ Heq]|(_ & m & d & k & _ & _ & Heq)]; rewrite Heq; discriminate. }
  unfold fixedParams in Hfix. fold u in Hfix.
  injection Hfix as Hv Hi Hws Hwo Hro.
  pose proof (Hrnd (c + 3)%nat). pose proof (Hrnd (c + 5)%nat).
  pose proof (Hrnd (c + 6)%nat). pose proof (Hrnd (c + 7)%nat).
  pose proof (Hrnd (c + 8)%nat). pose proof PI_RGT_0.
  rewrite Hv, Hi, Hws, Hwo, Hro, Hscale. simpl.
  split; [nra|]. split; [reflexivity|]. split; [nra|]. split; [nra|].
  split; [nra|]. split; [nra|]. split; [exact Hop|].
  split; [exact Hdepth|].
  intros Hno. unfold u, b. rewrite createBubble_mesh, Hno. simpl.
  pose proof (Hrnd c). pose proof (Hrnd (c + 1)%nat).
  pose proof (Hrnd (c + 2)%nat).
  repeat split; try nra.
Qed.

Lemma created_bubble_parameter_ranges_witness :
  0.1 <= initialScale
           (userData (snd (createBubble globalsNoSensor rndHalf 0 0 0 0)))
      < 0.1 + 0.6
  /\ depth (userData (snd (createBubble globalsNoSensor rndHalf 0 0 0 0))) =
       Some (Fin 0.5).
Proof.
  assert (Hs : 0 < bubbleSize (CONFIG globalsNoSensor)) by (simpl; lra).
  assert (Hw : 0 <= visibleWidth globalsNoSensor) by (simpl; lra).
  assert (Hh : 0 <= visibleHeight globalsNoSensor) by (simpl; lra).
  pose proof (created_bubble_parameter_ranges globalsNoSensor rndHalf 0%Z 0%Z
                0%Z 0%nat randOk_rndHalf Hs Hw Hh)
    as (Hi & _ & _ & _ & _ & _ & _ & _ & Hno).
  split; [exact Hi|].
  destruct (Hno eq_refl) as (_ & _ & _ & Hd & _). exact Hd.
Defined.

(** Without a respawn at creation, iteration [i] spends ten draws and
    leaves the mesh it has built. *)
Lemma createLoop_nth g rnd now_ms respawn_ms :
  respawnsAtCreation g = false ->
  forall n i c k b,
    nth_error (snd (createLoop g rnd now_ms respawn_ms n i c)) k = Some b ->
    b = createdMesh g rnd (now_ms (i + Z.of_nat k)%Z) (i + Z.of_nat k)%Z
          (c + 10 * k)%nat.
Proof.
  intros Hno. induction n as [|n IH]; intros i c k b Hnth.
  - destruct k; discriminate.
  - cbn [createLoop] in Hnth. rewrite createBubble_mesh, Hno in Hnth.
    pose proof (IH (i + 1)%Z (c + 10)%nat) as IH'.
    destruct (createLoop g rnd now_ms respawn_ms n (i + 1)%Z (c + 10))
      as [c2 rest].
    simpl in Hnth. cbn [snd] in IH'. destruct k as [|k].
    + injection Hnth as <-.
      replace (i + Z.of_nat 0)%Z with i by lia.
      replace (c + 10 * 0)%nat with c by lia. reflexivity.
    + simpl in Hnth. rewrite (IH' k b Hnth).
      replace (i + 1 + Z.of_nat k)%Z with (i + Z.of_nat (S k))%Z by lia.
      replace (c + 10 + 10 * k)%nat with (c + 10 * S k)%nat by lia.
      reflexivity.
Qed.

(** X6.  Without a respawn at creation, bubble [i] of the pool that
    [createBubbles] builds is born in slot [i] before the clock reading of
    its own iteration, the slots having length
    [max (bubbleLifespan, 5) / bubbleCount]: its age at that reading is in
    [[i * slot, (i + 1) * slot)], hence non-negative and below
    [max (bubbleLifespan, 5)], and these ages increase strictly with the
    index.  The clock is read in every iteration, so a bubble of a larger
    index [j] need not be born earlier; it is when the clock advanced by
    at most [j - i - 1] slots between the two iterations. *)
Theorem creation_staggers_birth_times :
  forall g rnd now_ms respawn_ms c i b,
    randOk rnd -> respawnsAtCreation g = false ->
    let pool := snd (createBubbles g rnd now_ms respawn_ms c) in
    nth_error pool i = Some b ->
    let maxOffset := Rmax (bubbleLifespan (CONFIG g)) 5 in
    let slot := maxOffset / IZR (bubbleCount (CONFIG g)) in
    let created k := IZR (now_ms (Z.of_nat k)) / 1000 in
    let age := created i - birthTime (userData b) in
    IZR (Z.of_nat i) * slot <= age < (IZR (Z.of_nat i) + 1) * slot
    /\ 0 <= age < maxOffset
    /\ (forall j b',
          (i < j)%nat -> nth_error pool j = Some b' ->
          age < created j - birthTime (userData b')
          /\ (created j - created i
              <= (IZR (Z.of_nat j) - IZR (Z.of_nat i) - 1) * slot ->
              birthTime (userData b') < birthTime (userData b))).
Proof.
  intros g rnd now_ms respawn_ms c i b Hrnd Hno pool Hnth maxOffset slot
         created age.
  assert (Hlen : length pool = Z.to_nat (bubbleCount (CONFIG g))).
  { unfold pool, createBubbles. apply createLoop_length. }
  assert (Hbirth : forall k bk,
            nth_error pool k = Some bk ->
            IZR (Z.of_nat k) + 1 <= IZR (bubbleCount (CONFIG g))
            /\ exists r, 0 <= r < 1
                 /\ created k - birthTime (userData bk) =
                      (IZR (Z.of_nat k) + r) * slot).
  { intros k bk Hk.
    assert (Hlt : (k < length pool)%nat).
    { apply nth_error_Some. rewrite Hk. discriminate. }
    assert (Hkn : IZR (Z.of_nat k) + 1 <= IZR (bubbleCount (CONFIG g))).
    { rewrite <- plus_IZR. apply IZR_le. lia. }
    split; [exact Hkn|].
    unfold pool, createBubbles in Hk.
    pose proof (createLoop_nth g rnd now_ms respawn_ms Hno _ _ _ _ _ Hk)
      as Hbk.
    replace (0 + Z.of_nat k)%Z with (Z.of_nat k) in Hbk by lia.
    exists (rnd (c + 10 * k + 4)%nat). split; [apply Hrnd|].
    rewrite Hbk. unfold created, createdMesh. simpl.
    fold maxOffset. unfold slot.
    assert (Hk0 : 0 <= IZR (Z.of_nat k)) by (apply IZR_le; lia).
    field. lra. }
  assert (HM : 5 <= maxOffset) by apply Rmax_r.
  destruct (Hbirth i b Hnth) as (Hin & r & Hr & Hage).
  fold age in Hage.
  assert (Hi0 : 0 <= IZR (Z.of_nat i)) by (apply IZR_le; lia).
  assert (Hn : 1 <= IZR (bubbleCount (CONFIG g))) by lra.
  assert (Hslot : 0 < slot).
  { unfold slot. apply Rmult_lt_0_compat; [lra|].
    apply Rinv_0_lt_compat. lra. }
  assert (Hsn : slot * IZR (bubbleCount (CONFIG g)) = maxOffset).
  { unfold slot. field. lra. }
  rewrite Hage.
  split; [split; nra|]. split; [split; nra|].
  intros j b' Hij Hj.
  destruct (Hbirth j b' Hj) as (_ & r' & Hr' & Hage').
  assert (Hij' : IZR (Z.of_nat i) + 1 <= IZR (Z.of_nat j)).
  { rewrite <- plus_IZR. apply IZR_le. lia. }
  rewrite Hage'. split; [nra|].
  intros Hclock.
  assert (Hb : birthTime (userData b) = created i
                 - (IZR (Z.of_nat i) + r) * slot) by (unfold age in Hage; lra).
  assert (Hb' : birthTime (userData b') = created j
                  - (IZR (Z.of_nat j) + r') * slot) by lra.
  rewrite Hb, Hb'. nra.
Qed.

Lemma creation_staggers_birth_times_witness :
  0 <= IZR 0 / 1000
       - birthTime (userData (createdMesh globalsNoSensor rndHalf 0 0 0))
    < Rmax 8 5.
Proof.
  exact (proj1 (proj2 (creation_staggers_birth_times globalsNoSensor rndHalf
                         (fun _ => 0%Z) (fun _ => 0%Z) 0%nat 0%nat
                         (createdMesh globalsNoSensor rndHalf 0 0 0)
                         randOk_rndHalf eq_refl eq_refl))).
Defined.

(** X7.  In body-spawn mode with a mask published, every bubble is
    respawned as it is created, so its [birthTime] is the time of that
    respawn whatever its index: the staggering of the birth times is
    discarded, and only [lifespanMultiplier], redrawn in [0.5, 1.5), spreads
    the first expiries. *)
Theorem creation_respawn_discards_stagger :
  forall g rnd now_ms respawn_ms i c,
    respawnsAtCreation g = true ->
    let b := snd (createBubble g rnd now_ms respawn_ms i c) in
    birthTime (userData b) = IZR respawn_ms / 1000
    /\ (forall j cj now_ms',
          birthTime
            (userData (snd (createBubble g rnd now_ms' respawn_ms j cj))) =
          birthTime (userData b))
    /\ (randOk rnd -> multiplierOk b).
Proof.
  intros g rnd now_ms respawn_ms i c Hyes b.
  assert (Hb : forall j cj now_ms',
            birthTime
              (userData (snd (createBubble g rnd now_ms' respawn_ms j cj))) =
            IZR respawn_ms / 1000).
  { intros j cj now_ms'. rewrite createBubble_mesh, Hyes.
    unfold respawnBubble.
    destruct (respawnPlace g rnd (cj + 10) (createdMesh g rnd now_ms' j cj))
      as [[sp c1] b1].
    destruct sp; reflexivity. }
  split; [apply Hb|].
  split; [intros j cj now_ms'; rewrite Hb; symmetry; apply Hb|].
  intros Hrnd. unfold b. rewrite createBubble_mesh, Hyes.
  apply respawnBubble_multiplier. exact Hrnd.
Qed.

Lemma creation_respawn_discards_stagger_witness :
  birthTime (userData (snd (createBubble globalsMask8 rndZero 0 5000 0 0))) =
    IZR 5000 / 1000.
Proof.
  exact (proj1 (creation_respawn_discards_stagger globalsMask8 rndZero 0%Z
                  5000%Z 0%Z 0%nat eq_refl)).
Defined.

(** ** The cost and the edges of a respawn *)

Lemma respawnPlace_no_loop g rnd c b :
  respawnsAtCreation g = false ->
  respawnPlace g rnd c b = (false, S (S c), b).
Proof.
  unfold respawnsAtCreation, respawnPlace.
  destruct (spawnOnBody (CONFIG g)); [|reflexivity].
  destruct (segmentationResult g) as [seg|]; [|reflexivity].
  destruct (mask seg); [discriminate|reflexivity].
Qed.

Lemma respawnPlace_loop g rnd c b :
  respawnsAtCreation g = true ->
  (exists k, (k < 200)%nat
     /\ fst (respawnPlace g rnd c b) = (true, (c + 2 * k + 4)%nat))
  \/ respawnPlace g rnd c b = (false, (c + 401)%nat, b).
Proof.
  unfold respawnsAtCreation, respawnPlace.
  destruct (spawnOnBody (CONFIG g)); [|discriminate].
  destruct (segmentationResult g) as [seg|]; [|discriminate].
  destruct (mask seg) as [m|]; [|discriminate].
  intros _. destruct (data m) as [d|] eqn:Hd.
  - destruct (spawnLoop_first_accepted g rnd m d Hd 200 (S c) b)
      as [(k & Hk & _ & _ & Heq)|[_ Heq]]; rewrite Heq.
    + left. exists k. split; [exact Hk|]. simpl. f_equal. lia.
    + right. f_equal. f_equal. lia.
  - right. rewrite (spawnLoop_no_data g rnd m Hd). f_equal. f_equal. lia.
Qed.

(** X8.  A respawn calls [Math.random()] at least 5 and at most 404 times:
    exactly 5 times when the sampling loop is not entered, 404 times when
    the loop runs out, and [2 k + 6] times when pair [k] of the loop is
    accepted. *)
Theorem respawn_draw_count :
  forall g rnd now_ms c b,
    let spawned := fst (fst (respawnPlace g rnd c b)) in
    let c' := fst (respawnBubble g rnd now_ms c b) in
    (respawnsAtCreation g = false -> c' = (c + 5)%nat)
    /\ (respawnsAtCreation g = true -> spawned = false -> c' = (c + 404)%nat)
    /\ (spawned = true ->
        exists k, (k < 200)%nat /\ c' = (c + 2 * k + 6)%nat)
    /\ (c + 5 <= c' <= c + 404)%nat.
Proof.
  intros g rnd now_ms c b spawned c'.
  unfold c', spawned, respawnBubble.
  destruct (respawnsAtCreation g) eqn:Hloop.
  - destruct (respawnPlace_loop g rnd c b Hloop) as [(k & Hk & Heq)|Heq].
    + destruct (respawnPlace g rnd c b) as [[sp c1] b1].
      simpl in Heq. injection Heq as -> ->. simpl.
      split; [discriminate|]. split; [discriminate|].
      split; [intros _; exists k; split; [exact Hk|lia]|lia].
    + rewrite Heq. simpl.
      split; [discriminate|]. split; [intros _ _; lia|].
      split; [discriminate|lia].
  - rewrite (respawnPlace_no_loop g rnd c b Hloop). simpl.
    split; [intros _; lia|]. split; [discriminate|].
    split; [discriminate|lia].
Qed.

Lemma respawn_draw_count_witness :
  fst (respawnBubble globalsNoSensor rndZero 0 7 bubble0) = (7 + 5)%nat.
Proof.
  exact (proj1 (respawn_draw_count globalsNoSensor rndZero 0%Z 7%nat bubble0)
           eq_refl).
Defined.

Lemma js_index_noPersonByte d i a :
  noPersonByte d -> js_index d i = Some a -> (a <= 127)%Z.
Proof.
  unfold noPersonByte, js_index. intros Hall.
  destruct (i <? 0)%Z; [discriminate|].
  destruct (nth_error d (Z.to_nat i)) as [x|] eqn:Hnth; [|discriminate].
  intros Heq. injection Heq as <-.
  apply nth_error_In in Hnth.
  rewrite Forall_forall in Hall. apply Hall. exact Hnth.
Qed.

Lemma respawnPlace_all_rejected g rnd c b m d :
  spawnOnBody (CONFIG g) = true ->
  publishedMask g = Some (m, d) ->
  (forall j, (j < 200)%nat -> acceptedAt g rnd m d (S c) j = false) ->
  respawnPlace g rnd c b = (false, (c + 401)%nat, b).
Proof.
  intros Hbody Hpub Hrej. unfold respawnPlace. rewrite Hbody.
  unfold publishedMask in Hpub.
  destruct (segmentationResult g) as [seg|]; [|discriminate].
  destruct (mask seg) as [m'|]; [|discriminate].
  destruct (data m') as [d'|] eqn:Hd; [|discriminate].
  injection Hpub as -> ->.
  destruct (spawnLoop_first_accepted g rnd m d Hd 200 (S c) b)
    as [(k & Hk & _ & Hok & _)|[_ Heq]].
  - rewrite (Hrej k Hk) in Hok. discriminate.
  - rewrite Heq. f_equal. f_equal. lia.
Qed.

(** X9.  In body-spawn mode, a published mask with nobody to spawn on sends
    every respawn to the fallback: either [invertMask] is off and no byte
    of the buffer exceeds 127, or [invertMask] is on and every pixel has
    alpha 255.  All 200 pairs of draws are spent, the bubble lands at
    [y = -visibleHeight / 2 - 5] and its depth is left as it was. *)
Theorem empty_silhouette_falls_back :
  forall g rnd now_ms c b m d,
    spawnOnBody (CONFIG g) = true ->
    publishedMask g = Some (m, d) ->
    (invertMask (CONFIG g) = false /\ noPersonByte d)
    \/ (invertMask (CONFIG g) = true
        /\ (1 <= width m)%Z /\ (1 <= height m)%Z
        /\ allAlpha m d 255 /\ randOk rnd) ->
    let b' := snd (respawnBubble g rnd now_ms c b) in
    fst (fst (respawnPlace g rnd c b)) = false
    /\ fst (respawnBubble g rnd now_ms c b) = (c + 404)%nat
    /\ vy (position b') = - visibleHeight g / 2 - 5
    /\ depth (userData b') = depth (userData b).
Proof.
  intros g rnd now_ms c b m d Hbody Hpub Hcase b'.
  assert (Hrej : forall j, (j < 200)%nat ->
                           acceptedAt g rnd m d (S c) j = false).
  { intros j _. unfold acceptedAt. rewrite shouldSpawn_alpha. cbv zeta.
    destruct Hcase as [[Hinv Hno]|(Hinv & Hw & Hh & Hall & Hrnd)];
      rewrite Hinv.
    - destruct (js_index d _) as [a|] eqn:Ha; [|reflexivity].
      apply Z.ltb_ge. exact (js_index_noPersonByte d _ a Hno Ha).
    - destruct (maskPixel_in_range m (drawX rnd (S c) j) (drawY rnd (S c) j)
                  Hw Hh (Hrnd _) (Hrnd _)) as [Hx Hy].
      unfold maskPixel in Hx, Hy. simpl in Hx, Hy.
      pose proof (Hall _ _ Hx Hy) as Ha.
      rewrite Ha. reflexivity. }
  pose proof (respawnPlace_all_rejected g rnd c b m d Hbody Hpub Hrej) as Heq.
  unfold b', respawnBubble. rewrite Heq. simpl.
  repeat split. lia.
Qed.

Lemma noPersonByte_zeros n : noPersonByte (repeat x00 n).
Proof.
  unfold noPersonByte. apply Forall_forall. intros x Hx.
  apply repeat_spec in Hx. subst x. vm_compute. discriminate.
Qed.

Lemma empty_silhouette_falls_back_witness :
  vy (position (snd (respawnBubble globalsNobody rndHalf 0 0 bubble0))) =
    - visibleHeight globalsNobody / 2 - 5.
Proof.
  refine (proj1 (proj2 (proj2
    (empty_silhouette_falls_back globalsNobody rndHalf 0%Z 0%nat bubble0
       maskNobody (repeat x00 256) eq_refl eq_refl
       (or_introl (conj eq_refl (noPersonByte_zeros 256))))))).
Defined.

(** X10.  An alpha read outside the mask buffer counts as "not a person":
    with a published mask whose buffer is empty, [invertMask] on makes
    every respawn place the bubble at the pixel of the very first pair of
    draws, whatever the draws are, and [invertMask] off makes every respawn
    fall back. *)
Theorem empty_mask_buffer_reads_as_nobody :
  forall g rnd now_ms c b m,
    spawnOnBody (CONFIG g) = true ->
    publishedMask g = Some (m, []) ->
    width m <> 0%Z -> height m <> 0%Z ->
    let spawned := fst (fst (respawnPlace g rnd c b)) in
    let b' := snd (respawnBubble g rnd now_ms c b) in
    (invertMask (CONFIG g) = true ->
     spawned = true
     /\ vx (position b') = maskWorldX g m (fst (drawPixel rnd m (S c) 0))
     /\ vy (position b') = maskWorldY g m (snd (drawPixel rnd m (S c) 0))
     /\ fst (respawnBubble g rnd now_ms c b) = (c + 6)%nat)
    /\ (invertMask (CONFIG g) = false ->
        spawned = false /\ vy (position b') = - visibleHeight g / 2 - 5).
Proof.
  intros g rnd now_ms c b m Hbody Hpub _ _ spawned b'.
  assert (Hundef : forall i, js_index [] i = None).
  { intros i. unfold js_index. destruct (i <? 0)%Z; [reflexivity|].
    destruct (Z.to_nat i); reflexivity. }
  assert (Hacc : forall j, acceptedAt g rnd m [] (S c) j
                           = invertMask (CONFIG g)).
  { intros j. unfold acceptedAt. rewrite shouldSpawn_alpha. cbv zeta.
    rewrite Hundef. destruct (invertMask (CONFIG g)); reflexivity. }
  split.
  - intros Hinv.
    assert (Hd : data m = Some []).
    { unfold publishedMask in Hpub.
      destruct (segmentationResult g) as [seg|]; [|discriminate].
      destruct (mask seg) as [m'|]; [|discriminate].
      destruct (data m') as [d'|] eqn:Hd; [|discriminate].
      injection Hpub as -> ->. exact Hd. }
    assert (Hplace : respawnPlace g rnd c b = spawnLoop g rnd m 200 (S c) b).
    { unfold respawnPlace. rewrite Hbody. unfold publishedMask in Hpub.
      destruct (segmentationResult g) as [seg|]; [|discriminate].
      destruct (mask seg) as [m'|]; [|discriminate].
      destruct (data m') as [d'|]; [|discriminate].
      injection Hpub as -> _. reflexivity. }
    destruct (spawnLoop_first_accepted g rnd m [] Hd 200 (S c) b)
      as [(k & Hk & Hrej & _ & Heq)|[Hrej _]].
    + destruct k as [|k].
      * unfold spawned, b', respawnBubble. rewrite Hplace, Heq. simpl.
        repeat split. lia.
      * specialize (Hrej 0%nat ltac:(lia)). rewrite Hacc, Hinv in Hrej.
        discriminate.
    + specialize (Hrej 0%nat ltac:(lia)). rewrite Hacc, Hinv in Hrej.
      discriminate.
  - intros Hinv.
    assert (Hrej : forall j, (j < 200)%nat ->
                             acceptedAt g rnd m [] (S c) j = false).
    { intros j _. rewrite Hacc. exact Hinv. }
    pose proof (respawnPlace_all_rejected g rnd c b m [] Hbody Hpub Hrej)
      as Heq.
    unfold spawned, b', respawnBubble. rewrite Heq. simpl. split; reflexivity.
Qed.

Lemma empty_mask_buffer_reads_as_nobody_witness :
  fst (fst (respawnPlace globalsEmptyInverted rndHalf 0 bubble0)) = true.
Proof.
  assert (Hw : width maskEmpty <> 0%Z) by (simpl; lia).
  assert (Hh : height maskEmpty <> 0%Z) by (simpl; lia).
  exact (proj1 (proj1 (empty_mask_buffer_reads_as_nobody globalsEmptyInverted
                         rndHalf 0%Z 0%nat bubble0 maskEmpty eq_refl eq_refl
                         Hw Hh) eq_refl)).
Defined.

(** The scale that lines 536-543 set from a defined depth survives the tick
    unless the keypoint interaction changes it. *)
Lemma animateBubble_scale_from_depth g rnd time_ms now_ms c b v :
  depth (userData b) = Some v ->
  let s :=
    setScalar
      (num_lift (fun d => initialScale (userData b) * (0.5 + d * 1.5)) v) in
  let t := animateBubble g rnd time_ms now_ms c b in
  exists bm, scale bm = s /\ (snd t = bm \/ snd t = interactPoses g bm).
Proof.
  intros Hd s t.
  assert (Hstart : scale (tickStart g time_ms b) = s).
  { unfold tickStart, depthScale.
    change (userData (drift g (IZR time_ms * 0.001) b)) with (userData b).
    rewrite Hd. reflexivity. }
  assert (Htail : forall bx cx, scale bx = s ->
    exists bm, scale bm = s
      /\ snd (animateTail g rnd now_ms cx bx) = interactPoses g bm).
  { intros bx cx Hbx. unfold animateTail.
    destruct (Rltb (visibleHeight g / 2 + 5) (vy (position bx))).
    - exists (snd (respawnBubble g rnd now_ms cx bx)). split.
      + destruct (respawnBubble_scale g rnd now_ms cx bx) as [Hs _].
        rewrite Hs. exact Hbx.
      + destruct (respawnBubble g rnd now_ms cx bx). reflexivity.
    - exists bx. split; [exact Hbx|reflexivity]. }
  unfold t. rewrite animateBubble_unfold. cbv zeta.
  destruct (Rltb 0 (bubbleLifespan (CONFIG g))).
  - destruct (Rltb _ _).
    + exists (snd (respawnBubble g rnd now_ms c (tickStart g time_ms b))).
      split; [|left; reflexivity].
      destruct (respawnBubble_scale g rnd now_ms c (tickStart g time_ms b))
        as [Hs _].
      rewrite Hs. exact Hstart.
    + match goal with
      | |- context [animateTail g rnd now_ms c ?bx] =>
          destruct (Htail bx c Hstart) as (bm & Hbm & Heq)
      end.
      exists bm. split; [exact Hbm|right; exact Heq].
  - destruct (Htail _ c Hstart) as (bm & Hbm & Heq).
    exists bm. split; [exact Hbm|right; exact Heq].
Qed.

(** X11.  The depth read is not bounds-checked: when the depth buffer is
    published but too short for the sampled index (an empty buffer, for
    one), the spawn stores [NaN] as the bubble's depth instead of the
    default 0.5, and from then on every tick without keypoint interaction
    leaves the bubble with a [NaN] scale on all three axes; the far branch
    of the interaction keeps a [NaN] scale as well. *)
Theorem short_depth_buffer_poisons_scale :
  forall g rnd time_ms now_ms c b im d m mx my,
    publishedDepth g = Some (im, d) ->
    (0 <= mx < width m)%Z -> (0 <= my < height m)%Z ->
    (Z.of_nat (length d) <= depthIndex im mx my (width m) (height m))%Z ->
    depth (userData (spawnAt g m mx my b)) = Some NaN
    /\ (forall g2 r,
          depth (userData r) = Some NaN ->
          poses g2 = [] \/ spawnOnBody (CONFIG g2) = true ->
          scale (snd (animateBubble g2 rnd time_ms now_ms c r)) =
            setScalar NaN)
    /\ (forall g2 r k,
          scale r = setScalar NaN ->
          0.2 <= confidence k ->
          interactionRadius (CONFIG g2) <= keypointDist g2 r k ->
          scale (interactWithKeypoint g2 r (Some k)) = setScalar NaN).
Proof.
  intros g rnd time_ms now_ms c b im d m mx my Hpub _ _ Hshort.
  split; [|split].
  - change (depth (userData (spawnAt g m mx my b)))
      with (Some (sampleDepth g mx my (width m) (height m))).
    rewrite (sampleDepth_published g im d mx my _ _ Hpub).
    rewrite (js_index_beyond d _ Hshort). reflexivity.
  - intros g2 r Hnan Hoff.
    destruct (animateBubble_scale_from_depth g2 rnd time_ms now_ms c r NaN
                Hnan) as (bm & Hbm & [Heq|Heq]); rewrite Heq.
    + exact Hbm.
    + rewrite (interactPoses_off g2 bm Hoff). exact Hbm.
  - intros g2 r k Hs Hc Hfar.
    rewrite (interactWithKeypoint_far g2 r k Hc Hfar). simpl.
    rewrite Hs. reflexivity.
Qed.

Lemma short_depth_buffer_poisons_scale_witness :
  depth (userData (spawnAt globalsDepthEmpty mask8 3 4 bubble0)) = Some NaN.
Proof.
  refine (proj1 (short_depth_buffer_poisons_scale globalsDepthEmpty rndZero
                   0%Z 0%Z 0%nat bubble0 (mkImageBuf 4 4 (Some [])) []
                   mask8 3%Z 4%Z eq_refl _ _ _)); try (simpl; lia).
  assert (Hd : (0 <= 3 < 8)%Z /\ (0 <= 4 < 8)%Z) by lia.
  destruct Hd as [Hx Hy].
  assert (Hs : safeDims (mkImageBuf 4 4 (Some [])))
    by (unfold safeDims; simpl; lia).
  destruct (depthPixel_in_range (mkImageBuf 4 4 (Some [])) 3 4 8 8 Hx Hy
              ltac:(simpl; lia) ltac:(simpl; lia) Hs) as [H1 H2].
  unfold depthIndex. simpl in *. lia.
Defined.

(** X12.  With non-negative visible extents and masks of at least one
    pixel, every respawn puts the bubble between the left and right edges
    of the frame and not above its top edge: on the frame when a mask pixel
    was accepted, 5 below its bottom edge otherwise.  The test
    [position.y > visibleHeight / 2 + 5] of [animate] is therefore false
    right after a respawn. *)
Theorem respawn_lands_within_bounds :
  forall g rnd now_ms c b,
    randOk rnd -> 0 <= visibleWidth g -> 0 <= visibleHeight g ->
    (forall m d, publishedMask g = Some (m, d) ->
                 (1 <= width m)%Z /\ (1 <= height m)%Z) ->
    let spawned := fst (fst (respawnPlace g rnd c b)) in
    let b' := snd (respawnBubble g rnd now_ms c b) in
    - visibleWidth g / 2 <= vx (position b') <= visibleWidth g / 2
    /\ vy (position b') <= visibleHeight g / 2
    /\ (spawned = true -> - visibleHeight g / 2 <= vy (position b'))
    /\ (spawned = false -> vy (position b') = - visibleHeight g / 2 - 5)
    /\ Rltb (visibleHeight g / 2 + 5) (vy (position b')) = false.
Proof.
  intros g rnd now_ms c b Hrnd Hvw Hvh Hwf spawned b'.
  assert (Hcases :
    (spawned = true
     /\ exists qx qy, 0 <= qx < 1 /\ 0 <= qy < 1
          /\ vx (position b') = (1 - qx - 0.5) * visibleWidth g
          /\ vy (position b') = (1 - qy - 0.5) * visibleHeight g)
    \/ (spawned = false
        /\ exists u, 0 <= u < 1
             /\ vx (position b') = (u - 0.5) * visibleWidth g
             /\ vy (position b') = - visibleHeight g / 2 - 5)).
  { unfold spawned, b', respawnBubble.
    destruct (fst (fst (respawnPlace g rnd c b))) eqn:Hsp.
    - left. split; [reflexivity|].
      destruct (respawnPlace_spawned g rnd c b Hsp)
        as (m & d & k & _ & Hpub & _ & _ & Heq).
      destruct (Hwf m d Hpub) as [Hw Hh].
      destruct (maskPixel_in_range m (drawX rnd (S c) k) (drawY rnd (S c) k)
                  Hw Hh (Hrnd _) (Hrnd _)) as [Hx Hy].
      fold (drawPixel rnd m (S c) k) in Hx, Hy.
      exists (IZR (fst (drawPixel rnd m (S c) k)) / IZR (width m)),
             (IZR (snd (drawPixel rnd m (S c) k)) / IZR (height m)).
      split; [apply ratio_unit; exact Hx|].
      split; [apply ratio_unit; exact Hy|].
      destruct (respawnPlace g rnd c b) as [[sp c1] b1].
      simpl in Hsp, Heq. subst sp b1. split; reflexivity.
    - right. split; [reflexivity|].
      pose proof (respawnPlace_failed g rnd c b Hsp) as Heq.
      destruct (respawnPlace g rnd c b) as [[sp c1] b1].
      simpl in Hsp, Heq. subst sp b1.
      exists (rnd c1). split; [apply Hrnd|]. split; reflexivity. }
  destruct Hcases as [(Hsp & qx & qy & Hqx & Hqy & Hx & Hy)
                     |(Hsp & u & Hu & Hx & Hy)].
  - rewrite Hx, Hy. split; [split; nra|]. split; [nra|].
    split; [intros _; nra|]. split; [rewrite Hsp; discriminate|].
    apply Rltb_false. nra.
  - rewrite Hx, Hy. split; [split; nra|]. split; [nra|].
    split; [rewrite Hsp; discriminate|]. split; [reflexivity|].
    apply Rltb_false. nra.
Qed.

Lemma respawn_lands_within_bounds_witness :
  Rltb (visibleHeight globalsMask8 / 2 + 5)
    (vy (position (snd (respawnBubble globalsMask8 rndHalf 0 0 bubble0)))) =
  false.
Proof.
  assert (Hw : 0 <= visibleWidth globalsMask8) by (simpl; lra).
  assert (Hh : 0 <= visibleHeight globalsMask8) by (simpl; lra).
  assert (Hwf : forall m d, publishedMask globalsMask8 = Some (m, d) ->
                            (1 <= width m)%Z /\ (1 <= height m)%Z).
  { intros m d Hpub. injection Hpub as <- _. simpl. lia. }
  exact (proj2 (proj2 (proj2 (proj2
    (respawn_lands_within_bounds globalsMask8 rndHalf 0%Z 0%nat bubble0
       randOk_rndHalf Hw Hh Hwf))))).
Defined.

(** ** The keypoint interaction, repeated *)

Lemma interactWithKeypoint_near_distance g b k :
  0.2 <= confidence k ->
  keypointDist g b k < interactionRadius (CONFIG g) ->
  keypointDist g (interactWithKeypoint g b (Some k)) k =
    keypointDist g b k
    + (interactionRadius (CONFIG g) - keypointDist g b k)
      / interactionRadius (CONFIG g) * 0.8.
Proof.
  intros Hc Hd.
  pose proof (sqrt_pos ((vx (position b) - targetX g k)
                        * (vx (position b) - targetX g k)
                        + (vy (position b) - targetY g k)
                          * (vy (position b) - targetY g k))) as Hd0.
  fold (keypointDist g b k) in Hd0.
  set (radius := interactionRadius (CONFIG g)) in *.
  set (d := keypointDist g b k) in *.
  assert (Hr : 0 < radius) by lra.
  assert (Hm : 0 <= (radius - d) / radius * 0.8).
  { assert (0 <= (radius - d) / radius); [|lra].
    apply Rmult_le_pos; [lra|left; apply Rinv_0_lt_compat; exact Hr]. }
  rewrite (interactWithKeypoint_near g b k Hc Hd). cbv zeta.
  fold radius d. unfold keypointDist at 1. simpl.
  set (dx := vx (position b) - targetX g k).
  set (dy := vy (position b) - targetY g k).
  set (m := (radius - d) / radius * 0.8) in *.
  change (sqrt (dx * dx + dy * dy)) with (hypot dx dy) in *.
  match goal with
  | |- sqrt (?a * ?a + ?e * ?e) = _ =>
      change (sqrt (a * a + e * e)) with (hypot a e);
      replace a with (dx + cos (atan2 dy dx) * m)
        by (unfold dx, m; lra);
      replace e with (dy + sin (atan2 dy dx) * m)
        by (unfold dy, m; lra)
  end.
  rewrite push_distance by exact Hm. reflexivity.
Qed.

(** X13.  A push never throws the bubble past the interaction radius when
    the radius exceeds 0.8: the gap between the radius and the distance to
    the target shrinks by the factor [1 - 0.8 / radius], so the bubble ends
    strictly farther from the target and still strictly inside the radius.
    With a radius of at most 0.8 a single push takes it to the radius or
    beyond. *)
Theorem push_contracts_gap_to_radius :
  forall g b k,
    video_width g <> 0 -> video_height g <> 0 ->
    0.2 <= confidence k ->
    keypointDist g b k < interactionRadius (CONFIG g) ->
    let radius := interactionRadius (CONFIG g) in
    let d := keypointDist g b k in
    let d' := keypointDist g (interactWithKeypoint g b (Some k)) k in
    radius - d' = (radius - d) * (1 - 0.8 / radius)
    /\ (0.8 < radius -> d < d' < radius)
    /\ (radius <= 0.8 -> radius <= d').
Proof.
  intros g b k _ _ Hc Hd radius d d'.
  assert (Hd0 : 0 <= d) by apply sqrt_pos.
  assert (Hr : 0 < radius) by (unfold radius; fold d in Hd; lra).
  assert (Heq : d' = d + (radius - d) / radius * 0.8).
  { apply interactWithKeypoint_near_distance; assumption. }
  fold radius d in Hd.
  set (q := / radius) in *.
  assert (Hq : 0 < q) by (apply Rinv_0_lt_compat; exact Hr).
  assert (Hqr : radius * q = 1) by (unfold q; apply Rinv_r; lra).
  unfold Rdiv in *. fold q. fold q in Heq.
  split; [rewrite Heq; nra|]. split.
  - intros Hbig. rewrite Heq. split; nra.
  - intros Hsmall. rewrite Heq. nra.
Qed.

Lemma push_contracts_gap_to_radius_witness :
  keypointDist globalsSkeleton (bubbleAt 3 4) keypointCentre
  < keypointDist globalsSkeleton
      (interactWithKeypoint globalsSkeleton (bubbleAt 3 4)
         (Some keypointCentre)) keypointCentre
  < 10.
Proof.
  assert (Hvw : video_width globalsSkeleton <> 0) by (simpl; lra).
  assert (Hvh : video_height globalsSkeleton <> 0) by (simpl; lra).
  assert (Hc : 0.2 <= confidence keypointCentre) by (simpl; lra).
  assert (H5 : keypointDist globalsSkeleton (bubbleAt 3 4) keypointCentre = 5)
    by (apply keypointDist_centre; lra).
  assert (Hd : keypointDist globalsSkeleton (bubbleAt 3 4) keypointCentre
               < interactionRadius (CONFIG globalsSkeleton))
    by (rewrite H5; simpl; lra).
  apply (proj1 (proj2 (push_contracts_gap_to_radius globalsSkeleton
                         (bubbleAt 3 4) keypointCentre Hvw Hvh Hc Hd))).
  simpl. lra.
Defined.

(** ** Which keypoints interact *)

Lemma forEachKeypoint_from_5 g :
  forall kps index b,
    (5 <= index)%Z ->
    forEachKeypoint g kps index b =
      fold_left (interactStep g) (firstn (Z.to_nat (17 - index)) kps) b.
Proof.
  induction kps as [|k kps IH]; intros index b Hi.
  - rewrite firstn_nil. reflexivity.
  - cbn [forEachKeypoint].
    destruct (Z_le_gt_dec index 16) as [Hle|Hgt].
    + assert (Hin : ((5 <=? index)%Z && (index <=? 16)%Z)%bool = true).
      { apply andb_true_intro. split; apply Z.leb_le; lia. }
      rewrite Hin, IH by lia.
      replace (Z.to_nat (17 - index)) with (S (Z.to_nat (17 - (index + 1))))
        by lia.
      reflexivity.
    + assert (Hout : ((5 <=? index)%Z && (index <=? 16)%Z)%bool = false).
      { apply andb_false_intro2. apply Z.leb_gt. lia. }
      rewrite Hout, IH by lia.
      replace (Z.to_nat (17 - index)) with 0%nat by lia.
      replace (Z.to_nat (17 - (index + 1))) with 0%nat by lia.
      reflexivity.
Qed.

Lemma forEachKeypoint_skip g :
  forall n kps index b,
    (index + Z.of_nat n <= 5)%Z ->
    forEachKeypoint g kps index b =
      forEachKeypoint g (skipn n kps) (index + Z.of_nat n)%Z b.
Proof.
  induction n as [|n IH]; intros kps index b Hi.
  - simpl. replace (index + 0)%Z with index by lia. reflexivity.
  - destruct kps as [|k kps].
    + reflexivity.
    + cbn [forEachKeypoint skipn].
      assert (Hout : ((5 <=? index)%Z && (index <=? 16)%Z)%bool = false).
      { apply andb_false_intro1. apply Z.leb_gt. lia. }
      rewrite Hout, IH by lia.
      replace (index + 1 + Z.of_nat n)%Z with (index + Z.of_nat (S n))%Z
        by lia.
      reflexivity.
Qed.

Lemma forEachKeypoint_window g kps b :
  forEachKeypoint g kps 0%Z b =
    fold_left (interactStep g) (firstn 12 (skipn 5 kps)) b.
Proof.
  rewrite (forEachKeypoint_skip g 5 kps 0%Z b) by lia.
  rewrite forEachKeypoint_from_5 by lia. reflexivity.
Qed.

(** X14.  Of the keypoints of a pose, [animate] lets exactly those at
    indices 5 to 16 interact, in order: the five face keypoints and any
    keypoint past index 16 never do, so two poses that agree on indices 5
    to 16 act alike, and a pose with at most five keypoints does nothing in
    the keypoint loop. *)
Theorem only_limb_keypoints_interact :
  forall g kps b,
    forEachKeypoint g kps 0%Z b =
      fold_left (interactStep g) (firstn 12 (skipn 5 kps)) b
    /\ (forall face tail limbs,
          length face = 5%nat -> length limbs = 12%nat ->
          kps = face ++ limbs ++ tail ->
          forEachKeypoint g kps 0%Z b = fold_left (interactStep g) limbs b)
    /\ ((length kps <= 5)%nat -> forEachKeypoint g kps 0%Z b = b).
Proof.
  intros g kps b.
  split; [apply forEachKeypoint_window|]. split.
  - intros face tail limbs Hf Hl ->. rewrite forEachKeypoint_window.
    do 6 (destruct face as [|? face]; try discriminate Hf).
    do 13 (destruct limbs as [|? limbs]; try discriminate Hl).
    reflexivity.
  - intros Hlen. rewrite forEachKeypoint_window.
    rewrite skipn_all2 by lia. reflexivity.
Qed.

Lemma only_limb_keypoints_interact_witness :
  forEachKeypoint globalsSkeleton
    [keypointCentre; keypointCentre; keypointCentre] 0%Z (bubbleAt 3 4) =
  bubbleAt 3 4.
Proof.
  apply (proj2 (proj2 (only_limb_keypoints_interact globalsSkeleton
                         [keypointCentre; keypointCentre; keypointCentre]
                         (bubbleAt 3 4)))).
  simpl. lia.
Defined.

Lemma interactStep_low g b k :
  confidence k < 0.2 -> interactStep g b k = b.
Proof.
  intros Hc. unfold interactStep, interactWithKeypoint.
  apply Rltb_true in Hc. rewrite Hc. reflexivity.
Qed.

Lemma forEachKeypoint_low g :
  forall kps index b,
    Forall (fun k => confidence k < 0.2) kps ->
    forEachKeypoint g kps index b = b.
Proof.
  induction kps as [|k kps IH]; intros index b Hall.
  - reflexivity.
  - inversion Hall as [|? ? Hk Hrest]; subst.
    cbn [forEachKeypoint].
    fold (interactStep g b k). rewrite (interactStep_low g b k Hk).
    destruct ((5 <=? index)%Z && (index <=? 16)%Z)%bool; apply IH; exact Hrest.
Qed.

(** X15.  A pose whose keypoints all have confidence below 0.2 moves no
    bubble through its keypoints, but it still acts through the torso
    point when both shoulders and both hips have confidence above 0.1: the
    torso point is given confidence 1.  It does nothing at all when it has
    at most 12 keypoints or when every confidence is at most 0.1. *)
Theorem unconfident_pose_acts_through_torso_only :
  forall g b pose kps,
    keypoints pose = Some kps ->
    Forall (fun k => confidence k < 0.2) kps ->
    (forall s1 s2 h1 h2,
        nth_error kps 5 = Some s1 -> nth_error kps 6 = Some s2 ->
        nth_error kps 11 = Some h1 -> nth_error kps 12 = Some h2 ->
        0.1 < confidence s1 -> 0.1 < confidence s2 ->
        0.1 < confidence h1 -> 0.1 < confidence h2 ->
        interactPose g b pose =
          interactWithKeypoint g b (Some (torsoKeypoint s1 s2 h1 h2)))
    /\ ((length kps <= 12)%nat -> interactPose g b pose = b)
    /\ (Forall (fun k => confidence k <= 0.1) kps ->
        interactPose g b pose = b).
Proof.
  intros g b pose kps Hk Hlow.
  unfold interactPose. rewrite Hk, (forEachKeypoint_low g kps 0%Z b Hlow).
  split; [|split].
  - intros s1 s2 h1 h2 H5 H6 H11 H12 Hs1 Hs2 Hh1 Hh2.
    rewrite H5, H6, H11, H12.
    apply Rltb_true in Hs1, Hs2, Hh1, Hh2.
    rewrite Hs1, Hs2, Hh1, Hh2. reflexivity.
  - intros Hlen.
    assert (H12 : nth_error kps 12 = None) by (apply nth_error_None; lia).
    rewrite H12.
    destruct (nth_error kps 5); [|reflexivity].
    destruct (nth_error kps 6); [|reflexivity].
    destruct (nth_error kps 11); reflexivity.
  - intros Hall.
    destruct (nth_error kps 5) as [s1|] eqn:H5; [|reflexivity].
    assert (Hs1 : Rltb 0.1 (confidence s1) = false).
    { apply Rltb_false. rewrite Forall_forall in Hall. apply Hall.
      exact (nth_error_In kps 5 H5). }
    rewrite Hs1.
    destruct (nth_error kps 6); [|reflexivity].
    destruct (nth_error kps 11); [|reflexivity].
    destruct (nth_error kps 12); reflexivity.
Qed.

Lemma unconfident_pose_acts_through_torso_only_witness :
  interactPose globalsSkeleton (bubbleAt 3 4)
    (mkPose (Some [keypointFaint; keypointFaint])) = bubbleAt 3 4.
Proof.
  assert (Hlow : Forall (fun k => confidence k < 0.2)
                   [keypointFaint; keypointFaint]).
  { repeat constructor; simpl; lra. }
  apply (proj1 (proj2 (unconfident_pose_acts_through_torso_only
                         globalsSkeleton (bubbleAt 3 4)
                         (mkPose (Some [keypointFaint; keypointFaint]))
                         [keypointFaint; keypointFaint] eq_refl Hlow))).
  simpl. lia.
Defined.

(** ** Relaxation of the scale *)

Lemma Forall_firstn_keep {A} (P : A -> Prop) (l : list A) :
  forall n, Forall P l -> Forall P (firstn n l).
Proof.
  induction l as [|x l IH]; intros n Hall.
  - rewrite firstn_nil. constructor.
  - destruct n as [|n]; [constructor|].
    inversion Hall; subst. simpl. constructor; [assumption|].
    apply IH. assumption.
Qed.

Lemma Forall_skipn_keep {A} (P : A -> Prop) (l : list A) :
  forall n, Forall P l -> Forall P (skipn n l).
Proof.
  induction l as [|x l IH]; intros n Hall.
  - rewrite skipn_nil. constructor.
  - destruct n as [|n]; [exact Hall|].
    inversion Hall; subst. simpl. apply IH. assumption.
Qed.

Lemma fold_far_keypoints g :
  forall ks b sx sy sz,
    Forall (farKeypoint g b) ks ->
    scale b = mkVector3 (Fin sx) (Fin sy) (Fin sz) ->
    let rest := initialScale (userData b) in
    let b' := fold_left (interactStep g) ks b in
    let relax s := rest + 0.9 ^ length ks * (s - rest) in
    position b' = position b
    /\ userData b' = userData b
    /\ scale b' =
         mkVector3 (Fin (relax sx)) (Fin (relax sy)) (Fin (relax sz)).
Proof.
  induction ks as [|k ks IH]; intros b sx sy sz Hall Hs; cbv zeta.
  - simpl. rewrite Hs. repeat split. f_equal; f_equal; lra.
  - inversion Hall as [|? ? [Hc Hfar] Hrest]; subst.
    cbn [fold_left length].
    pose proof (interactWithKeypoint_far g b k Hc Hfar) as Heq.
    fold (interactStep g b k) in Heq.
    set (rest := initialScale (userData b)) in *.
    assert (Hs1 : scale (interactStep g b k) =
                  mkVector3 (Fin (sx + (rest - sx) * 0.1))
                            (Fin (sy + (rest - sy) * 0.1))
                            (Fin (sz + (rest - sz) * 0.1))).
    { rewrite Heq. simpl. rewrite Hs. reflexivity. }
    assert (Hp1 : position (interactStep g b k) = position b)
      by (rewrite Heq; reflexivity).
    assert (Hu1 : userData (interactStep g b k) = userData b)
      by (rewrite Heq; reflexivity).
    assert (Hall1 : Forall (farKeypoint g (interactStep g b k)) ks).
    { eapply Forall_impl; [|exact Hrest].
      intros k' [Hc' Hfar']. split; [exact Hc'|].
      unfold keypointDist in *. rewrite Hp1. exact Hfar'. }
    destruct (IH (interactStep g b k) _ _ _ Hall1 Hs1) as (Hp & Hu & Hsc).
    rewrite Hp, Hu, Hsc, Hp1, Hu1. fold rest.
    split; [reflexivity|]. split; [reflexivity|].
    f_equal; f_equal; simpl; lra.
Qed.

(** X16.  Interactions with keypoints that are confident and at least an
    interaction radius away leave the position and relax the scale
    geometrically: after [n] of them every scale component is
    [initialScale + 0.9 ^ n * (s - initialScale)].  Within one pose this is
    the number of such keypoints among indices 5 to 16. *)
Theorem far_keypoints_relax_scale_geometrically :
  forall g ks b sx sy sz,
    Forall (farKeypoint g b) ks ->
    scale b = mkVector3 (Fin sx) (Fin sy) (Fin sz) ->
    let rest := initialScale (userData b) in
    let relax n s := rest + 0.9 ^ n * (s - rest) in
    let n := length (firstn 12 (skipn 5 ks)) in
    position (fold_left (interactStep g) ks b) = position b
    /\ scale (fold_left (interactStep g) ks b) =
         mkVector3 (Fin (relax (length ks) sx)) (Fin (relax (length ks) sy))
                   (Fin (relax (length ks) sz))
    /\ position (forEachKeypoint g ks 0%Z b) = position b
    /\ scale (forEachKeypoint g ks 0%Z b) =
         mkVector3 (Fin (relax n sx)) (Fin (relax n sy)) (Fin (relax n sz)).
Proof.
  intros g ks b sx sy sz Hall Hs rest relax n.
  destruct (fold_far_keypoints g ks b sx sy sz Hall Hs) as (Hp & _ & Hsc).
  assert (Hwin : Forall (farKeypoint g b) (firstn 12 (skipn 5 ks))).
  { apply Forall_firstn_keep. apply Forall_skipn_keep. exact Hall. }
  destruct (fold_far_keypoints g _ b sx sy sz Hwin Hs) as (Hp' & _ & Hsc').
  rewrite forEachKeypoint_window.
  repeat split; assumption.
Qed.

Lemma far_keypoints_relax_scale_geometrically_witness :
  position (fold_left (interactStep globalsSkeleton)
              [keypointCentre; keypointCentre] (bubbleAt 30 40)) =
  position (bubbleAt 30 40).
Proof.
  assert (Hfar : farKeypoint globalsSkeleton (bubbleAt 30 40) keypointCentre).
  { split; [simpl; lra|].
    rewrite (keypointDist_centre 30 40 50) by lra. simpl. lra. }
  exact (proj1 (far_keypoints_relax_scale_geometrically globalsSkeleton
                  [keypointCentre; keypointCentre] (bubbleAt 30 40)
                  0.4 0.4 0.4
                  (Forall_cons _ Hfar (Forall_cons _ Hfar (Forall_nil _)))
                  eq_refl)).
Defined.

(** ** Motion between respawns *)

(** A tick that leaves the cursor where it was has respawned nothing: the
    bubble it returns is the drifted bubble, possibly with a new opacity,
    after the keypoint interaction. *)
Lemma animateBubble_no_respawn g rnd time_ms now_ms c b :
  fst (animateBubble g rnd time_ms now_ms c b) = c ->
  exists bx,
    position bx = position (drift g (IZR time_ms * 0.001) b)
    /\ userData bx = userData b
    /\ vy (position bx) <= visibleHeight g / 2 + 5
    /\ snd (animateBubble g rnd time_ms now_ms c b) = interactPoses g bx.
Proof.
  rewrite animateBubble_unfold. cbv zeta.
  assert (Hpos : position (tickStart g time_ms b) =
                 position (drift g (IZR time_ms * 0.001) b)).
  { unfold tickStart.
    destruct (depthScale_frame (drift g (IZR time_ms * 0.001) b))
      as (_ & Hp & _). exact Hp. }
  pose proof (tickStart_userData g time_ms b) as Hud.
  assert (Htail : forall bx,
    position bx = position (tickStart g time_ms b) ->
    userData bx = userData b ->
    fst (animateTail g rnd now_ms c bx) = c ->
    exists bx',
      position bx' = position (drift g (IZR time_ms * 0.001) b)
      /\ userData bx' = userData b
      /\ vy (position bx') <= visibleHeight g / 2 + 5
      /\ snd (animateTail g rnd now_ms c bx) = interactPoses g bx').
  { intros bx Hp Hu Hc.
    destruct (animateTail_no_respawn g rnd now_ms c bx Hc) as [Hin Heq].
    exists bx. rewrite Heq, Hp, Hpos. repeat split; try assumption.
    rewrite <- Hpos, <- Hp. exact Hin. }
  destruct (Rltb 0 (bubbleLifespan (CONFIG g))).
  - destruct (Rltb _ _).
    + intros Hc.
      pose proof (respawnBubble_cursor g rnd now_ms c
                    (tickStart g time_ms b)). lia.
    + apply Htail; [reflexivity|exact Hud].
  - apply Htail; [reflexivity|exact Hud].
Qed.

(** X17.  In a tick that respawns nothing, the bubble moves in [z] by at
    most 0.01; without keypoint interaction it rises by exactly
    [bubbleSpeed * velocityMultiplier], moves sideways by at most 0.01, and
    ends no higher than [visibleHeight / 2 + 5]. *)
Theorem tick_motion_without_respawn :
  forall g rnd time_ms now_ms c b,
    let t := animateBubble g rnd time_ms now_ms c b in
    fst t = c ->
    Rabs (vz (position (snd t)) - vz (position b)) <= 0.01
    /\ userData (snd t) = userData b
    /\ (poses g = [] \/ spawnOnBody (CONFIG g) = true ->
        vy (position (snd t)) =
          vy (position b)
          + bubbleSpeed (CONFIG g) * velocityMultiplier (userData b)
        /\ Rabs (vx (position (snd t)) - vx (position b)) <= 0.01
        /\ vy (position (snd t)) <= visibleHeight g / 2 + 5).
Proof.
  intros g rnd time_ms now_ms c b t Hc.
  destruct (animateBubble_no_respawn g rnd time_ms now_ms c b Hc)
    as (bx & Hp & Hu & Hin & Heq).
  fold t in Heq.
  destruct (interactPoses_frame g bx) as (Hiu & _ & Hiz).
  assert (Hbound : forall a, Rabs (a * 0.01) <= 0.01 <-> -1 <= a <= 1).
  { intros a. unfold Rabs. destruct (Rcase_abs (a * 0.01)); split; intros;
      try split; lra. }
  split; [|split].
  - rewrite Heq, Hiz, Hp. simpl.
    match goal with
    | |- Rabs (?z + ?w * 0.01 - ?z) <= _ =>
        replace (z + w * 0.01 - z) with (w * 0.01) by ring;
        apply Hbound; apply COS_bound
    end.
  - rewrite Heq, Hiu. exact Hu.
  - intros Hoff. rewrite Heq, (interactPoses_off g bx Hoff).
    split; [rewrite Hp; reflexivity|]. split; [|exact Hin].
    rewrite Hp. simpl.
    match goal with
    | |- Rabs (?x + ?w * 0.01 - ?x) <= _ =>
        replace (x + w * 0.01 - x) with (w * 0.01) by ring;
        apply Hbound; apply SIN_bound
    end.
Qed.

Lemma tick_motion_without_respawn_witness :
  vy (position (snd (animateBubble globalsMask8 rndZero 7000 7000 0
                       bubble0))) = 2 + 2.5 * 0.05.
Proof.
  assert (Hc : fst (animateBubble globalsMask8 rndZero 7000 7000 0 bubble0)
               = 0%nat).
  { rewrite animateBubble_unfold. cbv zeta.
    assert (H1 : Rltb 0 (bubbleLifespan (CONFIG globalsMask8)) = true)
      by (apply Rltb_true; simpl; lra).
    assert (H2 : Rltb (bubbleLifespan (CONFIG globalsMask8)
                       * lifespanMultiplier (userData bubble0))
                      (IZR 7000 * 0.001 - birthTime (userData bubble0))
                 = false) by (apply Rltb_false; simpl; lra).
    rewrite H1, H2. rewrite animateTail_in_frame; [reflexivity|].
    unfold tickStart, depthScale, drift. simpl. lra. }
  destruct (tick_motion_without_respawn globalsMask8 rndZero 7000%Z 7000%Z
              0%nat bubble0 Hc) as (_ & _ & Hoff).
  destruct (Hoff (or_introl eq_refl)) as (Hy & _). exact Hy.
Defined.

Lemma tick_step_aux g rnd time_ms now_ms c b :
  poses g = [] \/ spawnOnBody (CONFIG g) = true ->
  fst (animateBubble g rnd time_ms now_ms c b) = c ->
  vy (position (snd (animateBubble g rnd time_ms now_ms c b))) =
    vy (position b) + bubbleSpeed (CONFIG g) * velocityMultiplier (userData b)
  /\ userData (snd (animateBubble g rnd time_ms now_ms c b)) = userData b
  /\ vy (position (snd (animateBubble g rnd time_ms now_ms c b)))
     <= visibleHeight g / 2 + 5.
Proof.
  intros Hoff Hc.
  destruct (animateBubble_no_respawn g rnd time_ms now_ms c b Hc)
    as (bx & Hp & Hu & Hin & Heq).
  rewrite Heq, (interactPoses_off g bx Hoff), Hp, Hu.
  split; [reflexivity|]. split; [reflexivity|].
  rewrite <- Hp. exact Hin.
Qed.

Lemma runTicks_cursor g rnd :
  forall frames c b, (c <= fst (runTicks g rnd frames c b))%nat.
Proof.
  induction frames as [|[time_ms now_ms] rest IH]; intros c b.
  - simpl. lia.
  - cbn [runTicks].
    pose proof (animateBubble_cursor g rnd time_ms now_ms c b) as Hc.
    destruct (animateBubble g rnd time_ms now_ms c b) as [c1 b1].
    simpl in Hc. pose proof (IH c1 b1). lia.
Qed.

Lemma runTicks_no_respawn g rnd :
  poses g = [] \/ spawnOnBody (CONFIG g) = true ->
  forall frames c b,
    fst (runTicks g rnd frames c b) = c ->
    let v := bubbleSpeed (CONFIG g) * velocityMultiplier (userData b) in
    let b' := snd (runTicks g rnd frames c b) in
    vy (position b') = vy (position b) + INR (length frames) * v
    /\ userData b' = userData b
    /\ (frames <> [] -> vy (position b') <= visibleHeight g / 2 + 5).
Proof.
  intros Hoff frames.
  induction frames as [|[time_ms now_ms] rest IH]; intros c b Hc; cbv zeta.
  - simpl. split; [lra|]. split; [reflexivity|]. intros H. contradiction.
  - cbn [runTicks] in *.
    pose proof (animateBubble_cursor g rnd time_ms now_ms c b) as Hc1.
    pose proof (tick_step_aux g rnd time_ms now_ms c b Hoff) as Hstep.
    destruct (animateBubble g rnd time_ms now_ms c b) as [c1 b1].
    simpl in Hc1, Hstep.
    pose proof (runTicks_cursor g rnd rest c1 b1) as Hc2.
    assert (Hc1' : c1 = c) by lia. subst c1.
    destruct (Hstep eq_refl) as (Hy1 & Hu1 & Hin1).
    destruct (IH c b1 Hc) as (Hy & Hu & Hin).
    rewrite Hu1 in Hy.
    split.
    + rewrite Hy, Hy1.
      change (length ((time_ms, now_ms) :: rest)) with (S (length rest)).
      rewrite S_INR. lra.
    + split; [rewrite Hu; exact Hu1|]. intros _.
      destruct rest as [|fr rest'].
      * exact Hin1.
      * apply Hin. discriminate.
Qed.

(** X18.  While nothing interacts with it, a bubble that goes [n] frames in
    a row without a respawn has risen by exactly [n] times
    [bubbleSpeed * velocityMultiplier] and is still no higher than
    [visibleHeight / 2 + 5]; with a positive [bubbleSpeed] and
    [velocityMultiplier] the number of such frames is therefore at most
    [(visibleHeight / 2 + 5 - y) / (bubbleSpeed * velocityMultiplier)]: the
    bubble is respawned in time, whatever the lifespan setting. *)
Theorem drifting_bubble_respawns_in_time :
  forall g rnd frames c b,
    poses g = [] \/ spawnOnBody (CONFIG g) = true ->
    fst (runTicks g rnd frames c b) = c ->
    frames <> [] ->
    let v := bubbleSpeed (CONFIG g) * velocityMultiplier (userData b) in
    let b' := snd (runTicks g rnd frames c b) in
    vy (position b') = vy (position b) + INR (length frames) * v
    /\ vy (position b') <= visibleHeight g / 2 + 5
    /\ (0 < v ->
        INR (length frames)
        <= (visibleHeight g / 2 + 5 - vy (position b)) / v).
Proof.
  intros g rnd frames c b Hoff Hc Hne v b'.
  destruct (runTicks_no_respawn g rnd Hoff frames c b Hc) as (Hy & _ & Hin).
  fold v b' in Hy. fold b' in Hin. specialize (Hin Hne).
  split; [exact Hy|]. split; [exact Hin|].
  intros Hv.
  apply (Rmult_le_reg_r v); [exact Hv|].
  unfold Rdiv. rewrite Rmult_assoc, Rinv_l by lra. lra.
Qed.

Lemma drifting_bubble_respawns_in_time_witness :
  INR (length [(7000%Z, 7000%Z)])
  <= (visibleHeight globalsMask8 / 2 + 5 - vy (position bubble0))
     / (bubbleSpeed (CONFIG globalsMask8)
        * velocityMultiplier (userData bubble0)).
Proof.
  assert (Hc : fst (runTicks globalsMask8 rndZero [(7000%Z, 7000%Z)] 0
                      bubble0) = 0%nat).
  { cbn [runTicks].
    assert (H : fst (animateBubble globalsMask8 rndZero 7000 7000 0 bubble0)
                = 0%nat).
    { rewrite animateBubble_unfold. cbv zeta.
      assert (H1 : Rltb 0 (bubbleLifespan (CONFIG globalsMask8)) = true)
        by (apply Rltb_true; simpl; lra).
      assert (H2 : Rltb (bubbleLifespan (CONFIG globalsMask8)
                         * lifespanMultiplier (userData bubble0))
                        (IZR 7000 * 0.001 - birthTime (userData bubble0))
                   = false) by (apply Rltb_false; simpl; lra).
      rewrite H1, H2. rewrite animateTail_in_frame; [reflexivity|].
      unfold tickStart, depthScale, drift. simpl. lra. }
    destruct (animateBubble globalsMask8 rndZero 7000 7000 0 bubble0).
    exact H. }
  apply (proj2 (proj2 (drifting_bubble_respawns_in_time globalsMask8 rndZero
                         [(7000%Z, 7000%Z)] 0%nat bubble0
                         (or_introl eq_refl) Hc ltac:(discriminate)))).
  simpl. lra.
Defined.

(** ** The skeleton overlay *)

Lemma clearGroup_empty children : clearGroup children = [].
Proof.
  induction children as [|x rest IH]; [reflexivity|exact IH].
Qed.

Lemma drawPoses_complete g video :
  forall ps acc,
    Forall hasKeypoints ps ->
    drawPoses g video ps acc =
      Drawn (acc ++ flat_map (poseChildren g video) ps).
Proof.
  induction ps as [|pose rest IH]; intros acc Hall.
  - simpl. rewrite app_nil_r. reflexivity.
  - inversion Hall as [|? ? Hp Hrest]; subst.
    cbn [drawPoses flat_map]. unfold poseChildren at 1.
    unfold hasKeypoints in Hp.
    destruct (keypoints pose) as [kps|]; [|contradiction].
    rewrite IH by exact Hrest. rewrite <- !app_assoc. reflexivity.
Qed.

Lemma drawPoses_broken g video :
  forall before acc pose after,
    Forall hasKeypoints before ->
    keypoints pose = None ->
    drawPoses g video (before ++ pose :: after) acc =
      Threw (acc ++ flat_map (poseChildren g video) before).
Proof.
  induction before as [|p rest IH]; intros acc pose after Hall Hnone.
  - simpl. rewrite Hnone, app_nil_r. reflexivity.
  - inversion Hall as [|? ? Hp Hrest]; subst.
    cbn [app drawPoses flat_map]. unfold poseChildren at 1.
    unfold hasKeypoints in Hp.
    destruct (keypoints p) as [kps|]; [|contradiction].
    rewrite IH by assumption. rewrite <- !app_assoc. reflexivity.
Qed.

(** X19.  [updateSkeleton] rebuilds the group from nothing: when every pose
    has keypoints, the new children are the points and lines of the poses
    in order and none of the old ones.  A pose without keypoints makes it
    raise after the poses before it are drawn, and the frame is then
    abandoned before any bubble is updated: pool and cursor are untouched.
    With no pose at all, [animate] does not call it, so the old children
    stay. *)
Theorem skeleton_rebuilt_or_frame_abandoned :
  forall g video rnd time_ms now_of c old pool,
    (Forall hasKeypoints (poses g) ->
     updateSkeleton g video old =
       Drawn (flat_map (poseChildren g video) (poses g))
     /\ (poses g <> [] ->
         animateFrame g video rnd time_ms now_of c old pool =
           FrameDone (flat_map (poseChildren g video) (poses g))
             (fst (animate g rnd time_ms now_of c pool))
             (snd (animate g rnd time_ms now_of c pool))))
    /\ (forall before pose after,
          poses g = before ++ pose :: after ->
          Forall hasKeypoints before -> keypoints pose = None ->
          updateSkeleton g video old =
            Threw (flat_map (poseChildren g video) before)
          /\ animateFrame g video rnd time_ms now_of c old pool =
               FrameThrew (flat_map (poseChildren g video) before) c pool)
    /\ (poses g = [] ->
        animateFrame g video rnd time_ms now_of c old pool =
          FrameDone old (fst (animate g rnd time_ms now_of c pool))
            (snd (animate g rnd time_ms now_of c pool))).
Proof.
  intros g video rnd time_ms now_of c old pool.
  assert (Hnonempty : poses g <> [] ->
            (0 <? Z.of_nat (length (poses g)))%Z = true).
  { intros Hne. apply Z.ltb_lt. destruct (poses g); [contradiction|].
    simpl length. lia. }
  split; [|split].
  - intros Hall.
    assert (Hup : updateSkeleton g video old =
                  Drawn (flat_map (poseChildren g video) (poses g))).
    { unfold updateSkeleton.
      rewrite clearGroup_empty, drawPoses_complete by exact Hall.
      reflexivity. }
    split; [exact Hup|].
    intros Hne. unfold animateFrame. rewrite (Hnonempty Hne), Hup.
    destruct (animate g rnd time_ms now_of c pool). reflexivity.
  - intros before pose after Hposes Hall Hnone.
    assert (Hup : updateSkeleton g video old =
                  Threw (flat_map (poseChildren g video) before)).
    { unfold updateSkeleton.
      rewrite clearGroup_empty, Hposes, drawPoses_broken by assumption.
      reflexivity. }
    split; [exact Hup|].
    unfold animateFrame. rewrite Hup, Hnonempty; [reflexivity|].
    rewrite Hposes. destruct before; discriminate.
  - intros Hnil. unfold animateFrame. rewrite Hnil. simpl.
    destruct (animate g rnd time_ms now_of c pool). reflexivity.
Qed.

Lemma skeleton_rebuilt_or_frame_abandoned_witness :
  animateFrame (globalsPoses [poseCentre; poseBroken]) video0 rndZero 0
    (fun _ => 0%Z) 3 [SkPoint (mkVector3 9 9 9)] [bubbleAt 3 4] =
  FrameThrew (flat_map (poseChildren (globalsPoses [poseCentre; poseBroken])
                          video0) [poseCentre])
    3 [bubbleAt 3 4].
Proof.
  refine (proj2 (proj1 (proj2
    (skeleton_rebuilt_or_frame_abandoned
       (globalsPoses [poseCentre; poseBroken]) video0 rndZero 0%Z
       (fun _ => 0%Z) 3%nat [SkPoint (mkVector3 9 9 9)] [bubbleAt 3 4]))
    [poseCentre] poseBroken [] eq_refl _ eq_refl)).
  constructor; [discriminate|constructor].
Defined.

Lemma drawLine_endpoints_drawn g video kps connection a b :
  In (SkLine a b) (drawLine g video kps connection) ->
  In (SkPoint a) (drawPoints g video kps)
  /\ In (SkPoint b) (drawPoints g video kps).
Proof.
  unfold drawLine. destruct connection as [startIdx endIdx].
  destruct (nth_error kps startIdx) as [start|] eqn:Hs; [|contradiction].
  destruct (nth_error kps endIdx) as [end_|] eqn:He; [|contradiction].
  destruct (Rltb 0.2 (confidence start)) eqn:Hcs; [|contradiction].
  destruct (Rltb 0.2 (confidence end_)) eqn:Hce; [|contradiction].
  simpl. intros [Heq|[]]. injection Heq as <- <-.
  unfold drawPoints. split; apply in_flat_map.
  - exists start. split; [exact (nth_error_In kps startIdx Hs)|].
    unfold drawPoint. rewrite Hcs. left. reflexivity.
  - exists end_. split; [exact (nth_error_In kps endIdx He)|].
    unfold drawPoint. rewrite Hce. left. reflexivity.
Qed.

Lemma poseChildren_lines_join_points g video pose a b :
  In (SkLine a b) (poseChildren g video pose) ->
  In (SkPoint a) (poseChildren g video pose)
  /\ In (SkPoint b) (poseChildren g video pose).
Proof.
  unfold poseChildren. destruct (keypoints pose) as [kps|]; [|contradiction].
  intros Hin. apply in_app_or in Hin. destruct Hin as [Hin|Hin].
  - unfold drawPoints in Hin. apply in_flat_map in Hin.
    destruct Hin as (k & _ & Hk). unfold drawPoint in Hk.
    destruct (Rltb 0.2 (confidence k)); [|contradiction].
    destruct Hk as [Hk|[]]. discriminate.
  - unfold drawLines in Hin. apply in_flat_map in Hin.
    destruct Hin as (connection & _ & Hl).
    destruct (drawLine_endpoints_drawn g video kps connection a b Hl)
      as [Ha Hb].
    split; apply in_or_app; left; assumption.
Qed.

Lemma updateSkeleton_children g video old :
  exists ps,
    (forall pose, In pose ps -> In pose (poses g))
    /\ skeletonChildren (updateSkeleton g video old) =
         flat_map (poseChildren g video) ps.
Proof.
  unfold updateSkeleton. rewrite clearGroup_empty.
  assert (Hgen : forall ps acc,
            exists used,
              (forall pose, In pose used -> In pose ps)
              /\ skeletonChildren (drawPoses g video ps acc) =
                   acc ++ flat_map (poseChildren g video) used).
  { induction ps as [|pose rest IH]; intros acc.
    - exists []. split; [intros ? []|]. simpl. rewrite app_nil_r.
      reflexivity.
    - cbn [drawPoses]. destruct (keypoints pose) as [kps|] eqn:Hk.
      + destruct (IH (acc ++ drawPoints g video kps ++ drawLines g video kps))
          as (used & Hsub & Heq).
        exists (pose :: used). split.
        * intros p [->|Hp]; [left; reflexivity|right; apply Hsub; exact Hp].
        * rewrite Heq. cbn [flat_map]. unfold poseChildren at 2.
          rewrite Hk, <- !app_assoc. reflexivity.
      + exists []. split; [intros ? []|]. simpl. rewrite app_nil_r.
        reflexivity. }
  destruct (Hgen (poses g) []) as (used & Hsub & Heq).
  exists used. split; [exact Hsub|exact Heq].
Qed.

(** X20.  However [updateSkeleton] ends, every line in the group joins two
    points that are in the group as well: a limb is drawn only between two
    drawn keypoints. *)
Theorem skeleton_lines_join_drawn_points :
  forall g video old a b,
    let children := skeletonChildren (updateSkeleton g video old) in
    In (SkLine a b) children ->
    In (SkPoint a) children /\ In (SkPoint b) children.
Proof.
  intros g video old a b children Hin.
  destruct (updateSkeleton_children g video old) as (ps & _ & Heq).
  unfold children in *. rewrite Heq in *.
  apply in_flat_map in Hin. destruct Hin as (pose & Hpose & Hl).
  destruct (poseChildren_lines_join_points g video pose a b Hl) as [Ha Hb].
  split; apply in_flat_map; exists pose; split; assumption.
Qed.

Lemma skeleton_lines_join_drawn_points_witness :
  In (SkPoint (getVector3FromKeypoint (globalsPoses [poseCentre]) video0
                 keypointCentre))
     (skeletonChildren
        (updateSkeleton (globalsPoses [poseCentre]) video0 [])).
Proof.
  refine (proj1 (skeleton_lines_join_drawn_points (globalsPoses [poseCentre])
                   video0 []
                   (getVector3FromKeypoint (globalsPoses [poseCentre]) video0
                      keypointCentre)
                   (getVector3FromKeypoint (globalsPoses [poseCentre]) video0
                      keypointCentre) _)).
  unfold updateSkeleton.
  rewrite clearGroup_empty, drawPoses_complete
    by (constructor; [discriminate|constructor]).
  change (poses (globalsPoses [poseCentre])) with [poseCentre].
  cbn [app flat_map skeletonChildren]. rewrite app_nil_r.
  unfold poseChildren.
  change (keypoints poseCentre) with (Some (repeat keypointCentre 17)).
  apply in_or_app. right. unfold drawLines. apply in_flat_map.
  exists (5, 7)%nat. split; [left; reflexivity|].
  unfold drawLine.
  change (nth_error (repeat keypointCentre 17) 5) with (Some keypointCentre).
  change (nth_error (repeat keypointCentre 17) 7) with (Some keypointCentre).
  cbv iota beta.
  assert (H : Rltb 0.2 (confidence keypointCentre) = true)
    by (apply Rltb_true; simpl; lra).
  rewrite H. left. reflexivity.
Defined.

Lemma drawPoint_length g video k : (length (drawPoint g video k) <= 1)%nat.
Proof.
  unfold drawPoint. destruct (Rltb 0.2 (confidence k)); simpl; lia.
Qed.

Lemma drawLine_length g video kps connection :
  (length (drawLine g video kps connection) <= 1)%nat.
Proof.
  unfold drawLine. destruct connection as [s e].
  destruct (nth_error kps s); [|simpl; lia].
  destruct (nth_error kps e); [|simpl; lia].
  destruct (_ && _)%bool; simpl; lia.
Qed.

Lemma flat_map_length_le {A B} (f : A -> list B) (l : list A) :
  (forall x, (length (f x) <= 1)%nat) ->
  (length (flat_map f l) <= length l)%nat.
Proof.
  intros Hf. induction l as [|x l IH]; [simpl; lia|].
  simpl. rewrite length_app. pose proof (Hf x). lia.
Qed.

Lemma poseChildren_length g video pose :
  (length (poseChildren g video pose) <= keypointCount pose + 12)%nat.
Proof.
  unfold poseChildren, keypointCount.
  destruct (keypoints pose) as [kps|]; [|simpl; lia].
  rewrite length_app.
  pose proof (flat_map_length_le (drawPoint g video) kps
                (drawPoint_length g video)) as Hp.
  pose proof (flat_map_length_le (drawLine g video kps) connections
                (drawLine_length g video kps)) as Hl.
  change (length connections) with 12%nat in Hl.
  unfold drawPoints, drawLines. lia.
Qed.

Lemma poseChildren_unconfident g video pose :
  (forall kps, keypoints pose = Some kps ->
               Forall (fun k => confidence k <= 0.2) kps) ->
  poseChildren g video pose = [].
Proof.
  intros Hlow. unfold poseChildren.
  destruct (keypoints pose) as [kps|]; [|reflexivity].
  specialize (Hlow kps eq_refl). rewrite Forall_forall in Hlow.
  assert (Hpts : drawPoints g video kps = []).
  { unfold drawPoints. induction kps as [|k kps IH]; [reflexivity|].
    simpl. unfold drawPoint at 1.
    assert (Hk : Rltb 0.2 (confidence k) = false).
    { apply Rltb_false. apply Hlow. left. reflexivity. }
    rewrite Hk. apply IH. intros x Hx. apply Hlow. right. exact Hx. }
  assert (Hlin : forall cs, flat_map (drawLine g video kps) cs = []).
  { induction cs as [|[s e] cs IH]; [reflexivity|].
    simpl. rewrite IH, app_nil_r.
    destruct (nth_error kps s) as [ks|] eqn:Hs; [|reflexivity].
    destruct (nth_error kps e); [|reflexivity].
    assert (Hk : Rltb 0.2 (confidence ks) = false).
    { apply Rltb_false. apply Hlow. exact (nth_error_In kps s Hs). }
    rewrite Hk. reflexivity. }
  unfold drawLines. rewrite Hpts, Hlin. reflexivity.
Qed.

Lemma poseChildren_in_plane g video pose :
  Forall childInPlane (poseChildren g video pose).
Proof.
  unfold poseChildren. destruct (keypoints pose) as [kps|]; [|constructor].
  apply Forall_forall. intros child Hin.
  apply in_app_or in Hin. destruct Hin as [Hin|Hin].
  - unfold drawPoints in Hin. apply in_flat_map in Hin.
    destruct Hin as (k & _ & Hk). unfold drawPoint in Hk.
    destruct (Rltb 0.2 (confidence k)); [|contradiction].
    destruct Hk as [<-|[]]. reflexivity.
  - unfold drawLines in Hin. apply in_flat_map in Hin.
    destruct Hin as ([s e] & _ & Hl). unfold drawLine in Hl.
    destruct (nth_error kps s); [|contradiction].
    destruct (nth_error kps e); [|contradiction].
    destruct (_ && _)%bool; [|contradiction].
    destruct Hl as [<-|[]]. split; reflexivity.
Qed.

(** X21.  The group that [updateSkeleton] leaves lies in the plane [z = 0]
    and holds, for each pose, at most one point per keypoint and at most
    twelve lines; when no keypoint of any pose has confidence above 0.2 and
    every pose has keypoints, the group is left empty. *)
Theorem skeleton_size_and_plane :
  forall g video old,
    let children := skeletonChildren (updateSkeleton g video old) in
    Forall childInPlane children
    /\ (length children
        <= list_sum (map (fun pose => keypointCount pose + 12) (poses g)))%nat
    /\ (Forall hasKeypoints (poses g) ->
        (forall pose kps,
            In pose (poses g) -> keypoints pose = Some kps ->
            Forall (fun k => confidence k <= 0.2) kps) ->
        updateSkeleton g video old = Drawn []).
Proof.
  intros g video old children.
  split; [|split].
  - destruct (updateSkeleton_children g video old) as (ps & _ & Heq).
    unfold children. rewrite Heq.
    apply Forall_forall. intros child Hin.
    apply in_flat_map in Hin. destruct Hin as (pose & _ & Hc).
    pose proof (poseChildren_in_plane g video pose) as Hall.
    rewrite Forall_forall in Hall. apply Hall. exact Hc.
  - unfold children, updateSkeleton. rewrite clearGroup_empty.
    assert (Hgen : forall ps acc,
      (length (skeletonChildren (drawPoses g video ps acc))
       <= length acc
          + list_sum (map (fun pose => keypointCount pose + 12) ps))%nat).
    { induction ps as [|pose rest IH]; intros acc.
      - simpl. lia.
      - cbn [drawPoses map].
        match goal with
        | |- context [list_sum (?x :: ?l)] =>
            change (list_sum (x :: l)) with (x + list_sum l)%nat
        end.
        pose proof (poseChildren_length g video pose) as Hlen.
        unfold poseChildren in Hlen.
        destruct (keypoints pose) as [kps|] eqn:Hk.
        + specialize (IH (acc ++ drawPoints g video kps
                              ++ drawLines g video kps)).
          rewrite !length_app in IH. rewrite length_app in Hlen. lia.
        + simpl. lia. }
    specialize (Hgen (poses g) []). simpl in Hgen. exact Hgen.
  - intros Hall Hlow.
    unfold updateSkeleton.
    rewrite clearGroup_empty, drawPoses_complete by exact Hall.
    simpl. f_equal.
    assert (Hgen : forall ps,
              (forall pose, In pose ps -> In pose (poses g)) ->
              flat_map (poseChildren g video) ps = []).
    { induction ps as [|pose rest IH]; intros Hsub; [reflexivity|].
      simpl. rewrite IH by (intros p Hp; apply Hsub; right; exact Hp).
      rewrite poseChildren_unconfident; [reflexivity|].
      intros kps Hk. apply (Hlow pose kps); [|exact Hk].
      apply Hsub. left. reflexivity. }
    apply Hgen. intros pose Hp. exact Hp.
Qed.

Lemma skeleton_size_and_plane_witness :
  updateSkeleton
    (globalsPoses [mkPose (Some [keypointThreshold; keypointFaint])])
    video0 [SkPoint (mkVector3 9 9 9)] = Drawn [].
Proof.
  apply (proj2 (proj2 (skeleton_size_and_plane
                         (globalsPoses
                            [mkPose (Some [keypointThreshold; keypointFaint])])
                         video0 [SkPoint (mkVector3 9 9 9)]))).
  - constructor; [discriminate|constructor].
  - intros pose kps [<-|[]] Hk. injection Hk as <-.
    repeat constructor; simpl; lra.
Defined.

(** X22.  The two confidence thresholds differ at the boundary: a keypoint
    whose confidence is exactly 0.2 is not drawn by [updateSkeleton], yet
    [interactWithKeypoint] acts on it and pushes a bubble inside its radius
    strictly farther away; every keypoint that is drawn does interact. *)
Theorem threshold_keypoint_pushes_but_is_not_drawn :
  forall g video b k,
    video_width g <> 0 -> video_height g <> 0 ->
    (confidence k = 0.2 ->
     keypointDist g b k < interactionRadius (CONFIG g) ->
     drawPoint g video k = []
     /\ keypointDist g b k
        < keypointDist g (interactWithKeypoint g b (Some k)) k)
    /\ (drawPoint g video k <> [] -> 0.2 <= confidence k).
Proof.
  intros g video b k _ _. split.
  - intros Hc Hd. split.
    + unfold drawPoint.
      assert (Hk : Rltb 0.2 (confidence k) = false)
        by (apply Rltb_false; lra).
      rewrite Hk. reflexivity.
    + assert (Hc' : 0.2 <= confidence k) by lra.
      rewrite (interactWithKeypoint_near_distance g b k Hc' Hd).
      assert (Hd0 : 0 <= keypointDist g b k) by apply sqrt_pos.
      set (radius := interactionRadius (CONFIG g)) in *.
      set (d := keypointDist g b k) in *.
      assert (Hr : 0 < radius) by lra.
      assert (0 < (radius - d) / radius); [|lra].
      apply Rmult_lt_0_compat; [lra|apply Rinv_0_lt_compat; exact Hr].
  - unfold drawPoint. destruct (Rltb 0.2 (confidence k)) eqn:Hk.
    + intros _. apply Rltb_true in Hk. lra.
    + intros Hne. contradiction.
Qed.

Lemma threshold_keypoint_pushes_but_is_not_drawn_witness :
  drawPoint globalsSkeleton video0 keypointThreshold = []
  /\ keypointDist globalsSkeleton (bubbleAt 3 4) keypointThreshold
     < keypointDist globalsSkeleton
         (interactWithKeypoint globalsSkeleton (bubbleAt 3 4)
            (Some keypointThreshold)) keypointThreshold.
Proof.
  assert (Hvw : video_width globalsSkeleton <> 0) by (simpl; lra).
  assert (Hvh : video_height globalsSkeleton <> 0) by (simpl; lra).
  apply (proj1 (threshold_keypoint_pushes_but_is_not_drawn globalsSkeleton
                  video0 (bubbleAt 3 4) keypointThreshold Hvw Hvh)).
  - reflexivity.
  - assert (H5 : keypointDist globalsSkeleton (bubbleAt 3 4)
                   keypointThreshold = 5).
    { unfold keypointDist, targetX, targetY. simpl.
      match goal with
      | |- sqrt ?a = _ => replace a with (5 * 5) by lra
      end.
      apply sqrt_square. lra. }
    rewrite H5. simpl. lra.
Defined.
